(** * mailbot: rule engine, dedup window, content handlers and supervisor

    A shallow embedding of [query_dsl.py], [email_utils.py], [handlers.py],
    [proxy_utils.py] and [imap_utils.py], with the properties the
    specification states about them. *)

From stdpp Require Import gmap strings list.
From Stdlib Require Import Ascii String ZArith Lia.

Open Scope string_scope.
Open Scope list_scope.

(** ** Characters and small string helpers *)

(** The double quote character (code 34). *)
Definition dquote : ascii := "034"%char.
Definition lparen : ascii := "("%char.
Definition rparen : ascii := ")"%char.
Definition space : ascii := " "%char.

Definition chr (c : ascii) : string := String c EmptyString.

(** [sep.join(parts)] *)
Fixpoint join (sep : string) (parts : list string) : string :=
  match parts with
  | [] => ""
  | [p] => p
  | p :: rest => p +:+ sep +:+ join sep rest
  end.

(** Left-to-right run of a partial transition function over a string. *)
Fixpoint sfold {S : Type} (step : S -> ascii -> option S) (s : string) (st : S)
  : option S :=
  match s with
  | EmptyString => Some st
  | String c s' =>
      match step st c with
      | Some st' => sfold step s' st'
      | None => None
      end
  end.

(** ** query_dsl.py *)

Module QueryDSL.

(** The four field builders [From], [To], [Cc], [Subject]. *)
Inductive field := FROM | TO | CC | SUBJECT.

Definition keyword (f : field) : string :=
  match f with
  | FROM => "FROM"
  | TO => "TO"
  | CC => "CC"
  | SUBJECT => "SUBJECT"
  end.

(** A thunk of the DSL: the lambda of a field builder, or the closure
    returned by [or_combine], [and_combine], [not_combine] over its items. *)
#[warnings="-register-all"]
Inductive thunk :=
| field_thunk (f : field) (v : string)
| or_combine (items : list thunk)
| and_combine (items : list thunk)
| not_combine (items : list thunk).

(** f'(FROM "{v}")' *)
Definition field_match (f : field) (v : string) : string :=
  "(" +:+ keyword f +:+ " " +:+ chr dquote +:+ v +:+ chr dquote +:+ ")".

(** Calling a thunk. [None] is the [IndexError] that [items[0]] raises in
    [or_combine] and [and_combine] on an empty item list. *)
Fixpoint call (t : thunk) : option string :=
  match t with
  | field_thunk f v => Some (field_match f v)
  | or_combine items =>
      match items with
      | [] => None
      | i0 :: rest =>
          match call i0 with
          | None => None
          | Some r0 =>
              (fix reduce (l : list thunk) (result : string) : option string :=
                 match l with
                 | [] => Some result
                 | item :: l' =>
                     match call item with
                     | None => None
                     | Some s => reduce l' ("(OR " +:+ result +:+ " " +:+ s +:+ ")")
                     end
                 end) rest r0
          end
      end
  | and_combine items =>
      match items with
      | [] => None
      | i0 :: rest =>
          match call i0 with
          | None => None
          | Some r0 =>
              (fix reduce (l : list thunk) (result : string) : option string :=
                 match l with
                 | [] => Some result
                 | item :: l' =>
                     match call item with
                     | None => None
                     | Some s => reduce l' ("(" +:+ result +:+ " " +:+ s +:+ ")")
                     end
                 end) rest r0
          end
      end
  | not_combine items =>
      match
        (fix calls (l : list thunk) : option (list string) :=
           match l with
           | [] => Some []
           | x :: l' =>
               match call x with
               | None => None
               | Some s =>
                   match calls l' with
                   | None => None
                   | Some ss => Some (s :: ss)
                   end
               end
           end) items
      with
      | None => None
      | Some ss => Some ("(NOT " +:+ join " " ss +:+ ")")
      end
  end.

(** Field builders: one thunk per value. *)
Definition From (args : list string) : list thunk := map (field_thunk FROM) args.
Definition To (args : list string) : list thunk := map (field_thunk TO) args.
Definition Cc (args : list string) : list thunk := map (field_thunk CC) args.
Definition Subject (args : list string) : list thunk := map (field_thunk SUBJECT) args.

(** Plural aliases. *)
Definition Froms := From.
Definition Tos := To.
Definition Ccs := Cc.
Definition SubjectPatterns := Subject.

(** Combinator builders: flatten the arguments and wrap. *)
Definition AnyOf (args : list (list thunk)) : list thunk := [or_combine (List.concat args)].
Definition AllOf (args : list (list thunk)) : list thunk := [and_combine (List.concat args)].
Definition Not (args : list (list thunk)) : list thunk := [not_combine (List.concat args)].

(** [parseQuery], alias [Match]. *)
Definition parseQuery (expr : list thunk) : option string :=
  match expr with
  | [t] => call t
  | _ => call (or_combine expr)
  end.

Definition Match := parseQuery.

(** *** What the syntax tests measure *)

(** Parenthesis depth: [None] when a closing parenthesis has no partner. *)
Definition paren_step (d : nat) (c : ascii) : option nat :=
  if Ascii.eqb c lparen then Some (S d)
  else if Ascii.eqb c rparen then
         match d with O => None | S d' => Some d' end
       else Some d.

Definition balanced (s : string) : bool :=
  match sfold paren_step s O with
  | Some O => true
  | _ => false
  end.

(** The words of a query outside its quoted values.  The state is
    (inside a quoted value?, word read so far). *)
Definition valid_keywords : list string :=
  ["FROM"; "TO"; "CC"; "SUBJECT"; "OR"; "NOT"].

Definition word_ok (w : string) : bool :=
  String.eqb w "" || existsb (String.eqb w) valid_keywords.

Definition is_delim (c : ascii) : bool :=
  Ascii.eqb c lparen || Ascii.eqb c rparen || Ascii.eqb c space.

Definition word_step (st : bool * string) (c : ascii) : option (bool * string) :=
  let '(inq, w) := st in
  if inq then
    if Ascii.eqb c dquote then Some (false, "") else Some (true, "")
  else if Ascii.eqb c dquote then
         if word_ok w then Some (true, "") else None
       else if is_delim c then
              if word_ok w then Some (false, "") else None
            else Some (false, w +:+ chr c).

Definition only_keywords (s : string) : bool :=
  match sfold word_step s (false, "") with
  | Some (false, w) => word_ok w
  | _ => false
  end.

(** Values that do not disturb the syntax around them. *)
Definition plain_char (c : ascii) : bool :=
  negb (Ascii.eqb c lparen || Ascii.eqb c rparen || Ascii.eqb c dquote).

Fixpoint plain_value (v : string) : bool :=
  match v with
  | EmptyString => true
  | String c v' => plain_char c && plain_value v'
  end.

Fixpoint plain (t : thunk) : bool :=
  match t with
  | field_thunk _ v => plain_value v
  | or_combine items | and_combine items | not_combine items =>
      forallb plain items
  end.

(** No [or_combine] or [and_combine] over an empty list. *)
Fixpoint nonempty (t : thunk) : bool :=
  match t with
  | field_thunk _ _ => true
  | or_combine items | and_combine items =>
      match items with [] => false | _ => forallb nonempty items end
  | not_combine items => forallb nonempty items
  end.

(** A string that leaves both scanners where it found them: every
    parenthesis it opens it closes, and outside quoted values it holds only
    keywords. *)
Definition closed_form (s : string) : Prop :=
  (forall d, sfold paren_step s d = Some d) /\
  sfold word_step s (false, "") = Some (false, "").

End QueryDSL.

(** ** Python values shared by the handlers *)

(** The exception classes the code distinguishes.  [SMTPException] and
    [URLError] are subclasses of [OSError] (which [socket.error] aliases),
    [IMAP4_abort] of [IMAP4_error]; [KeyboardInterrupt] and [SystemExit] are
    not subclasses of [Exception]. *)
Inductive exn :=
| OSError
| SMTPException
| URLError
| IMAP4_error
| IMAP4_abort
| KeyError
| IndexError
| AttributeError
| TypeError
| OtherException
| KeyboardInterrupt
| SystemExit.

Definition is_SMTPException (e : exn) : bool :=
  match e with SMTPException => true | _ => false end.

Definition is_socket_error (e : exn) : bool :=
  match e with OSError | SMTPException | URLError => true | _ => false end.

Definition is_IMAP4_abort (e : exn) : bool :=
  match e with IMAP4_abort => true | _ => false end.

Definition is_KeyboardInterrupt (e : exn) : bool :=
  match e with KeyboardInterrupt => true | _ => false end.

Definition is_Exception (e : exn) : bool :=
  match e with KeyboardInterrupt | SystemExit => false | _ => true end.

(** [s.lower()] on ASCII letters. *)
Definition lower_char (c : ascii) : ascii :=
  let n := nat_of_ascii c in
  if (65 <=? n)%nat && (n <=? 90)%nat then ascii_of_nat (n + 32) else c.

Fixpoint lower (s : string) : string :=
  match s with
  | EmptyString => EmptyString
  | String c s' => String (lower_char c) (lower s')
  end.

(** [needle in hay] on strings. *)
Fixpoint contains (needle hay : string) : bool :=
  String.prefix needle hay
  || match hay with
     | EmptyString => false
     | String _ hay' => contains needle hay'
     end.

(** Truth value of a header value or address: [None] and the empty string
    are false. *)
Definition truthy (v : option string) : bool :=
  match v with
  | Some s => negb (String.eqb s "")
  | None => false
  end.

(** [a or b] *)
Definition py_or (a b : option string) : option string :=
  if truthy a then a else b.

(** [str(v)] *)
Definition str (v : option string) : string :=
  match v with Some s => s | None => "None" end.

(** A parsed message ([email.message.Message]): its header list in order and
    its payload.  The raw bytes of a fetched message are represented by the
    message the parser ([email.message_from_string], [Parser().parsestr],
    an external collaborator) makes of them. *)
Record Message := {
  headers : list (string * string);
  payload : string;
}.

(** [themail[name]]: the first header of that name, compared without case;
    [None] when there is none. *)
Fixpoint lookup_header (name : string) (hs : list (string * string)) : option string :=
  match hs with
  | [] => None
  | (k, v) :: hs' =>
      if String.eqb (lower k) (lower name) then Some v else lookup_header name hs'
  end.

Definition getitem (themail : Message) (name : string) : option string :=
  lookup_header name (headers themail).

(** [not themail]: a message is false when it has no header ([__len__]). *)
Definition not_message (themail : Message) : bool :=
  match headers themail with [] => true | _ => false end.

(** A dict with string keys, in insertion order. *)
Definition dict := list (string * string).

Fixpoint dict_get (d : dict) (k : string) : option string :=
  match d with
  | [] => None
  | (k', v) :: d' => if String.eqb k' k then Some v else dict_get d' k
  end.

Definition keys (d : dict) : list string := map fst d.

(** The body handed to [build_message]: a text, or a forward note whose
    [str.format(sender=...)] is left symbolic. *)
Inductive Body :=
| Text (s : string)
| Format (template : string) (sender : option string).

(** What [build_message] returns.  The generated Message-ID and the Date are
    not part of the model; the domain asked for is. *)
Record EmailMessage := {
  msg_subject : option string;
  msg_from : string;
  msg_to : option string;
  msg_reply_to : option string;
  msg_id_domain : option string;
  msg_in_reply_to : option string;
  msg_body : Body;
  msg_attachment : option (string * string * string);
  msg_attached_mail : option Message;
}.

(** An element of the data list of an IMAP response: bytes, [None], or a
    tuple (of a FETCH) whose element 0 is the envelope text and whose further
    elements are message bytes. *)
Inductive Item :=
| ItemBytes (b : string)
| ItemNone
| ItemTuple (meta : string) (rest : list Message).

(** [runtime_options] *)
Record Options := {
  smtp_server : string;
  smtp_user : string;
  smtp_pass : string;
}.

(** The attributes of [config_data] that the handlers read. *)
Record Config := {
  config_smtp_server : string;
  config_smtp_user : string;
  work_forward_to : string;
  work_reply_from : string;
  work_forward_by : string;
  work_reply : dict;
  work_forward_note : dict;
  obnoxious_reply_from : string;
  obnoxious_reply : dict;
  proxy_send_from : string;
  proxy_store_to : string;
  kindle_send_from : string;
  kindle_send_to : string;
}.

(** The dict [proxy_parse_options] returns. *)
Record ProxyOptions := {
  as_txt : bool;
  bleach_html : bool;
  include_images : bool;
  txt_without_links : bool;
  send_using_smtp : bool;
  as_inline : bool;
  send_from : string;
  send_to : option string;
}.

(** An IMAP4 connection, as far as the code inspects it. *)
Record Connection := {
  capabilities : list string;
}.

(** ** The outside world *)

(** The calls that leave the program: the mailbox session primitives, the
    outgoing delivery collaborator, the fetch-and-transform collaborator of
    the proxy, and [time.sleep]. *)
Inductive Op :=
| uid_SEARCH (query : string)
| uid_FETCH (theuids : string)
| uid_STORE (theuids : string) (item : string) (flags : string)
| uid_COPY (theuids : string) (folder : string)
| expunge
| append (folder : string) (msg : EmailMessage)
| send_fn (options : Options) (from_addr : string) (to_addr : option string)
    (msg : EmailMessage)
| fetch_and_transform (url : string) (subject : option string) (o : ProxyOptions)
| IDLE
| connect_and_select
| disconnect_op
| sleep (secs : Z).

(** What the world answers. *)
Inductive Resp :=
| RImap (typ : string) (data : list Item)
| RIdle (typ : string) (untagged_responses : list string)
| RConn (c : Connection)
| RContent (final_subject : option string) (body : string)
    (attachment : option (string * string * string))
| RNone
| RRaise (e : exn).

(** A world is any function from the calls made so far and the call made
    now to its answer. *)
Definition World := list Op -> Op -> Resp.

(** How a computation ends. *)
Inductive Outcome (A : Type) :=
| Ret (a : A)
| Raise (e : exn).
Arguments Ret {A} a.
Arguments Raise {A} e.

(** A computation reads the world and the calls made before it, and yields
    its outcome with the calls it made itself, in order. *)
Definition M (A : Type) : Type := World -> list Op -> Outcome A * list Op.

Definition ret {A} (a : A) : M A := fun _ _ => (Ret a, []).

Definition raise {A} (e : exn) : M A := fun _ _ => (Raise e, []).

Definition bind {A B} (m : M A) (k : A -> M B) : M B :=
  fun w t =>
    match m w t with
    | (Ret a, d1) => let '(o, d2) := k a w (t ++ d1) in (o, d1 ++ d2)
    | (Raise e, d1) => (Raise e, d1)
    end.

#[global] Instance M_ret : MRet M := @ret.
#[global] Instance M_bind : MBind M := fun A B k m => bind m k.

(** One call to the world. *)
Definition perform (op : Op) : M Resp :=
  fun w t =>
    match w t op with
    | RRaise e => (Raise e, [op])
    | r => (Ret r, [op])
    end.

(** [try: m  except <classes>: h] *)
Definition try_except {A} (m : M A) (classes : exn -> bool) (h : exn -> M A) : M A :=
  fun w t =>
    match m w t with
    | (Raise e, d1) =>
        if classes e then let '(o, d2) := h e w (t ++ d1) in (o, d1 ++ d2)
        else (Raise e, d1)
    | r => r
    end.

(** [m] with its exception, if any, handed back as a value. *)
Definition attempt {A} (m : M A) : M (exn + A) :=
  fun w t =>
    match m w t with
    | (Ret a, d) => (Ret (inr a), d)
    | (Raise e, d) => (Ret (inl e), d)
    end.

(** An IMAP command returns [(typ, data)]. *)
Definition imap (op : Op) : M (string * list Item) :=
  r ← perform op;
  match r with
  | RImap typ data => mret (typ, data)
  | _ => raise TypeError
  end.

(** [send_fn(options, from_addr, to_addr, message)] returns nothing. *)
Definition send (options : Options) (from_addr : string) (to_addr : option string)
    (msg : EmailMessage) : M unit :=
  _ ← perform (send_fn options from_addr to_addr msg); mret tt.

(** ** email_utils.py *)

Definition seen_set := gset (option string).

Definition should_process_message (message_id : option string) (seen_ids : seen_set)
  : bool * seen_set :=
  if decide (message_id ∈ seen_ids) then (false, seen_ids)
  else (true, seen_ids ∪ {[message_id]}).

Fixpoint detect_language_loop (available_languages : list string)
    (content_lang : string) (default : string) : string :=
  match available_languages with
  | [] => default
  | lang :: rest =>
      if contains lang (lower content_lang) then lang
      else detect_language_loop rest content_lang default
  end.

Definition detect_language (email_message : Message)
    (available_languages : list string) (default : string) : string :=
  let content_lang :=
    match getitem email_message "Content-Language" with
    | Some v => v
    | None => ""
    end in
  detect_language_loop available_languages content_lang default.

(** [build_message]: the subject takes the prefix when there is one, and
    Reply-To, In-Reply-To and References are set only for a true value. *)
Definition build_message (subject : option string) (from_addr : string)
    (to_addr : option string) (body : Body) (subject_prefix : option string)
    (in_reply_to : option string) (reply_to : option string)
    (message_id_domain : option string)
    (attachment : option (string * string * string))
    (attached_mail : option Message) : EmailMessage :=
  {| msg_subject :=
       if truthy subject_prefix then Some (str subject_prefix +:+ " " +:+ str subject)
       else subject;
     msg_from := from_addr;
     msg_to := to_addr;
     msg_reply_to := if truthy reply_to then reply_to else None;
     msg_id_domain := message_id_domain;
     msg_in_reply_to := if truthy in_reply_to then in_reply_to else None;
     msg_body := body;
     msg_attachment := attachment;
     msg_attached_mail := attached_mail |}.

(** ** handlers.py *)

(** Handler signature:
    [handler(server, listofuids, options, seen_ids) -> (res, data, seen_ids)] *)
Definition handler : Type :=
  Connection -> list string -> Options -> seen_set ->
  M (string * list Item * seen_set).

Definition Expunge : handler :=
  fun server listofuids options seen_ids =>
    '(res, data) ← imap expunge;
    mret (res, data, seen_ids).

Definition Delete : handler :=
  fun server listofuids options seen_ids =>
    let theuids := join "," listofuids in
    '(res, data) ← imap (uid_STORE theuids "+FLAGS" "(\Deleted)");
    mret (res, data, seen_ids).

Definition Copy (folder : string) : handler :=
  fun server listofuids options seen_ids =>
    let theuids := join "," listofuids in
    '(res, data) ← imap (uid_COPY theuids folder);
    mret (res, data, seen_ids).

Definition Move (folder : string) : handler :=
  fun server listofuids options seen_ids =>
    '(res, data, seen_ids) ← Copy folder server listofuids options seen_ids;
    if decide (res = "OK") then Delete server listofuids options seen_ids
    else mret (res, data, seen_ids).

Definition SetFlags (flag : string) : handler :=
  fun server listofuids options seen_ids =>
    let theuids := join "," listofuids in
    '(res, data) ← imap (uid_STORE theuids "+FLAGS" flag);
    mret (res, data, seen_ids).

Definition SetFlagsAndMove (flag folder : string) : handler :=
  fun server listofuids options seen_ids =>
    '(res, data, seen_ids) ← SetFlags flag server listofuids options seen_ids;
    if decide (res = "OK") then Move folder server listofuids options seen_ids
    else mret (res, data, seen_ids).

(** [d[k]], raising [KeyError]. *)
Definition dict_getitem (d : dict) (k : string) : M string :=
  match dict_get d k with
  | Some v => mret v
  | None => raise KeyError
  end.

(** [for ret in data: ...] with the running [seen_ids]. *)
Fixpoint for_items (body : Item -> seen_set -> M seen_set) (data : list Item)
    (seen_ids : seen_set) : M seen_set :=
  match data with
  | [] => mret seen_ids
  | ret :: data' =>
      seen_ids ← body ret seen_ids;
      for_items body data' seen_ids
  end.

(** [thesender = themail["Reply-To"] or themail["From"] or themail["Sender"]] *)
Definition reply_sender (themail : Message) : option string :=
  py_or (py_or (getitem themail "Reply-To") (getitem themail "From"))
        (getitem themail "Sender").

(** The two messages [WorkEmail] builds for one mail. *)
Definition work_reply_msg (config : Config) (themail : Message)
    (reply_body : string) : EmailMessage :=
  build_message (getitem themail "Subject") (work_reply_from config)
    (reply_sender themail) (Text reply_body) (Some "Re:")
    (getitem themail "Message-ID") (Some (work_forward_to config))
    (Some "away") None None.

Definition work_forward_msg (config : Config) (themail : Message)
    (fwd_note : string) : EmailMessage :=
  build_message (getitem themail "Subject") (work_forward_by config)
    (Some (work_forward_to config)) (Format fwd_note (reply_sender themail))
    (Some "Fwd:") (getitem themail "Message-ID") (reply_sender themail)
    None None (Some themail).

(** The body of the loop of [WorkEmail.handler] over the fetched data. *)
Definition WorkEmail_item (config : Config) (options : Options) (ret : Item)
    (seen_ids : seen_set) : M seen_set :=
  match ret with
  | ItemTuple _ rest =>
      match rest with
      | [] => mret seen_ids
      | themail :: _ =>
          if not_message themail then mret seen_ids
          else
            let '(should_process, seen_ids) :=
              should_process_message (getitem themail "Message-ID") seen_ids in
            if negb should_process then mret seen_ids
            else
              let thesender := reply_sender themail in
              let lang := detect_language themail (keys (work_reply config)) "en" in
              reply_en ← dict_getitem (work_reply config) "en";
              let reply_body := default reply_en (dict_get (work_reply config) lang) in
              note_en ← dict_getitem (work_forward_note config) "en";
              let fwd_note := default note_en (dict_get (work_forward_note config) lang) in
              let reply_msg := work_reply_msg config themail reply_body in
              let forward_msg := work_forward_msg config themail fwd_note in
              _ ← try_except
                    (send options (work_forward_by config)
                       (Some (work_forward_to config)) forward_msg)
                    is_SMTPException (fun _ => mret tt);
              _ ← try_except
                    (send options (work_reply_from config) thesender reply_msg)
                    is_SMTPException (fun _ => mret tt);
              mret seen_ids
      end
  | _ => mret seen_ids
  end.

Definition WorkEmail (config : Config) : handler :=
  fun server listofuids options seen_ids =>
    let theuids := join "," listofuids in
    '(res, data) ← imap (uid_FETCH theuids);
    seen_ids ← for_items (WorkEmail_item config options) data seen_ids;
    mret (res, data, seen_ids).

Definition obnoxious_reply_msg (config : Config) (themail : Message)
    (reply_body : string) : EmailMessage :=
  build_message (getitem themail "Subject") (obnoxious_reply_from config)
    (reply_sender themail) (Text reply_body) (Some "Re:")
    (getitem themail "Message-ID") None (Some "noteventrashcan") None None.

(** The body of the loop of [Obnoxious.handler]. *)
Definition Obnoxious_item (config : Config) (options : Options) (ret : Item)
    (seen_ids : seen_set) : M seen_set :=
  match ret with
  | ItemTuple _ rest =>
      match rest with
      | [] => mret seen_ids
      | themail :: _ =>
          if not_message themail then mret seen_ids
          else
            let '(should_process, seen_ids) :=
              should_process_message (getitem themail "Message-ID") seen_ids in
            if negb should_process then mret seen_ids
            else
              let thesender := reply_sender themail in
              let lang :=
                detect_language themail (keys (obnoxious_reply config)) "en" in
              reply_en ← dict_getitem (obnoxious_reply config) "en";
              let reply_body :=
                default reply_en (dict_get (obnoxious_reply config) lang) in
              let reply_msg := obnoxious_reply_msg config themail reply_body in
              _ ← try_except
                    (send options (obnoxious_reply_from config) thesender reply_msg)
                    is_SMTPException (fun _ => mret tt);
              mret seen_ids
      end
  | _ => mret seen_ids
  end.

Definition Obnoxious (config : Config) : handler :=
  fun server listofuids options seen_ids =>
    let theuids := join "," listofuids in
    '(res, data) ← imap (uid_FETCH theuids);
    _ ← Delete server listofuids options seen_ids;
    _ ← Expunge server listofuids options seen_ids;
    seen_ids ← for_items (Obnoxious_item config options) data seen_ids;
    mret (res, data, seen_ids).

(** ** proxy_utils.py *)

Definition proxy_parse_options (to_addr : option string) (config : Config)
    (sender : option string) : ProxyOptions :=
  let to_lower := lower (match py_or to_addr (Some "") with Some s => s | None => "" end) in
  let is_kindle := contains "kindle" to_lower in
  {| as_txt := contains "txt" to_lower;
     bleach_html := contains "bleach" to_lower;
     include_images := contains "images" to_lower;
     txt_without_links := contains "wolinks" to_lower;
     send_using_smtp := is_kindle;
     as_inline := contains "inline" to_lower;
     send_from := if is_kindle then kindle_send_from config else proxy_send_from config;
     send_to := if is_kindle then Some (kindle_send_to config) else sender |}.

(** [proxy_build_message_from_url]: the fetch and the content transforms are
    one call to their collaborators, which hands back the subject, body and
    attachment that [build_message] is then called with. *)
Definition proxy_build_message_from_url (url : string) (subject ref_mid : option string)
    (proxy_options : ProxyOptions) : M EmailMessage :=
  r ← perform (fetch_and_transform url subject proxy_options);
  match r with
  | RContent final_subject body attachment =>
      mret (build_message final_subject (send_from proxy_options)
              (send_to proxy_options) (Text body) None ref_mid None
              (Some "proxy") attachment None)
  | _ => raise TypeError
  end.

Definition proxy_fetch_and_store_url (url : string) (subject ref_mid : option string)
    (proxy_options : ProxyOptions) (server : Connection) (smtp_options : Options)
    (config : Config) : M unit :=
  try_except
    (msg ← proxy_build_message_from_url url subject ref_mid proxy_options;
     _ ← imap (append (proxy_store_to config) msg);
     if send_using_smtp proxy_options then
       try_except
         (send smtp_options (send_from proxy_options) (send_to proxy_options) msg)
         is_Exception (fun _ => mret tt)
     else mret tt)
    is_Exception (fun _ => mret tt).

Fixpoint for_urls (body : string -> M unit) (urls : list string) : M unit :=
  match urls with
  | [] => mret tt
  | u :: urls' => _ ← body u; for_urls body urls'
  end.

Section Proxy.

(** [proxy_extract_urls(themail, subject)]: the pattern scan of the body
    parts and the subject, an accepted heuristic; its result set in the
    order the loop iterates it. *)
Variable proxy_extract_urls : Message -> option string -> list string.

Definition proxy_process_email (ret : Item) (server : Connection)
    (smtp_options : Options) (seen_ids : seen_set) (config : Config) : M seen_set :=
  match ret with
  | ItemTuple _ rest =>
      match rest with
      | [] => mret seen_ids
      | themail :: _ =>
          if not_message themail then mret seen_ids
          else
            let '(should_process, seen_ids) :=
              should_process_message (getitem themail "Message-ID") seen_ids in
            if negb should_process then mret seen_ids
            else
              let subject := getitem themail "Subject" in
              let themid := getitem themail "Message-ID" in
              let thesender := py_or (getitem themail "From") (getitem themail "Sender") in
              let proxy_options :=
                proxy_parse_options (getitem themail "To") config thesender in
              let urls := proxy_extract_urls themail subject in
              _ ← for_urls
                    (fun u => proxy_fetch_and_store_url u subject themid
                                proxy_options server smtp_options config)
                    urls;
              mret seen_ids
      end
  | _ => mret seen_ids
  end.

Definition Proxy (config : Config) : handler :=
  fun server listofuids options seen_ids =>
    let theuids := join "," listofuids in
    '(res, data) ← imap (uid_FETCH theuids);
    seen_ids ← for_items
                 (fun ret seen_ids =>
                    proxy_process_email ret server options seen_ids config)
                 data seen_ids;
    mret (res, data, seen_ids).

End Proxy.

(** ** imap_utils.py: idle *)

(** [idle(connection)]: the capability check, then the IDLE exchange (command,
    bounded wait, DONE, completion) as one call; returns
    [(typ, connection.untagged_responses)]. *)
Definition idle (connection : Connection) : M (string * list string) :=
  if decide ("IDLE" ∈ capabilities connection) then
    r ← perform IDLE;
    match r with
    | RIdle typ untagged_responses => mret (typ, untagged_responses)
    | _ => raise TypeError
    end
  else raise IMAP4_error.

(** ** handlers.py: runQueries *)

(** The variable [response]: [True] at first, then the untagged responses of
    the last IDLE. *)
Inductive Response :=
| PyTrue
| Untagged (d : list string).

Definition response_true (r : Response) : bool :=
  match r with
  | PyTrue => true
  | Untagged d => match d with [] => false | _ => true end
  end.

(** [for handlef in handler_funcs: if result == "OK": ...] *)
Fixpoint for_handlers (handler_funcs : list handler) (connection : Connection)
    (listofuids : list string) (runtime_options : Options)
    (result : string) (data : list Item) (seen_ids : seen_set)
  : M (string * list Item * seen_set) :=
  match handler_funcs with
  | [] => mret (result, data, seen_ids)
  | handlef :: rest =>
      if decide (result = "OK") then
        '(result, data, seen_ids) ←
          handlef connection listofuids runtime_options seen_ids;
        for_handlers rest connection listofuids runtime_options result data seen_ids
      else
        for_handlers rest connection listofuids runtime_options result data seen_ids
  end.

(** [data[0].split()] *)
Definition split_first (data : list Item) : M (list string) :=
  match data with
  | [] => raise IndexError
  | ItemBytes b :: _ => mret (String.words b)
  | _ :: _ => raise AttributeError
  end.

Definition query_def : Type := string * list handler.

(** The body of [for query_def in queries], on the variables it reads and
    assigns: [result] and [processed_message_ids]. *)
Definition query_body (connection : Connection) (runtime_options : Options)
    (previous_message_ids : seen_set) (qd : query_def)
    (processed_message_ids : seen_set) : M (string * seen_set) :=
  let '(query, handler_funcs) := qd in
  '(result, data) ← imap (uid_SEARCH query);
  if decide (result = "OK") then
    listofuids ← split_first data;
    if decide (0 < List.length listofuids)%nat then
      let seen_ids := processed_message_ids ∪ previous_message_ids in
      '(result, data, seen_ids) ←
        for_handlers handler_funcs connection listofuids runtime_options
          result data seen_ids;
      mret (result, seen_ids ∖ previous_message_ids)
    else mret (result, processed_message_ids)
  else mret (result, processed_message_ids).

Fixpoint for_queries (connection : Connection) (runtime_options : Options)
    (previous_message_ids : seen_set) (queries : list query_def)
    (result : string) (processed_message_ids : seen_set) : M (string * seen_set) :=
  match queries with
  | [] => mret (result, processed_message_ids)
  | qd :: rest =>
      '(result, processed_message_ids) ←
        query_body connection runtime_options previous_message_ids qd
          processed_message_ids;
      for_queries connection runtime_options previous_message_ids rest
        result processed_message_ids
  end.

(** The variables of the [while] loop. *)
Record LoopState := {
  result : string;
  response : Response;
  processed_message_ids : seen_set;
  previous_message_ids : seen_set;
}.

(** The [if response:] block: one pass over the rule table. *)
Definition pass (connection : Connection) (queries : list query_def)
    (runtime_options : Options) (st : LoopState) : M LoopState :=
  let previous_message_ids := processed_message_ids st in
  let processed_message_ids := (∅ : seen_set) in
  '(result, processed_message_ids) ←
    for_queries connection runtime_options previous_message_ids queries
      (result st) processed_message_ids;
  mret {| result := result; response := response st;
          processed_message_ids := processed_message_ids;
          previous_message_ids := previous_message_ids |}.

(** One turn of the [while] loop. *)
Definition turn (connection : Connection) (queries : list query_def)
    (runtime_options : Options) (st : LoopState) : M LoopState :=
  st ← (if response_true (response st)
        then pass connection queries runtime_options st
        else mret st);
  '(result, response) ← idle connection;
  mret {| result := result; response := Untagged response;
          processed_message_ids := processed_message_ids st;
          previous_message_ids := previous_message_ids st |}.

(** Whether a loop came to its end or is still going when the model stops
    following it. *)
Inductive Completion := Returned | Running.

Fixpoint while_result_OK (fuel : nat) (connection : Connection)
    (queries : list query_def) (runtime_options : Options) (st : LoopState)
  : M Completion :=
  if decide (result st = "OK") then
    match fuel with
    | O => mret Running
    | S fuel' =>
        st ← turn connection queries runtime_options st;
        while_result_OK fuel' connection queries runtime_options st
    end
  else mret Returned.

Definition initial_state : LoopState :=
  {| result := "OK"; response := PyTrue;
     processed_message_ids := ∅; previous_message_ids := ∅ |}.

(** [runQueries(connection, queries, runtime_options)], followed for at most
    [fuel] turns of its loop. *)
Definition runQueries (fuel : nat) (connection : Connection)
    (queries : list query_def) (runtime_options : Options) : M Completion :=
  while_result_OK fuel connection queries runtime_options initial_state.

(** ** imap_utils.py: run *)

Definition connect (password : string) : M Connection :=
  r ← perform connect_and_select;
  match r with
  | RConn c => mret c
  | _ => raise TypeError
  end.

(** [disconnect]: close and logout, any exception swallowed. *)
Definition disconnect (connection : Connection) : M unit :=
  try_except (_ ← perform disconnect_op; mret tt) (fun _ => true) (fun _ => mret tt).

(** The body of [try:] in [run]. *)
Definition session (wakeups : nat) (config : Config) (queries : list query_def)
    (password : string) (runtime_options : Options) : M Completion :=
  connection ← connect password;
  c ← runQueries wakeups connection queries runtime_options;
  match c with
  | Running => mret Running
  | Returned => _ ← disconnect connection; mret Returned
  end.

(** [while True:] of [run], followed for at most [fuel] sessions of at most
    [wakeups] turns each. *)
Fixpoint run_loop (fuel wakeups : nat) (config : Config) (queries : list query_def)
    (password : string) (once : bool) (initial_delay max_delay : Z)
    (runtime_options : Options) (retry_delay : Z) : M Completion :=
  match fuel with
  | O => mret Running
  | S fuel' =>
      r ← attempt (session wakeups config queries password runtime_options);
      match r with
      | inr Running => mret Running
      | inr Returned =>
          if once then mret Returned
          else run_loop fuel' wakeups config queries password once
                 initial_delay max_delay runtime_options initial_delay
      | inl e =>
          if is_socket_error e || is_IMAP4_abort e then
            if once then raise e
            else
              _ ← perform (sleep retry_delay);
              run_loop fuel' wakeups config queries password once
                initial_delay max_delay runtime_options
                (Z.min (retry_delay * 2) max_delay)
          else if is_KeyboardInterrupt e then mret Returned
          else if is_Exception e then
            if once then raise e
            else
              _ ← perform (sleep retry_delay);
              run_loop fuel' wakeups config queries password once
                initial_delay max_delay runtime_options
                (Z.min (retry_delay * 2) max_delay)
          else raise e
      end
  end.

Definition run (fuel wakeups : nat) (config : Config) (queries : list query_def)
    (password : string) (once : bool) (initial_delay max_delay : Z) : M Completion :=
  let runtime_options :=
    {| smtp_server := config_smtp_server config;
       smtp_user := config_smtp_user config;
       smtp_pass := password |} in
  let retry_delay := initial_delay in
  run_loop fuel wakeups config queries password once initial_delay max_delay
    runtime_options retry_delay.

(** ** Vocabulary of the properties *)

Definition is_send (op : Op) : bool :=
  match op with send_fn _ _ _ _ => true | _ => false end.

(** The outgoing delivery collaborator keeps its contract: a send that
    fails raises a delivery error ([smtplib.SMTPException]). *)
Definition delivery_contract (w : World) : Prop :=
  forall h o f t m e, w h (send_fn o f t m) = RRaise e -> e = SMTPException.

(** The mail the body of a handler's loop takes from a fetched item, when it
    does not skip the item at once. *)
Definition mail_of (ret : Item) : option Message :=
  match ret with
  | ItemTuple _ (themail :: _) => if not_message themail then None else Some themail
  | _ => None
  end.

(** A fetched item holding the mail [m]. *)
Definition fetched (meta : string) (m : Message) : Item := ItemTuple meta [m].

(** No call is cut short by [KeyboardInterrupt] or [SystemExit]. *)
Definition no_interrupt (w : World) : Prop :=
  forall h op e, w h op = RRaise e -> is_Exception e = true.

(** The first true value among the headers named, in that order of
    precedence. *)
Fixpoint first_true (themail : Message) (names : list string) : option string :=
  match names with
  | [] => None
  | [name] => getitem themail name
  | name :: names' =>
      if truthy (getitem themail name) then getitem themail name
      else first_true themail names'
  end.

(** Where a call made for the proxy directs its result. *)
Definition directed_to (to : option string) (op : Op) : Prop :=
  match op with
  | fetch_and_transform _ _ o => send_to o = to
  | append _ msg => msg_to msg = to
  | send_fn _ _ to_addr msg => to_addr = to /\ msg_to msg = to
  | _ => False
  end.

(** The mailbox session answers every command with a [(typ, data)] pair. *)
Definition is_imap (op : Op) : bool :=
  match op with
  | uid_SEARCH _ | uid_FETCH _ | uid_STORE _ _ _ | uid_COPY _ _ | expunge
  | append _ _ => true
  | _ => false
  end.

Definition session_answers (w : World) : Prop :=
  forall h op, is_imap op = true -> exists typ data, w h op = RImap typ data.

(** The delays slept, in order. *)
Definition sleeps (calls : list Op) : list Z :=
  omap (fun op => match op with sleep secs => Some secs | _ => None end) calls.

(** The errors [run] treats as connection failures. *)
Definition is_transport_error (e : exn) : bool :=
  is_socket_error e || is_IMAP4_abort e.

(** The [runtime_options] dict that [run] builds. *)
Definition runtime_options_of (config : Config) (password : string) : Options :=
  {| smtp_server := config_smtp_server config;
     smtp_user := config_smtp_user config;
     smtp_pass := password |}.

(** ** Sample data, after the fixtures of the test suite *)

Module Sample.

Definition config : Config :=
  {| config_smtp_server := "smtp.provider.com";
     config_smtp_user := "username";
     work_forward_to := "work@workplace.edu";
     work_reply_from := "Answermachine <answermachine@example.com>";
     work_forward_by := "Forwarder <forwarder@example.com>";
     work_reply :=
       [("en", "Work emails should be sent to work@workplace.edu");
        ("de", "Arbeits-E-Mails bitte an work@workplace.edu senden.")];
     work_forward_note :=
       [("en", "Forwarded from {sender}"); ("de", "Weitergeleitet von {sender}")];
     obnoxious_reply_from := "Devnull <devnull@example.com>";
     obnoxious_reply :=
       [("en", "This is an automated response. Your email has been filtered as unsolicited.");
        ("de", "Dies ist eine automatische Antwort.")];
     proxy_send_from := "Proxy <proxy@example.com>";
     proxy_store_to := "INBOX.Later";
     kindle_send_from := "Kindle <kindle@example.com>";
     kindle_send_to := "user@kindle.com" |}.

Definition options : Options :=
  {| smtp_server := "smtp.provider.com"; smtp_user := "username"; smtp_pass := "secret" |}.

Definition server : Connection := {| capabilities := ["IMAP4REV1"; "IDLE"] |}.

(** A server without the IDLE capability. *)
Definition server_without_idle : Connection := {| capabilities := ["IMAP4REV1"] |}.

Definition mail (from_addr to_addr subject message_id : string) : Message :=
  {| headers := [("Subject", subject); ("From", from_addr); ("To", to_addr);
                 ("Message-ID", message_id)];
     payload := "Test body" |}.

Definition work_mail : Message :=
  mail "boss@workplace.edu" "recipient@example.com" "Urgent Task" "<m1>".

Definition work_mail_reply_to : Message :=
  {| headers := [("Subject", "Urgent Task"); ("From", "noreply@workplace.edu");
                 ("To", "recipient@example.com");
                 ("Reply-To", "actual-boss@workplace.edu");
                 ("Message-ID", "<m2>")];
     payload := "Test body" |}.

(** Two different mails that carry no Message-ID header. *)
Definition anonymous_mail_1 : Message :=
  {| headers := [("Subject", "first"); ("From", "boss@workplace.edu")];
     payload := "one" |}.

Definition anonymous_mail_2 : Message :=
  {| headers := [("Subject", "second"); ("From", "colleague@workplace.edu")];
     payload := "two" |}.

(** A mail to the proxy address that names a Reply-To. *)
Definition proxy_mail : Message :=
  {| headers := [("Subject", "read later"); ("From", "me@example.com");
                 ("To", "proxy@example.com"); ("Reply-To", "other@example.org");
                 ("Message-ID", "<p1>")];
     payload := "http://a.example/page" |}.

Definition extract_urls (themail : Message) (subject : option string) : list string :=
  [payload themail].

(** A world in which every call succeeds; a search finds nothing. *)
Definition quiet (data : list Item) : World :=
  fun _ op =>
    match op with
    | uid_SEARCH _ => RImap "OK" [ItemBytes ""]
    | uid_FETCH _ => RImap "OK" data
    | send_fn _ _ _ _ | sleep _ | disconnect_op => RNone
    | fetch_and_transform _ subject _ => RContent subject "content" None
    | IDLE => RIdle "OK" []
    | connect_and_select => RConn server
    | _ => RImap "OK" []
    end.

(** As [quiet], but every send to the internal forward address raises a
    delivery error. *)
Definition forward_fails (data : list Item) : World :=
  fun h op =>
    match op with
    | send_fn _ _ to_addr _ =>
        if decide (to_addr = Some "work@workplace.edu") then RRaise SMTPException
        else RNone
    | _ => quiet data h op
    end.

(** Two rules: the search of the first is refused, the search of the second
    finds message 7. *)
Definition first_search_refused : World :=
  fun h op =>
    match op with
    | uid_SEARCH query =>
        if decide (query = QueryDSL.field_match QueryDSL.FROM "spam@") then RImap "NO" [ItemBytes "refused"]
        else RImap "OK" [ItemBytes "7"]
    | _ => quiet [] h op
    end.

Definition two_rules : list query_def :=
  [(QueryDSL.field_match QueryDSL.FROM "spam@", [Expunge]);
   (QueryDSL.field_match QueryDSL.FROM "boss@", [SetFlags "(\Seen)"])].

(** The server refuses every COPY. *)
Definition copy_refused : World :=
  fun h op =>
    match op with
    | uid_COPY _ _ => RImap "NO" [ItemBytes "Copy failed"]
    | _ => quiet [] h op
    end.

(** A server that cannot IDLE and is otherwise [quiet]. *)
Definition cannot_idle : World :=
  fun h op =>
    match op with
    | connect_and_select => RConn server_without_idle
    | _ => quiet [] h op
    end.

(** A server that cannot be reached. *)
Definition unreachable : World :=
  fun h op =>
    match op with
    | connect_and_select => RRaise OSError
    | _ => quiet [] h op
    end.

(** One work mail waits in the inbox: every search finds message 1, every
    fetch returns it, and every IDLE reports a change. *)
Definition one_work_mail : World :=
  fun h op =>
    match op with
    | uid_SEARCH _ => RImap "OK" [ItemBytes "1"]
    | uid_FETCH _ => RImap "OK" [fetched "1 (RFC822" work_mail; ItemBytes ")"]
    | IDLE => RIdle "OK" ["EXISTS"]
    | _ => quiet [] h op
    end.

Definition work_rule : list query_def :=
  [(QueryDSL.field_match QueryDSL.FROM "boss@workplace.edu", [WorkEmail config])].

End Sample.

(** ** Vocabulary of the further properties *)

(** A handler that never takes an identifier out of the set it is given. *)
Definition grows (h : handler) : Prop :=
  forall server listofuids options seen_ids w t res data seen_ids',
    fst (h server listofuids options seen_ids w t) = Ret (res, data, seen_ids') ->
    seen_ids ⊆ seen_ids'.

(** A handler that hands the set back as it got it and only talks to the
    mailbox. *)
Definition mailbox_only (h : handler) : Prop :=
  forall server listofuids options seen_ids w t,
    (forall res data seen_ids',
       fst (h server listofuids options seen_ids w t) = Ret (res, data, seen_ids') ->
       seen_ids' = seen_ids) /\
    Forall (fun op => is_imap op = true)
      (snd (h server listofuids options seen_ids w t)).

(** A call that is no send, or a send from and to the Kindle addresses. *)
Definition kindle_send_or_none (config : Config) (op : Op) : Prop :=
  match op with
  | send_fn _ from_addr to_addr _ =>
      from_addr = kindle_send_from config /\ to_addr = Some (kindle_send_to config)
  | _ => True
  end.

(** No search finds anything. *)
Definition inbox_quiet (w : World) : Prop :=
  forall h query, exists b rest,
    w h (uid_SEARCH query) = RImap "OK" (ItemBytes b :: rest) /\ String.words b = [].

(** The body of a content handler's loop, as far as deduplication goes: an
    item that yields no mail, or a mail whose identifier is in the set, makes
    no call and leaves the set alone; any other item, when the body hands a
    set on, has added its identifier. *)
Definition dedup_body (body : Item -> seen_set -> M seen_set) : Prop :=
  (forall ret s w t, mail_of ret = None -> body ret s w t = (Ret s, [])) /\
  (forall ret themail s w t,
     mail_of ret = Some themail -> getitem themail "Message-ID" ∈ s ->
     body ret s w t = (Ret s, [])) /\
  (forall ret themail s w t s',
     mail_of ret = Some themail -> getitem themail "Message-ID" ∉ s ->
     fst (body ret s w t) = Ret s' ->
     s' = s ∪ {[getitem themail "Message-ID"]}).

(** A matching mail that stays in the inbox: every search for [query] finds
    the message set [b], every fetch of it returns the one mail (and after it
    items that hold no mail, such as the closing parenthesis), and every IDLE
    reports a change. *)
Definition mail_stays (w : World) (query b meta : string) (themail : Message)
    (rest : list Item) : Prop :=
  String.words b <> [] /\
  Forall (fun ret => mail_of ret = None) rest /\
  (forall h, w h (uid_SEARCH query) = RImap "OK" [ItemBytes b]) /\
  (forall h, w h (uid_FETCH (join "," (String.words b)))
             = RImap "OK" (ItemTuple meta [themail] :: rest)) /\
  (forall h, exists r rs, w h IDLE = RIdle "OK" (r :: rs)).

(** Further sample worlds. *)
Module SampleWorlds.

(** The first IDLE is refused. *)
Definition idle_refused : World :=
  fun h op =>
    match op with
    | IDLE => RIdle "NO" []
    | _ => Sample.quiet [] h op
    end.

(** A keyboard interrupt arrives during the first IDLE. *)
Definition interrupted : World :=
  fun h op =>
    match op with
    | IDLE => RRaise KeyboardInterrupt
    | _ => Sample.quiet [] h op
    end.

(** The connection attempt is cut short by [SystemExit]. *)
Definition exit_requested : World :=
  fun h op =>
    match op with
    | connect_and_select => RRaise SystemExit
    | _ => Sample.quiet [] h op
    end.

End SampleWorlds.

(** ** The folds of the filter algebra, named

    [or_combine] and [and_combine] wrap the result so far and the next
    item's string; [reduce] is the [for item in items[1:]] loop of both. *)
Module QueryFold.
Import QueryDSL.

Definition or_wrap (result s : string) : string :=
  "(OR " +:+ result +:+ " " +:+ s +:+ ")".

Definition and_wrap (result s : string) : string :=
  "(" +:+ result +:+ " " +:+ s +:+ ")".

Fixpoint reduce (wrap : string -> string -> string) (l : list thunk)
    (result : string) : option string :=
  match l with
  | [] => Some result
  | item :: l' =>
      match call item with
      | None => None
      | Some s => reduce wrap l' (wrap result s)
      end
  end.

End QueryFold.

(** ** Python string methods used by the proxy and HTTP helpers *)

Module Str.

Definition CR : ascii := "013"%char.
Definition LF : ascii := "010"%char.
Definition CRLF : string := String CR (String LF EmptyString).
Definition LFCR : string := String LF (String CR EmptyString).

(** [c in s] for a character. *)
Fixpoint occurs (c : ascii) (s : string) : bool :=
  match s with
  | EmptyString => false
  | String c' s' => Ascii.eqb c' c || occurs c s'
  end.

(** [s.endswith(suffix)] *)
Fixpoint endswith (s suffix : string) : bool :=
  String.eqb s suffix
  || match s with
     | EmptyString => false
     | String _ s' => endswith s' suffix
     end.

(** [s.replace(old, new)]: the occurrences of [old] are found from left to
    right and do not overlap.  [skip] counts the characters of the occurrence
    just replaced that are still to be passed over. *)
Fixpoint replace_from (old new : string) (skip : nat) (s : string) : string :=
  match s with
  | EmptyString => EmptyString
  | String c s' =>
      match skip with
      | S k => replace_from old new k s'
      | O =>
          if String.prefix old s
          then new +:+ replace_from old new (String.length old - 1) s'
          else String c (replace_from old new 0 s')
      end
  end.

(** With an empty [old], [new] goes before every character and at the end. *)
Fixpoint interleave (new s : string) : string :=
  match s with
  | EmptyString => new
  | String c s' => new +:+ String c (interleave new s')
  end.

Definition replace (old new s : string) : string :=
  match old with
  | EmptyString => interleave new s
  | _ => replace_from old new 0 s
  end.

(** [s.split(sep, maxsplit)] for a separator of one character. *)
Fixpoint split (sep : ascii) (s : string) (maxsplit : nat) {struct s} : list string :=
  match s with
  | EmptyString => [""]
  | String c s' =>
      match maxsplit with
      | O => [s]
      | S n =>
          if Ascii.eqb c sep then "" :: split sep s' n
          else match split sep s' maxsplit with
               | p :: ps => String c p :: ps
               | [] => [s]
               end
      end
  end.

(** [l[i]] where the index is known to exist; [""] stands for the
    [IndexError] otherwise. *)
Definition item (l : list string) (i : nat) : string := nth i l "".

(** [s.lstrip(chars)], [s.rstrip(chars)], [s.strip(chars)] *)
Fixpoint lstrip (chars s : string) : string :=
  match s with
  | EmptyString => EmptyString
  | String c s' => if occurs c chars then lstrip chars s' else s
  end.

Fixpoint rstrip (chars s : string) : string :=
  match s with
  | EmptyString => EmptyString
  | String c s' =>
      match rstrip chars s' with
      | EmptyString => if occurs c chars then EmptyString else chr c
      | r => String c r
      end
  end.

Definition strip (chars s : string) : string := rstrip chars (lstrip chars s).

(** [os.path.basename(p)]: what follows the last slash. *)
Fixpoint basename (p : string) : string :=
  match p with
  | EmptyString => EmptyString
  | String c p' =>
      if occurs "/" p' then basename p'
      else if Ascii.eqb c "/" then p' else p
  end.

(** [s[n:]] *)
Fixpoint drop (n : nat) (s : string) : string :=
  match n, s with
  | O, _ => s
  | S n', String _ s' => drop n' s'
  | S _, EmptyString => EmptyString
  end.

(** Every character satisfies [p]. *)
Fixpoint all (p : ascii -> bool) (s : string) : bool :=
  match s with
  | EmptyString => true
  | String c s' => p c && all p s'
  end.

(** The longest prefix of characters that satisfy [p]. *)
Fixpoint take_while (p : ascii -> bool) (s : string) : string :=
  match s with
  | EmptyString => EmptyString
  | String c s' => if p c then String c (take_while p s') else EmptyString
  end.

End Str.

(** ** proxy_utils.py: file names and text content *)

Definition proxy_fix_filename_extension (filename subtype : string) : string :=
  if String.eqb subtype "plain" && negb (Str.endswith filename ".txt")
  then filename +:+ ".txt"
  else if String.eqb subtype "html" && negb (Str.endswith filename ".html")
       then filename +:+ ".html"
       else filename.

(** [content.decode(encoding)] is the codec machinery of the interpreter:
    [decode content encoding] is [None] when it raises [UnicodeDecodeError]
    or [LookupError]; [decode_replace] is
    [content.decode("utf-8", errors="replace")], which always returns. *)
Section Decoding.

Variable decode : list Byte.byte -> string -> option string.
Variable decode_replace : list Byte.byte -> string.

(** The [for encoding in [...]: try ... break / except ...: continue] loop. *)
Fixpoint decode_first (content : list Byte.byte) (encodings : list string)
  : option string :=
  match encodings with
  | [] => None
  | encoding :: rest =>
      match decode content encoding with
      | Some content_str => Some content_str
      | None => decode_first content rest
      end
  end.

Definition proxy_decode_text_content (content : list Byte.byte) (charset : string)
  : string :=
  let content_str := decode_first content [charset; "utf-8"; "iso-8859-1"] in
  let content_str :=
    match content_str with
    | None => decode_replace content
    | Some s => s
    end in
  Str.replace (chr Str.CR) (chr Str.LF)
    (Str.replace Str.LFCR (chr Str.LF)
       (Str.replace Str.CRLF (chr Str.LF) content_str)).

End Decoding.

(** ** http_utils.py: content type and file name *)

(** [fetch_url] is the network: it raises, or returns the content (or
    [None] when decompression failed), the final URL, the headers with
    lower-case names and the response's info object. *)
Section Fetching.

Variable Info : Type.
Variable fetch_url :
  string -> Z -> Z -> exn + (option (list Byte.byte) * string * dict * Info).

Definition fetch_and_decode_url (url : string) (timeout max_size : Z)
  : exn + (option (list Byte.byte) * string * dict * Info * string * string) :=
  match fetch_url url timeout max_size with
  | inl e => inl e
  | inr (content, base_href, headers, info) =>
      let mimetype :=
        match dict_get headers "content-type" with
        | Some v => v
        | None => "application/octet-stream"
        end in
      let reststring :=
        if contains "/" mimetype then Str.item (Str.split "/" mimetype 2) 1 else "" in
      let subtype := Str.item (Str.split ";" reststring 2) 0 in
      inr (content, base_href, headers, info, mimetype, subtype)
  end.

End Fetching.

(** The characters [strip] takes off a file name: both quotes. *)
Definition quotes : string := String dquote "'".

Definition get_filename_from_headers_or_url (headers : dict) (url : string) : string :=
  let from_url :=
    let name :=
      Str.replace "." " "
        (Str.replace "/" " "
           (Str.replace "https://" "" (Str.replace "http://" "" url))) in
    if negb (String.eqb name "") then Str.basename name else "download" in
  match dict_get headers "content-disposition" with
  | Some cd =>
      if contains "filename=" cd then
        match String.index 0 "filename=" cd with
        | Some i =>
            let start := i + 9 in
            let to_the_end := Str.drop start cd in
            let filename :=
              match String.index start ";" cd with
              | Some end_ =>
                  if Nat.ltb 0 end_ then String.substring start (end_ - start) cd
                  else to_the_end
              | None => to_the_end
              end in
            Str.strip quotes filename
        | None => ""
        end
      else from_url
  | None => from_url
  end.

(** ** imap_utils.py: the credential *)

(** The [for i, arg in enumerate(sys.argv)] loop: [Some] is a [return]. *)
Fixpoint get_credential_argv (arg_name : string) (argv : list string) : option string :=
  match argv with
  | [] => None
  | arg :: rest =>
      if String.prefix ("--" +:+ arg_name +:+ "=") arg
      then Some (Str.item (Str.split "=" arg 1) 1)
      else
        match rest with
        | next :: _ =>
            if String.eqb arg ("--" +:+ arg_name) then Some next
            else get_credential_argv arg_name rest
        | [] => None
        end
  end.

(** [os.environ] is a dict, [sys.argv] a list, and [getpass.getpass] the
    terminal: it answers the prompt. *)
Definition get_credential (environ : dict) (argv : list string)
    (getpass : string -> string) (env_var arg_name prompt : string) : string :=
  let value := dict_get environ env_var in
  if truthy value then str value
  else
    match get_credential_argv arg_name argv with
    | Some v => v
    | None => getpass prompt
    end.

(** ** proxy_utils.py: URLs in a text

    A text is a string of code points below 256. *)

(** [\s] on such a text. *)
Definition is_space (c : ascii) : bool :=
  let n := nat_of_ascii c in
  (Nat.leb 9 n && Nat.leb n 13) || (Nat.leb 28 n && Nat.leb n 31)
  || Nat.eqb n 32 || Nat.eqb n 133 || Nat.eqb n 160.

(** The characters the class of [_URL_PATTERN] excludes beside white space. *)
Definition url_delimiters : string :=
  "<>" +:+ chr dquote +:+ "{}|\^`[]'()".

Definition url_char (c : ascii) : bool :=
  negb (is_space c || Str.occurs c url_delimiters).

(** A match of [_URL_PATTERN] at the start of [s]: the scheme, then the
    longest run of admitted characters, which must not be empty. *)
Definition url_at (s : string) : option string :=
  let with_scheme (scheme : string) :=
    if String.prefix scheme s then
      match Str.take_while url_char (Str.drop (String.length scheme) s) with
      | EmptyString => None
      | run => Some (scheme +:+ run)
      end
    else None in
  match with_scheme "https://" with
  | Some url => Some url
  | None => with_scheme "http://"
  end.

(** [_URL_PATTERN.findall(text)]: matches from left to right, the search
    going on where the last match ended.  [skip] counts the characters of
    that match still to be passed over. *)
Fixpoint findall_from (skip : nat) (text : string) : list string :=
  match text with
  | EmptyString => []
  | String _ text' =>
      match skip with
      | S k => findall_from k text'
      | O =>
          match url_at text with
          | Some url => url :: findall_from (String.length url - 1) text'
          | None => findall_from 0 text'
          end
      end
  end.

(** What a match of the pattern looks like. *)
Definition url_shape (url : string) : Prop :=
  exists scheme run,
    url = scheme +:+ run /\ (scheme = "http://" \/ scheme = "https://") /\
    Str.all url_char run = true.

Definition _TRAILING_PUNCTUATION : string := ".,;:!?*".

Definition _proxy_extract_urls_from_text (text : string) : gset string :=
  let found := findall_from 0 text in
  list_to_set (map (Str.rstrip _TRAILING_PUNCTUATION) found).

(** ** html_utils.py: the transformations of a page

    The tree operations are lxml's and html2text's and the image fetcher is
    the network; each returns or raises. *)

Definition and_then {A B} (r : exn + A) (k : A -> exn + B) : exn + B :=
  match r with
  | inl e => inl e
  | inr a => k a
  end.

(** The settings of the config module that the transformations read. *)
Record TransformConfig := {
  deobfuscators : dict;
  default_image_timeout : Z;
  default_max_images : Z;
}.

(** White space, for [str.strip()] on a text of code points below 256. *)
Definition whitespace : string :=
  String "009" (String "010" (String "011" (String "012" (String "013"
  (String "028" (String "029" (String "030" (String "031" (String "032"
  (String "133" (String "160" EmptyString))))))))))).

Section Transform.

Variable Tree : Type.
Variable bleach_content : Tree -> string -> dict -> exn + Tree.
Variable include_images_in_tree : Tree -> Z -> Z -> exn + Tree.
(** [lxml.html.tostring(tree).decode("utf-8")] *)
Variable tostring : Tree -> exn + string.
(** [converter.handle(content)] of a converter made by
    [make_html2text_converter], with its [ignore_links] as given. *)
Variable html2text_handle : bool -> string -> exn + string.
(** [tree.findtext(".//title")] *)
Variable findtext_title : Tree -> exn + option string.

Definition transform_html_content (tree : Tree) (base_href : string)
    (config : TransformConfig)
    (bleach_html include_images as_txt txt_without_links : bool)
  : exn + (string * option string * string * string) :=
  let prefix := "" in
  and_then
    (if bleach_html then
       let prefix := "B" +:+ prefix in
       and_then (bleach_content tree base_href (deobfuscators config))
         (fun tree => inr (prefix, tree))
     else inr (prefix, tree))
    (fun '(prefix, tree) =>
  and_then
    (if include_images then
       let prefix := "I" +:+ prefix in
       and_then (include_images_in_tree tree (default_image_timeout config)
                   (default_max_images config))
         (fun tree => inr (prefix, tree))
     else inr (prefix, tree))
    (fun '(prefix, tree) =>
  and_then (tostring tree) (fun content =>
  and_then
    (if as_txt then
       let ignore_links := txt_without_links in
       let prefix := (if txt_without_links then "TP" else "TL") +:+ prefix in
       and_then (html2text_handle ignore_links content)
         (fun content => inr (content, "plain", prefix))
     else inr (content, "html", prefix))
    (fun '(content, subtype, prefix) =>
  and_then
    (match findtext_title tree with
     | inr (Some title) => inr (Some (Str.strip whitespace title))
     | inr None => inr None
     | inl AttributeError => inr None
     | inl e => inl e
     end)
    (fun title => inr (content, title, subtype, prefix)))))).

End Transform.

(** ** email_utils.py: sending

    The calls [send_via_smtp] makes on smtplib and on the message, and what
    they answer. *)
Module Smtp.

(** A message that is already a [str] or [bytes]; otherwise it is an
    [EmailMessage]. *)
Inductive Data :=
| DStr (s : string)
| DBytes (b : list Byte.byte).

Inductive Call :=
| SMTP_SSL (server : string)
| login (user password : string)
| as_bytes (message : EmailMessage)
| sendmail (from_addr : string) (to_addr : option string) (msg_data : Data)
| quit.

Inductive Answer :=
| Done
| Encoded (b : list Byte.byte)
| Failed (e : exn).

(** The answer to a call, given the calls before it. *)
Definition World := list Call -> Call -> Answer.

(** The body of [try:]: its outcome and the calls it made. *)
Definition try_body (w : World) (t : list Call) (from_addr : string)
    (to_addr : option string) (message : Data + EmailMessage)
  : Outcome unit * list Call :=
  let send (t : list Call) (msg_data : Data) :=
    let c := sendmail from_addr to_addr msg_data in
    match w t c with
    | Failed e => (Raise e, [c])
    | _ => (Ret tt, [c])
    end in
  match message with
  | inl msg_data => send t msg_data
  | inr m =>
      match w t (as_bytes m) with
      | Failed e => (Raise e, [as_bytes m])
      | Encoded b =>
          let '(o, d) := send (t ++ [as_bytes m]) (DBytes b) in (o, as_bytes m :: d)
      | Done => (Raise TypeError, [as_bytes m])
      end
  end.

Definition send_via_smtp (options : Options) (from_addr : string)
    (to_addr : option string) (message : Data + EmailMessage) (w : World)
  : Outcome unit * list Call :=
  let connect := SMTP_SSL (smtp_server options) in
  match w [] connect with
  | Failed e => (Raise e, [connect])
  | _ =>
      let log_in := login (smtp_user options) (smtp_pass options) in
      match w [connect] log_in with
      | Failed e => (Raise e, [connect; log_in])
      | _ =>
          let '(o, d) := try_body w [connect; log_in] from_addr to_addr message in
          (* finally: *)
          match w ([connect; log_in] ++ d) quit with
          | Failed e => (Raise e, [connect; log_in] ++ d ++ [quit])
          | _ => (o, [connect; log_in] ++ d ++ [quit])
          end
      end
  end.

End Smtp.

Module SampleConfigs.

(** The sample configuration with German texts only. *)
Definition german_only : Config :=
  {| config_smtp_server := config_smtp_server Sample.config;
     config_smtp_user := config_smtp_user Sample.config;
     work_forward_to := work_forward_to Sample.config;
     work_reply_from := work_reply_from Sample.config;
     work_forward_by := work_forward_by Sample.config;
     work_reply := [("de", "Ich bin nicht da.")];
     work_forward_note := work_forward_note Sample.config;
     obnoxious_reply_from := obnoxious_reply_from Sample.config;
     obnoxious_reply := [("de", "Bitte nicht.")];
     proxy_send_from := proxy_send_from Sample.config;
     proxy_store_to := proxy_store_to Sample.config;
     kindle_send_from := kindle_send_from Sample.config;
     kindle_send_to := kindle_send_to Sample.config |}.

End SampleConfigs.

(** * The model on the cases of the test suite *)

Section Tests.
Import QueryDSL.

(** [Or([A, B, C])] compiles to [(OR (OR A B) C)]. *)
Example anyof_three_values_nests_left :
  Match (AnyOf [Froms ["a@x"; "b@x"; "c@x"]])
  = Some ("(OR (OR " +:+ field_match FROM "a@x" +:+ " " +:+ field_match FROM "b@x"
          +:+ ") " +:+ field_match FROM "c@x" +:+ ")").
Proof. reflexivity. Qed.

(** A combinator over a single item is that item. *)
Example allof_single_value :
  Match (AllOf [Froms ["user@domain"]]) = Some (field_match FROM "user@domain").
Proof. reflexivity. Qed.

Example allof_multiple_fields :
  Match (AllOf [Froms ["sender@x"]; Tos ["recipient@y"]])
  = Some ("(" +:+ field_match FROM "sender@x" +:+ " "
          +:+ field_match TO "recipient@y" +:+ ")").
Proof. reflexivity. Qed.

Example not_anyof :
  Match (Not [AnyOf [Tos ["@"]; Ccs ["@"]]])
  = Some ("(NOT (OR " +:+ field_match TO "@" +:+ " " +:+ field_match CC "@" +:+ "))").
Proof. reflexivity. Qed.

Example match_multiple_from_implicit_or :
  Match (Froms ["a@x"; "b@x"])
  = Some ("(OR " +:+ field_match FROM "a@x" +:+ " " +:+ field_match FROM "b@x" +:+ ")").
Proof. reflexivity. Qed.

(** An Or over nothing cannot be compiled ([IndexError]). *)
Example anyof_nothing : Match (AnyOf []) = None.
Proof. reflexivity. Qed.

End Tests.

(** [data[0].split()] on the data of a SEARCH. *)
Example search_data_split :
  String.words "1 2  17" = ["1"; "2"; "17"] /\ String.words "" = [].
Proof. split; reflexivity. Qed.

(** Move is copy, then delete. *)
Example move_calls_copy_then_delete :
  snd (Move "INBOX.Archive" Sample.server ["1"; "2"] Sample.options ∅
         (Sample.quiet []) [])
  = [uid_COPY "1,2" "INBOX.Archive"; uid_STORE "1,2" "+FLAGS" "(\Deleted)"].
Proof. reflexivity. Qed.

(** Move does not delete when the copy fails. *)
Example move_stops_on_copy_failure :
  Move "INBOX.Archive" Sample.server ["1"] Sample.options ∅ Sample.copy_refused []
  = (Ret ("NO", [ItemBytes "Copy failed"], ∅), [uid_COPY "1" "INBOX.Archive"]).
Proof. reflexivity. Qed.

Example setflagsandmove_sets_flags_then_moves :
  snd (SetFlagsAndMove "(\Seen)" "INBOX.Read" Sample.server ["1"] Sample.options ∅
         (Sample.quiet []) [])
  = [uid_STORE "1" "+FLAGS" "(\Seen)"; uid_COPY "1" "INBOX.Read";
     uid_STORE "1" "+FLAGS" "(\Deleted)"].
Proof. reflexivity. Qed.

(** The German reply is chosen by the Content-Language header. *)
Example german_template :
  detect_language
    {| headers := [("From", "boss@workplace.edu"); ("Content-Language", "de-DE")];
       payload := "" |}
    (keys (work_reply Sample.config)) "en" = "de" /\
  detect_language Sample.work_mail (keys (work_reply Sample.config)) "en" = "en".
Proof. split; reflexivity. Qed.

(** * Properties *)

(** ** Filter algebra *)

Section QueryFacts.
Import QueryDSL.

Lemma sfold_app {S : Type} (step : S -> ascii -> option S) (s1 s2 : string) (st : S) :
  sfold step (s1 +:+ s2) st =
  match sfold step s1 st with
  | Some st' => sfold step s2 st'
  | None => None
  end.
Proof.
  revert st; induction s1 as [|c s1 IH]; intros st; [reflexivity|].
  change (String c s1 +:+ s2) with (String c (s1 +:+ s2)). cbn.
  destruct (step st c); [apply IH | reflexivity].
Qed.

Lemma plain_value_paren (v : string) (d : nat) :
  plain_value v = true -> sfold paren_step v d = Some d.
Proof.
  induction v as [|c v IH]; cbn; [reflexivity|].
  intros [Hc Hv]%andb_prop. unfold plain_char in Hc.
  apply negb_true_iff in Hc.
  apply orb_false_elim in Hc as [[H1 H2]%orb_false_elim H3].
  unfold paren_step. rewrite H1, H2. auto.
Qed.

Lemma plain_value_quoted (v : string) :
  plain_value v = true -> sfold word_step v (true, "") = Some (true, "").
Proof.
  induction v as [|c v IH]; cbn; [reflexivity|].
  intros [Hc Hv]%andb_prop. unfold plain_char in Hc.
  apply negb_true_iff in Hc.
  apply orb_false_elim in Hc as [_ H3]. rewrite H3. auto.
Qed.

Lemma sfold_app_Some {S : Type} (step : S -> ascii -> option S) (s1 s2 : string)
    (st st' : S) :
  sfold step s1 st = Some st' -> sfold step (s1 +:+ s2) st = sfold step s2 st'.
Proof. intros H. rewrite sfold_app, H. reflexivity. Qed.

(** Scan past the next piece of a concatenation. *)
Ltac scan_piece :=
  erewrite sfold_app_Some
    by first [ reflexivity
             | eassumption
             | eauto using plain_value_paren, plain_value_quoted ].

Lemma closed_field (f : field) (v : string) :
  plain_value v = true -> closed_form (field_match f v).
Proof.
  intros Hv. unfold field_match. split; [intros d|];
    destruct f; repeat scan_piece; reflexivity.
Qed.

Lemma closed_or (a b : string) :
  closed_form a -> closed_form b -> closed_form ("(OR " +:+ a +:+ " " +:+ b +:+ ")").
Proof.
  intros [Pa Wa] [Pb Wb]. split; [intros d|]; repeat scan_piece; reflexivity.
Qed.

Lemma closed_and (a b : string) :
  closed_form a -> closed_form b -> closed_form ("(" +:+ a +:+ " " +:+ b +:+ ")").
Proof.
  intros [Pa Wa] [Pb Wb]. split; [intros d|]; repeat scan_piece; reflexivity.
Qed.

Lemma closed_join (ss : list string) :
  Forall closed_form ss -> closed_form (join " " ss).
Proof.
  induction 1 as [|s ss Hs Hss IH].
  - split; reflexivity.
  - destruct ss as [|s' ss']; [exact Hs|].
    change (join " " (s :: s' :: ss')) with (s +:+ " " +:+ join " " (s' :: ss')).
    destruct Hs as [Ps Ws], IH as [Pj Wj].
    split; [intros d|]; repeat scan_piece; auto.
Qed.

Lemma closed_not (ss : list string) :
  Forall closed_form ss -> closed_form ("(NOT " +:+ join " " ss +:+ ")").
Proof.
  intros [Pj Wj]%closed_join. split; [intros d|]; repeat scan_piece; reflexivity.
Qed.

Lemma closed_form_checks (s : string) :
  closed_form s -> balanced s = true /\ only_keywords s = true.
Proof.
  intros [P W]. unfold balanced, only_keywords. rewrite P, W. split; reflexivity.
Qed.

(** Induction over thunks with the items of a combinator covered. *)
Lemma thunk_induction (P : thunk -> Prop) :
  (forall f v, P (field_thunk f v)) ->
  (forall items, Forall P items -> P (or_combine items)) ->
  (forall items, Forall P items -> P (and_combine items)) ->
  (forall items, Forall P items -> P (not_combine items)) ->
  forall t, P t.
Proof.
  intros Hf Ho Ha Hn.
  fix IH 1. intros [f v|items|items|items].
  - apply Hf.
  - apply Ho. induction items as [|i items IHi]; constructor; [apply IH | exact IHi].
  - apply Ha. induction items as [|i items IHi]; constructor; [apply IH | exact IHi].
  - apply Hn. induction items as [|i items IHi]; constructor; [apply IH | exact IHi].
Qed.

Lemma call_closed (t : thunk) :
  plain t = true -> forall s, call t = Some s -> closed_form s.
Proof.
  induction t as [f v|items IH|items IH|items IH] using thunk_induction;
    intros Hp s Hs.
  - cbn in Hs. injection Hs as <-. apply closed_field. exact Hp.
  - destruct items as [|i0 rest]; [discriminate|].
    cbn in Hp. apply andb_prop in Hp as [Hp0 Hpr].
    inversion IH as [|? ? IH0 IHr]; subst.
    cbn in Hs. destruct (call i0) as [r0|] eqn:E0; [|discriminate].
    specialize (IH0 Hp0 _ eq_refl).
    clear E0 IH Hp0. revert r0 IH0 Hs.
    induction rest as [|item rest IHrest]; intros r0 Hr0 Hs.
    + injection Hs as <-. exact Hr0.
    + cbn in Hpr. apply andb_prop in Hpr as [Hpi Hpr].
      inversion IHr as [|? ? IHi IHr']; subst.
      destruct (call item) as [si|] eqn:Ei; [|discriminate].
      apply (IHrest Hpr IHr' _ (closed_or _ _ Hr0 (IHi Hpi _ eq_refl)) Hs).
  - destruct items as [|i0 rest]; [discriminate|].
    cbn in Hp. apply andb_prop in Hp as [Hp0 Hpr].
    inversion IH as [|? ? IH0 IHr]; subst.
    cbn in Hs. destruct (call i0) as [r0|] eqn:E0; [|discriminate].
    specialize (IH0 Hp0 _ eq_refl).
    clear E0 IH Hp0. revert r0 IH0 Hs.
    induction rest as [|item rest IHrest]; intros r0 Hr0 Hs.
    + injection Hs as <-. exact Hr0.
    + cbn in Hpr. apply andb_prop in Hpr as [Hpi Hpr].
      inversion IHr as [|? ? IHi IHr']; subst.
      destruct (call item) as [si|] eqn:Ei; [|discriminate].
      apply (IHrest Hpr IHr' _ (closed_and _ _ Hr0 (IHi Hpi _ eq_refl)) Hs).
  - cbn in Hs.
    match type of Hs with
    | match ?c items with _ => _ end = _ => set (calls := c) in *
    end.
    destruct (calls items) as [ss|] eqn:Ec; [|discriminate].
    injection Hs as <-. apply closed_not.
    cbn in Hp. clear -IH Hp Ec.
    revert ss Ec. induction items as [|x items IHitems]; intros ss Ec.
    + cbn in Ec. injection Ec as <-. constructor.
    + cbn in Hp. apply andb_prop in Hp as [Hpx Hpi].
      inversion IH as [|? ? IHx IHi]; subst.
      cbn in Ec. destruct (call x) as [sx|] eqn:Ex; [|discriminate].
      destruct (calls items) as [ss'|] eqn:Ec'; [|discriminate].
      injection Ec as <-. constructor; [apply (IHx Hpx _ eq_refl)|].
      apply IHitems; auto.
Qed.

Lemma call_total (t : thunk) : nonempty t = true -> is_Some (call t).
Proof.
  induction t as [f v|items IH|items IH|items IH] using thunk_induction; intros Hn.
  - cbn. eauto.
  - destruct items as [|i0 rest]; [discriminate|].
    cbn in Hn. apply andb_prop in Hn as [Hn0 Hnr].
    inversion IH as [|? ? IH0 IHr]; subst.
    cbn. destruct (IH0 Hn0) as [r0 ->].
    generalize r0. clear -IHr Hnr.
    induction rest as [|item rest IHrest]; intros r; [eauto|].
    cbn in Hnr. apply andb_prop in Hnr as [Hni Hnr].
    inversion IHr as [|? ? IHi IHr']; subst.
    destruct (IHi Hni) as [si ->]. apply IHrest; auto.
  - destruct items as [|i0 rest]; [discriminate|].
    cbn in Hn. apply andb_prop in Hn as [Hn0 Hnr].
    inversion IH as [|? ? IH0 IHr]; subst.
    cbn. destruct (IH0 Hn0) as [r0 ->].
    generalize r0. clear -IHr Hnr.
    induction rest as [|item rest IHrest]; intros r; [eauto|].
    cbn in Hnr. apply andb_prop in Hnr as [Hni Hnr].
    inversion IHr as [|? ? IHi IHr']; subst.
    destruct (IHi Hni) as [si ->]. apply IHrest; auto.
  - cbn.
    match goal with
    | |- is_Some (match ?c items with _ => _ end) => set (calls := c) in *
    end.
    assert (is_Some (calls items)) as [ss ->]; [|eauto].
    cbn in Hn. clear -IH Hn.
    induction items as [|x items IHitems]; [cbn; eauto|].
    cbn in Hn. apply andb_prop in Hn as [Hnx Hni].
    inversion IH as [|? ? IHx IHi]; subst.
    cbn. destruct (IHx Hnx) as [sx ->].
    destruct (IHitems IHi Hni) as [ss ->]. eauto.
Qed.

End QueryFacts.

(** ** Computations *)

Lemma bind_Ret {A B} (m : M A) (k : A -> M B) w t a d1 :
  m w t = (Ret a, d1) ->
  (m ≫= k) w t = (let '(o, d2) := k a w (t ++ d1) in (o, d1 ++ d2)).
Proof. intros H. unfold mbind, M_bind, bind. rewrite H. reflexivity. Qed.

Lemma bind_Raise {A B} (m : M A) (k : A -> M B) w t e d1 :
  m w t = (Raise e, d1) -> (m ≫= k) w t = (Raise e, d1).
Proof. intros H. unfold mbind, M_bind, bind. rewrite H. reflexivity. Qed.

(** A best-effort send: one attempt, and the handler goes on. *)
Lemma best_effort_send w t o f to msg :
  delivery_contract w ->
  try_except (send o f to msg) is_SMTPException (fun _ => mret tt) w t
  = (Ret tt, [send_fn o f to msg]).
Proof.
  intros Hw. unfold try_except, send, mbind, M_bind, bind, perform.
  destruct (w t (send_fn o f to msg)) eqn:E; try reflexivity.
  rewrite (Hw _ _ _ _ _ _ E). reflexivity.
Qed.

Lemma mail_of_Some ret themail :
  mail_of ret = Some themail ->
  exists meta rest, ret = ItemTuple meta (themail :: rest) /\ not_message themail = false.
Proof.
  destruct ret as [b| |meta [|m rest]]; try discriminate.
  cbn. destruct (not_message m) eqn:E; [discriminate|].
  intros [= ->]. eauto.
Qed.

Lemma WorkEmail_item_unseen config options ret themail seen_ids w t reply_en note_en :
  mail_of ret = Some themail ->
  getitem themail "Message-ID" ∉ seen_ids ->
  dict_get (work_reply config) "en" = Some reply_en ->
  dict_get (work_forward_note config) "en" = Some note_en ->
  delivery_contract w ->
  let lang := detect_language themail (keys (work_reply config)) "en" in
  WorkEmail_item config options ret seen_ids w t =
  (Ret (seen_ids ∪ {[getitem themail "Message-ID"]}),
   [send_fn options (work_forward_by config) (Some (work_forward_to config))
      (work_forward_msg config themail
         (default note_en (dict_get (work_forward_note config) lang)));
    send_fn options (work_reply_from config) (reply_sender themail)
      (work_reply_msg config themail
         (default reply_en (dict_get (work_reply config) lang)))]).
Proof.
  intros (meta & rest & -> & Hm)%mail_of_Some Hnew Hr Hn Hw lang.
  unfold WorkEmail_item, should_process_message, dict_getitem.
  rewrite Hm, Hr, Hn. destruct (decide _) as [|_]; [contradiction|].
  cbn [negb].
  unfold mbind, M_bind, bind, mret, M_ret, ret.
  rewrite !best_effort_send by assumption. reflexivity.
Qed.

Lemma Obnoxious_item_unseen config options ret themail seen_ids w t reply_en :
  mail_of ret = Some themail ->
  getitem themail "Message-ID" ∉ seen_ids ->
  dict_get (obnoxious_reply config) "en" = Some reply_en ->
  delivery_contract w ->
  let lang := detect_language themail (keys (obnoxious_reply config)) "en" in
  Obnoxious_item config options ret seen_ids w t =
  (Ret (seen_ids ∪ {[getitem themail "Message-ID"]}),
   [send_fn options (obnoxious_reply_from config) (reply_sender themail)
      (obnoxious_reply_msg config themail
         (default reply_en (dict_get (obnoxious_reply config) lang)))]).
Proof.
  intros (meta & rest & -> & Hm)%mail_of_Some Hnew Hr Hw lang.
  unfold Obnoxious_item, should_process_message, dict_getitem.
  rewrite Hm, Hr. destruct (decide _) as [|_]; [contradiction|].
  cbn [negb].
  unfold mbind, M_bind, bind, mret, M_ret, ret.
  rewrite !best_effort_send by assumption. reflexivity.
Qed.

(** An item whose identifier is in the set is passed over: nothing is
    called, and the set is handed on as it is. *)
Lemma WorkEmail_item_seen config options ret themail seen_ids w t :
  mail_of ret = Some themail ->
  getitem themail "Message-ID" ∈ seen_ids ->
  WorkEmail_item config options ret seen_ids w t = (Ret seen_ids, []).
Proof.
  intros (meta & rest & -> & Hm)%mail_of_Some Hin.
  unfold WorkEmail_item, should_process_message. rewrite Hm.
  destruct (decide _); [reflexivity | contradiction].
Qed.

Lemma Obnoxious_item_seen config options ret themail seen_ids w t :
  mail_of ret = Some themail ->
  getitem themail "Message-ID" ∈ seen_ids ->
  Obnoxious_item config options ret seen_ids w t = (Ret seen_ids, []).
Proof.
  intros (meta & rest & -> & Hm)%mail_of_Some Hin.
  unfold Obnoxious_item, should_process_message. rewrite Hm.
  destruct (decide _); [reflexivity | contradiction].
Qed.

Lemma proxy_process_email_seen extract config options server ret themail seen_ids w t :
  mail_of ret = Some themail ->
  getitem themail "Message-ID" ∈ seen_ids ->
  proxy_process_email extract ret server options seen_ids config w t = (Ret seen_ids, []).
Proof.
  intros (meta & rest & -> & Hm)%mail_of_Some Hin.
  unfold proxy_process_email, should_process_message. rewrite Hm.
  destruct (decide _); [reflexivity | contradiction].
Qed.

(** Unfold the plumbing of a computation down to the answers of the world. *)
Ltac unfold_M :=
  unfold try_except, attempt, imap, send, mbind, M_bind, bind, perform, raise,
    mret, M_ret, ret in *.

Ltac case_world w :=
  match goal with
  | |- context [match w ?h ?op with _ => _ end] =>
      let E := fresh "E" in destruct (w h op) eqn:E; cbn
  end.

Lemma proxy_fetch_and_store_url_spec url subject ref_mid proxy_options server
    smtp_options config w t :
  (no_interrupt w ->
   fst (proxy_fetch_and_store_url url subject ref_mid proxy_options server
          smtp_options config w t) = Ret tt) /\
  Forall (directed_to (send_to proxy_options))
    (snd (proxy_fetch_and_store_url url subject ref_mid proxy_options server
            smtp_options config w t)).
Proof.
  unfold proxy_fetch_and_store_url, proxy_build_message_from_url. unfold_M.
  assert (Hex : forall h op e, no_interrupt w -> w h op = RRaise e ->
                             is_Exception e = true) by (intros; eauto).
  destruct (send_using_smtp proxy_options); repeat case_world w;
    (split;
     [ intros Hw;
       repeat match goal with
         | E : w _ _ = RRaise _ |- _ => rewrite (Hex _ _ _ Hw E); clear E
         end;
       reflexivity
     | repeat match goal with
         | |- context [is_Exception ?e] => destruct (is_Exception e); cbn
         end;
       cbn; rewrite ?app_nil_r;
       repeat (apply List.Forall_cons; [cbn; auto|]); apply List.Forall_nil ]).
Qed.

Lemma for_urls_spec (body : string -> M unit) (P : Op -> Prop) (urls : list string) w :
  (forall u t, (no_interrupt w -> fst (body u w t) = Ret tt) /\ Forall P (snd (body u w t))) ->
  forall t,
    (no_interrupt w -> fst (for_urls body urls w t) = Ret tt) /\
    Forall P (snd (for_urls body urls w t)).
Proof.
  intros Hbody. induction urls as [|u urls IH]; intros t.
  - split; [reflexivity | constructor].
  - cbn [for_urls]. unfold mbind, M_bind, bind.
    destruct (Hbody u t) as [H1 H2].
    destruct (body u w t) as [[[]|e] d1] eqn:Eb; cbn in *.
    + destruct (IH (t ++ d1)) as [H3 H4].
      destruct (for_urls body urls w (t ++ d1)) as [o d2]; cbn in *.
      split; [exact H3 | apply Forall_app; auto].
    + split; [exact H1 | exact H2].
Qed.

Lemma proxy_process_email_unseen extract config options server ret themail seen_ids w t :
  mail_of ret = Some themail ->
  getitem themail "Message-ID" ∉ seen_ids ->
  let thesender := py_or (getitem themail "From") (getitem themail "Sender") in
  let proxy_options := proxy_parse_options (getitem themail "To") config thesender in
  (no_interrupt w ->
   fst (proxy_process_email extract ret server options seen_ids config w t)
   = Ret (seen_ids ∪ {[getitem themail "Message-ID"]})) /\
  Forall (directed_to (send_to proxy_options))
    (snd (proxy_process_email extract ret server options seen_ids config w t)).
Proof.
  intros (meta & rest & -> & Hm)%mail_of_Some Hnew thesender proxy_options.
  unfold proxy_process_email, should_process_message. rewrite Hm.
  destruct (decide _) as [|_]; [contradiction|]. cbn [negb].
  unfold mbind, M_bind, bind.
  match goal with
  | |- context [for_urls ?b ?us w t] =>
      destruct (for_urls_spec b (directed_to (send_to proxy_options)) us w
                  (fun u t' => proxy_fetch_and_store_url_spec u _ _ _ _ _ _ w t') t)
        as [H1 H2];
      destruct (for_urls b us w t) as [[[]|e] d] eqn:Eu
  end; cbn in *.
  - split; [reflexivity | rewrite app_nil_r; exact H2].
  - split; [intros Hw; discriminate (H1 Hw) | exact H2].
Qed.

(** A computation that returns has had each of its steps return. *)
Lemma bind_returns {A B} (m : M A) (k : A -> M B) w t b :
  fst ((m ≫= k) w t) = Ret b ->
  exists a d, m w t = (Ret a, d) /\ fst (k a w (t ++ d)) = Ret b.
Proof.
  unfold mbind, M_bind, bind.
  destruct (m w t) as [[a|e] d]; [|discriminate].
  destruct (k a w (t ++ d)) as [o d2] eqn:E. cbn. intros ->.
  exists a, d. rewrite E. auto.
Qed.

Ltac steps_returned H :=
  repeat (let a := fresh "a" in
          let d := fresh "d" in
          apply bind_returns in H as (a & d & _ & H));
  cbn in H; congruence.

(** Whatever the world answers: when the body of the loop hands a set on
    for an unseen item, the item's identifier is in it. *)
Lemma WorkEmail_item_marks config options ret themail seen_ids w t s :
  mail_of ret = Some themail ->
  getitem themail "Message-ID" ∉ seen_ids ->
  fst (WorkEmail_item config options ret seen_ids w t) = Ret s ->
  s = seen_ids ∪ {[getitem themail "Message-ID"]}.
Proof.
  intros (meta & rest & -> & Hm)%mail_of_Some Hnew.
  unfold WorkEmail_item, should_process_message. rewrite Hm.
  destruct (decide _) as [|_]; [contradiction|]. cbn [negb].
  intros H. steps_returned H.
Qed.

Lemma Obnoxious_item_marks config options ret themail seen_ids w t s :
  mail_of ret = Some themail ->
  getitem themail "Message-ID" ∉ seen_ids ->
  fst (Obnoxious_item config options ret seen_ids w t) = Ret s ->
  s = seen_ids ∪ {[getitem themail "Message-ID"]}.
Proof.
  intros (meta & rest & -> & Hm)%mail_of_Some Hnew.
  unfold Obnoxious_item, should_process_message. rewrite Hm.
  destruct (decide _) as [|_]; [contradiction|]. cbn [negb].
  intros H. steps_returned H.
Qed.

Lemma proxy_process_email_marks extract config options server ret themail seen_ids w t s :
  mail_of ret = Some themail ->
  getitem themail "Message-ID" ∉ seen_ids ->
  fst (proxy_process_email extract ret server options seen_ids config w t) = Ret s ->
  s = seen_ids ∪ {[getitem themail "Message-ID"]}.
Proof.
  intros (meta & rest & -> & Hm)%mail_of_Some Hnew.
  unfold proxy_process_email, should_process_message. rewrite Hm.
  destruct (decide _) as [|_]; [contradiction|]. cbn [negb].
  intros H. steps_returned H.
Qed.

(** ** Claims on the content handlers *)


Lemma first_true_reply_sender themail :
  first_true themail ["Reply-To"; "From"; "Sender"] = reply_sender themail.
Proof.
  unfold reply_sender, py_or. cbn.
  destruct (truthy (getitem themail "Reply-To")) eqn:E1.
  - rewrite E1. reflexivity.
  - destruct (truthy (getitem themail "From")); reflexivity.
Qed.



Lemma for_items_two (body : Item -> seen_set -> M seen_set) i1 i2 seen_ids s1 d1 w t :
  body i1 seen_ids w t = (Ret s1, d1) ->
  (forall t', body i2 s1 w t' = (Ret s1, [])) ->
  for_items body [i1; i2] seen_ids w t = (Ret s1, d1).
Proof.
  intros H1 H2. cbn [for_items]. unfold mbind, M_bind, bind.
  rewrite H1, H2. cbn. rewrite !app_nil_r. reflexivity.
Qed.

Lemma mail_of_fetched meta m : not_message m = false -> mail_of (fetched meta m) = Some m.
Proof. intros H. cbn. rewrite H. reflexivity. Qed.


(** ** Claim on the filter algebra *)

(** C9 (as amended). For every filter expression whose values contain no
    parenthesis and no double quote, the compiled search string has balanced
    parentheses and, outside its quoted values, only the words FROM, TO, CC,
    SUBJECT, OR, NOT; and every expression that is not empty, with no Or or
    And over nothing, does compile. *)
Theorem compiled_query_is_well_formed (expr : list QueryDSL.thunk) :
  forallb QueryDSL.plain expr = true ->
  (forall s, QueryDSL.parseQuery expr = Some s ->
             QueryDSL.balanced s = true /\ QueryDSL.only_keywords s = true) /\
  (expr <> [] -> forallb QueryDSL.nonempty expr = true ->
   is_Some (QueryDSL.parseQuery expr)).
Proof.
  intros Hp. split.
  - intros s Hs. apply closed_form_checks.
    destruct expr as [|t [|t' expr']].
    + discriminate.
    + cbn in Hp. apply andb_prop in Hp as [Hp _].
      apply (call_closed t Hp s Hs).
    + apply (call_closed (QueryDSL.or_combine (t :: t' :: expr')) Hp s Hs).
  - intros Hne Hn. destruct expr as [|t [|t' expr']].
    + contradiction.
    + cbn in Hn. apply andb_prop in Hn as [Hn _]. apply (call_total t Hn).
    + apply (call_total (QueryDSL.or_combine (t :: t' :: expr')) Hn).
Qed.

Lemma compiled_query_is_well_formed_witness :
  let expr :=
    QueryDSL.AllOf
      [QueryDSL.From ["@mydomain"];
       QueryDSL.AnyOf
         [QueryDSL.To ["@mydomain"];
          QueryDSL.Not [QueryDSL.AnyOf [QueryDSL.To ["@"]; QueryDSL.Cc ["@"]]]]] in
  forallb QueryDSL.plain expr = true /\
  (forall s, QueryDSL.parseQuery expr = Some s ->
             QueryDSL.balanced s = true /\ QueryDSL.only_keywords s = true) /\
  is_Some (QueryDSL.parseQuery expr).
Proof.
  intros expr.
  destruct (compiled_query_is_well_formed expr eq_refl) as [H1 H2].
  split; [reflexivity|]. split; [exact H1|].
  apply H2; [discriminate | reflexivity].
Defined.

(** C9 as stated fails: a value that holds a double quote and an opening
    parenthesis compiles to a string with an unmatched parenthesis and with
    a word that is no keyword outside the quotes. *)
Lemma compiled_query_counterexample :
  exists s,
    QueryDSL.parseQuery (QueryDSL.From [chr dquote +:+ "(X"]) = Some s /\
    QueryDSL.balanced s = false /\ QueryDSL.only_keywords s = false.
Proof. eexists. split; [reflexivity|]. split; reflexivity. Qed.

(** ** The sample worlds keep the contracts *)

Lemma quiet_delivery data : delivery_contract (Sample.quiet data).
Proof. intros h o f t m e H. discriminate H. Qed.

Lemma forward_fails_delivery data : delivery_contract (Sample.forward_fails data).
Proof.
  intros h o f t m e H. cbn in H.
  destruct (decide _); [congruence | discriminate].
Qed.

Lemma quiet_no_interrupt data : no_interrupt (Sample.quiet data).
Proof. intros h op e H. destruct op; discriminate H. Qed.






(** ** RejectAndDelete *)

Lemma for_items_Forall (body : Item -> seen_set -> M seen_set) (P : Op -> Prop) w :
  (forall ret s t, Forall P (snd (body ret s w t))) ->
  forall data s t, Forall P (snd (for_items body data s w t)).
Proof.
  intros Hbody. induction data as [|ret data IH]; intros s t; [constructor|].
  cbn [for_items]. unfold mbind, M_bind, bind.
  pose proof (Hbody ret s t) as H1.
  destruct (body ret s w t) as [[s'|e] d1]; cbn in *; [|exact H1].
  pose proof (IH s' (t ++ d1)) as H2.
  destruct (for_items body data s' w (t ++ d1)) as [o d2]; cbn in *.
  apply Forall_app; auto.
Qed.

Lemma Obnoxious_item_only_sends config options ret seen_ids w t :
  Forall (fun op => is_send op = true)
    (snd (Obnoxious_item config options ret seen_ids w t)).
Proof.
  destruct ret as [b| |meta [|themail rest]]; try constructor.
  unfold Obnoxious_item, should_process_message, dict_getitem.
  destruct (not_message themail); [constructor|].
  destruct (decide _); [constructor|]. cbn [negb].
  destruct (dict_get (obnoxious_reply config) "en"); [|constructor].
  unfold_M. case_world w;
    repeat match goal with
      | |- context [is_SMTPException ?e] => destruct (is_SMTPException e); cbn
      end;
    repeat (apply List.Forall_cons; [reflexivity|]); apply List.Forall_nil.
Qed.

Lemma imap_cases op w t :
  (exists typ data, w t op = RImap typ data /\ imap op w t = (Ret (typ, data), [op])) \/
  ((forall typ data, w t op <> RImap typ data) /\ exists e, imap op w t = (Raise e, [op])).
Proof.
  unfold imap, mbind, M_bind, bind, perform, raise, mret, M_ret, ret.
  destruct (w t op) eqn:E; cbn;
    try (right; split; [congruence | eauto]).
  left. eauto.
Qed.

Lemma Obnoxious_calls config server listofuids options seen_ids w t :
  let theuids := join "," listofuids in
  let removal := [uid_STORE theuids "+FLAGS" "(\Deleted)"; expunge] in
  let calls := snd (Obnoxious config server listofuids options seen_ids w t) in
  (calls = [uid_FETCH theuids] /\
   forall typ data, w t (uid_FETCH theuids) <> RImap typ data) \/
  (calls = [uid_FETCH theuids; uid_STORE theuids "+FLAGS" "(\Deleted)"] /\
   forall typ data,
     w (t ++ [uid_FETCH theuids]) (uid_STORE theuids "+FLAGS" "(\Deleted)")
     <> RImap typ data) \/
  (exists sends, calls = uid_FETCH theuids :: removal ++ sends /\
                 Forall (fun op => is_send op = true) sends).
Proof.
  intros theuids removal calls. subst calls removal.
  unfold Obnoxious, Delete, Expunge. fold theuids.
  destruct (imap_cases (uid_FETCH theuids) w t) as [(typ & data & E1 & H1)|(N1 & e & H1)].
  2:{ left. rewrite (bind_Raise _ _ _ _ _ _ H1). auto. }
  right. rewrite (bind_Ret _ _ _ _ _ _ H1). cbn beta iota.
  destruct (imap_cases (uid_STORE theuids "+FLAGS" "(\Deleted)") w
              (t ++ [uid_FETCH theuids])) as [(typ2 & data2 & E2 & H2)|(N2 & e & H2)].
  2:{ left. rewrite (bind_Raise _ _ _ _ e [uid_STORE theuids "+FLAGS" "(\Deleted)"]).
      - auto.
      - rewrite (bind_Raise _ _ _ _ _ _ H2). reflexivity. }
  right.
  rewrite (bind_Ret _ _ _ _ (typ2, data2, seen_ids)
             [uid_STORE theuids "+FLAGS" "(\Deleted)"])
    by (rewrite (bind_Ret _ _ _ _ _ _ H2); reflexivity).
  destruct (imap_cases expunge w
              ((t ++ [uid_FETCH theuids]) ++ [uid_STORE theuids "+FLAGS" "(\Deleted)"]))
    as [(typ3 & data3 & E3 & H3)|(N3 & e & H3)].
  2:{ exists []. rewrite (bind_Raise _ _ _ _ e [expunge]).
      - split; [reflexivity | constructor].
      - rewrite (bind_Raise _ _ _ _ _ _ H3). reflexivity. }
  rewrite (bind_Ret _ _ _ _ (typ3, data3, seen_ids) [expunge])
    by (rewrite (bind_Ret _ _ _ _ _ _ H3); reflexivity).
  unfold mbind, M_bind, bind.
  match goal with
  | |- context [for_items ?b ?dt ?s w ?h] =>
      pose proof (for_items_Forall b (fun op => is_send op = true) w
                    (fun r s' t' => Obnoxious_item_only_sends config options r s' w t')
                    dt s h) as Hs;
      destruct (for_items b dt s w h) as [[s'|e] d]
  end; cbn in *.
  - exists d. rewrite app_nil_r. split; [reflexivity | exact Hs].
  - exists d. split; [reflexivity | exact Hs].
Qed.

(** C5. On every invocation of the RejectAndDelete handler no send comes
    before the delete and the expunge of the whole matched set: a send among
    its calls has the fetch, the delete and the expunge as the first three
    calls before it, whatever set of seen identifiers the handler is given
    and whatever the sends answer; and when the session answers its commands
    the handler's calls are exactly fetch, delete, expunge and then sends. *)
Theorem obnoxious_deletes_and_expunges_before_any_send
    (config : Config) (server : Connection) (listofuids : list string)
    (options : Options) (seen_ids : seen_set) (w : World) (t : list Op) :
  let theuids := join "," listofuids in
  let removal := [uid_STORE theuids "+FLAGS" "(\Deleted)"; expunge] in
  let calls := snd (Obnoxious config server listofuids options seen_ids w t) in
  (forall (i : nat) (op : Op),
     calls !! i = Some op -> is_send op = true ->
     take 3 calls = uid_FETCH theuids :: removal /\ (3 <= i)%nat) /\
  (session_answers w ->
   exists sends, calls = uid_FETCH theuids :: removal ++ sends /\
                 Forall (fun op => is_send op = true) sends).
Proof.
  intros theuids removal calls.
  destruct (Obnoxious_calls config server listofuids options seen_ids w t)
    as [[Hc N]|[[Hc N]|(sends & Hc & Hs)]];
    fold theuids in Hc, N || fold theuids in Hc; fold calls in Hc.
  - split.
    + intros i op Hi Hop. rewrite Hc in Hi.
      destruct i as [|i]; [|destruct i; discriminate].
      injection Hi as <-. discriminate.
    + intros Hw. destruct (Hw t (uid_FETCH theuids) eq_refl) as (typ & data & E).
      destruct (N _ _ E).
  - split.
    + intros i op Hi Hop. rewrite Hc in Hi.
      destruct i as [|[|i]]; [| |destruct i; discriminate];
        injection Hi as <-; discriminate.
    + intros Hw.
      destruct (Hw (t ++ [uid_FETCH theuids])
                  (uid_STORE theuids "+FLAGS" "(\Deleted)") eq_refl)
        as (typ & data & E).
      destruct (N _ _ E).
  - split.
    + intros i op Hi Hop. rewrite Hc in *. split; [reflexivity|].
      destruct i as [|[|[|i]]]; try (injection Hi as <-; discriminate). lia.
    + intros _. exists sends. auto.
Qed.

Lemma obnoxious_deletes_and_expunges_before_any_send_witness :
  let ret := fetched "1 (RFC822" (Sample.mail "spammer@spam.com" "me@example.com"
                                   "Buy" "<s1>") in
  exists sends,
    snd (Obnoxious Sample.config Sample.server ["1"] Sample.options ∅
           (Sample.quiet [ret]) [])
    = uid_FETCH "1" :: [uid_STORE "1" "+FLAGS" "(\Deleted)"; expunge] ++ sends
    /\ Forall (fun op => is_send op = true) sends.
Proof.
  intros ret.
  apply (obnoxious_deletes_and_expunges_before_any_send Sample.config Sample.server
           ["1"] Sample.options ∅ (Sample.quiet [ret]) []).
  intros h op Hop. destruct op; try discriminate Hop; cbn; eauto.
Defined.

(** ** The rule table pass *)

Lemma for_handlers_not_OK hs conn uids opts r data s w t :
  r <> "OK" -> for_handlers hs conn uids opts r data s w t = (Ret (r, data, s), []).
Proof.
  intros Hr. induction hs as [|h hs IH]; cbn [for_handlers]; [reflexivity|].
  destruct (decide (r = "OK")); [contradiction | exact IH].
Qed.

Lemma query_body_refused conn opts prev q hs p w t typ data :
  w t (uid_SEARCH q) = RImap typ data -> typ <> "OK" ->
  query_body conn opts prev (q, hs) p w t = (Ret (typ, p), [uid_SEARCH q]).
Proof.
  intros E Hr. unfold query_body.
  destruct (imap_cases (uid_SEARCH q) w t) as [(typ' & data' & E' & H)|(N & _)];
    [|destruct (N _ _ E)].
  rewrite E in E'. injection E' as <- <-.
  rewrite (bind_Ret _ _ _ _ _ _ H). cbn beta iota.
  destruct (decide (typ = "OK")); [contradiction|]. reflexivity.
Qed.

Lemma query_body_found conn opts prev q hs p w t b rest :
  w t (uid_SEARCH q) = RImap "OK" (ItemBytes b :: rest) -> String.words b <> [] ->
  query_body conn opts prev (q, hs) p w t =
  (let '(o, d) :=
     for_handlers hs conn (String.words b) opts "OK" (ItemBytes b :: rest)
       (p ∪ prev) w (t ++ [uid_SEARCH q]) in
   (match o with
    | Ret (r, _, seen_ids) => Ret (r, seen_ids ∖ prev)
    | Raise e => Raise e
    end, uid_SEARCH q :: d)).
Proof.
  intros E Hne. unfold query_body.
  destruct (imap_cases (uid_SEARCH q) w t) as [(typ' & data' & E' & H)|(N & _)];
    [|destruct (N _ _ E)].
  rewrite E in E'. injection E' as <- <-.
  rewrite (bind_Ret _ _ _ _ _ _ H). cbn beta iota.
  destruct (decide ("OK" = "OK")) as [_|]; [|contradiction].
  unfold split_first, mbind, M_bind, bind, mret, M_ret, ret. cbn.
  destruct (decide (0 < List.length (String.words b))%nat) as [|Hz].
  - rewrite ?app_nil_r.
    destruct (for_handlers _ _ _ _ _ _ _ _ _) as [[[[r dt] s]|e] d]; cbn;
      rewrite ?app_nil_r; reflexivity.
  - destruct (String.words b); [contradiction | cbn in Hz; lia].
Qed.

Lemma query_body_carries conn opts prev qd p w t r p' :
  fst (query_body conn opts prev qd p w t) = Ret (r, p') ->
  p' = p \/ exists seen_ids, p' = seen_ids ∖ prev.
Proof.
  destruct qd as [q hs]. unfold query_body.
  destruct (imap_cases (uid_SEARCH q) w t) as [(typ & data & E & H)|(N & e & H)].
  2:{ rewrite (bind_Raise _ _ _ _ _ _ H). discriminate. }
  rewrite (bind_Ret _ _ _ _ _ _ H). cbn beta iota.
  destruct (decide (typ = "OK")) as [_|]; [|cbn; intros [= _ <-]; auto].
  unfold split_first, mbind, M_bind, bind, mret, M_ret, ret, raise.
  destruct data as [|[b| |meta ms] data]; cbn; try discriminate.
  destruct (decide _); [|cbn; intros [= _ <-]; auto].
  destruct (for_handlers _ _ _ _ _ _ _ _ _) as [[[[r' dt] s]|e'] d]; cbn;
    [|discriminate].
  intros [= _ <-]. eauto.
Qed.

Lemma for_queries_carries conn opts prev queries r p w t r' p' :
  fst (for_queries conn opts prev queries r p w t) = Ret (r', p') ->
  p ## prev -> p' ## prev.
Proof.
  revert r p t. induction queries as [|qd queries IH]; intros r p t.
  - cbn. intros [= _ <-]. auto.
  - cbn [for_queries]. unfold mbind, M_bind, bind.
    destruct (query_body conn opts prev qd p w t) as [[[r1 p1]|e] d1] eqn:Eq;
      [|discriminate].
    pose proof (query_body_carries conn opts prev qd p w t r1 p1) as Hc.
    rewrite Eq in Hc. specialize (Hc eq_refl).
    destruct (for_queries conn opts prev queries r1 p1 w (t ++ d1)) as [o d2] eqn:Ef.
    cbn. intros Ho Hd. subst o.
    apply (IH r1 p1 (t ++ d1)); [rewrite Ef; reflexivity|].
    destruct Hc as [->|(s & ->)];
      [exact Hd | apply disjoint_difference_l1; reflexivity].
Qed.

Lemma for_queries_first_call conn opts prev q hs rest r p w t :
  exists d, snd (for_queries conn opts prev ((q, hs) :: rest) r p w t) = uid_SEARCH q :: d.
Proof.
  cbn [for_queries]. unfold mbind, M_bind, bind.
  assert (exists d, snd (query_body conn opts prev (q, hs) p w t) = uid_SEARCH q :: d)
    as [d Hd].
  { unfold query_body.
    destruct (imap_cases (uid_SEARCH q) w t) as [(typ & data & E & H)|(N & e & H)].
    - rewrite (bind_Ret _ _ _ _ _ _ H).
      destruct (_ w (t ++ [uid_SEARCH q])) as [o d]. eauto.
    - rewrite (bind_Raise _ _ _ _ _ _ H). eauto. }
  destruct (query_body conn opts prev (q, hs) p w t) as [[[r1 p1]|e] d1]; cbn in *.
  - subst d1. destruct (for_queries _ _ _ _ _ _ _ _) as [o d2]. cbn. eauto.
  - eauto.
Qed.


(** C3 (as amended). When the search issued for a rule returns a status
    other than OK, no handler of that rule runs, and the pass goes on with
    the next rule: the call after the refused search is the search of the
    next rule, and the rules after it run as they would have.  When a handler
    step returns a status other than OK, the steps after it in that rule's
    pipeline make no call, and the pass goes on with the next rule as well.
    Only a search that raises an exception ends the pass. *)
Theorem refused_search_skips_its_rule_only
    (connection : Connection) (runtime_options : Options) (previous : seen_set)
    (rest : list query_def) (w : World) (t : list Op) :
  (forall query handler_funcs result0 current typ data,
     w t (uid_SEARCH query) = RImap typ data ->
     typ <> "OK" ->
     query_body connection runtime_options previous (query, handler_funcs) current w t
     = (Ret (typ, current), [uid_SEARCH query]) /\
     for_queries connection runtime_options previous ((query, handler_funcs) :: rest)
       result0 current w t
     = (let '(o, d) :=
          for_queries connection runtime_options previous rest typ current w
            (t ++ [uid_SEARCH query]) in
        (o, uid_SEARCH query :: d)) /\
     (forall query' handler_funcs' rest',
        rest = (query', handler_funcs') :: rest' ->
        exists d,
          snd (for_queries connection runtime_options previous
                 ((query, handler_funcs) :: rest) result0 current w t)
          = uid_SEARCH query :: uid_SEARCH query' :: d)) /\
  (forall handlef steps listofuids data0 seen_ids r' data' seen_ids' d,
     handlef connection listofuids runtime_options seen_ids w t
     = (Ret (r', data', seen_ids'), d) ->
     r' <> "OK" ->
     for_handlers (handlef :: steps) connection listofuids runtime_options
       "OK" data0 seen_ids w t
     = (Ret (r', data', seen_ids'), d)) /\
  (forall qd result0 current r' current' d,
     query_body connection runtime_options previous qd current w t
     = (Ret (r', current'), d) ->
     for_queries connection runtime_options previous (qd :: rest) result0 current w t
     = (let '(o, d') :=
          for_queries connection runtime_options previous rest r' current' w (t ++ d) in
        (o, d ++ d'))) /\
  (forall query handler_funcs result0 current e,
     w t (uid_SEARCH query) = RRaise e ->
     for_queries connection runtime_options previous ((query, handler_funcs) :: rest)
       result0 current w t
     = (Raise e, [uid_SEARCH query])).
Proof.
  split; [|split; [|split]].
  - intros query handler_funcs result0 current typ data E Hr.
    pose proof (query_body_refused connection runtime_options previous query
                  handler_funcs current w t typ data E Hr) as Hq.
    assert (Hfq : for_queries connection runtime_options previous
                    ((query, handler_funcs) :: rest) result0 current w t
                  = (let '(o, d) :=
                       for_queries connection runtime_options previous rest typ
                         current w (t ++ [uid_SEARCH query]) in
                     (o, uid_SEARCH query :: d))).
    { cbn [for_queries]. rewrite (bind_Ret _ _ _ _ _ _ Hq). reflexivity. }
    split; [exact Hq|]. split; [exact Hfq|].
    intros query' handler_funcs' rest' ->. rewrite Hfq.
    destruct (for_queries_first_call connection runtime_options previous query'
                handler_funcs' rest' typ current w (t ++ [uid_SEARCH query]))
      as [d Hd].
    destruct (for_queries _ _ _ ((query', handler_funcs') :: rest') _ _ _ _) as [o d'].
    cbn in *. subst d'. eauto.
  - intros handlef steps listofuids data0 seen_ids r' data' seen_ids' d Hh Hr'.
    cbn [for_handlers]. destruct (decide ("OK" = "OK")) as [_|]; [|contradiction].
    rewrite (bind_Ret _ _ _ _ _ _ Hh). cbn beta iota.
    rewrite for_handlers_not_OK by assumption. rewrite app_nil_r. reflexivity.
  - intros qd result0 current r' current' d Hqd.
    cbn [for_queries]. rewrite (bind_Ret _ _ _ _ _ _ Hqd). reflexivity.
  - intros query handler_funcs result0 current e E.
    cbn [for_queries]. unfold query_body.
    unfold imap, mbind, M_bind, bind, perform. rewrite E. reflexivity.
Qed.

Lemma refused_search_skips_its_rule_only_witness :
  exists d,
    snd (for_queries Sample.server Sample.options ∅ Sample.two_rules "OK" ∅
           Sample.first_search_refused [])
    = uid_SEARCH (QueryDSL.field_match QueryDSL.FROM "spam@")
      :: uid_SEARCH (QueryDSL.field_match QueryDSL.FROM "boss@") :: d.
Proof.
  destruct (refused_search_skips_its_rule_only Sample.server Sample.options ∅
              [(QueryDSL.field_match QueryDSL.FROM "boss@", [SetFlags "(\Seen)"])]
              Sample.first_search_refused []) as [Hsearch _].
  destruct (Hsearch (QueryDSL.field_match QueryDSL.FROM "spam@") [Expunge] "OK" ∅
              "NO" [ItemBytes "refused"] eq_refl) as (_ & _ & Hnext).
  - discriminate.
  - eapply Hnext. reflexivity.
Defined.

(** C3 as stated fails: the first search is refused, and the pass still
    searches for the second rule and runs its handler. *)
Lemma refused_search_does_not_end_the_pass :
  Sample.first_search_refused [] (uid_SEARCH (QueryDSL.field_match QueryDSL.FROM "spam@"))
  = RImap "NO" [ItemBytes "refused"] /\
  snd (pass Sample.server Sample.two_rules Sample.options initial_state
         Sample.first_search_refused [])
  = [uid_SEARCH (QueryDSL.field_match QueryDSL.FROM "spam@");
     uid_SEARCH (QueryDSL.field_match QueryDSL.FROM "boss@");
     uid_STORE "7" "+FLAGS" "(\Seen)"].
Proof. split; vm_compute; reflexivity. Qed.

(** ** The supervisor *)

Lemma attempt_Ret {A} (m : M A) w t a d :
  m w t = (Ret a, d) -> attempt m w t = (Ret (inr a), d).
Proof. intros H. unfold attempt. rewrite H. reflexivity. Qed.

Lemma attempt_Raise {A} (m : M A) w t e d :
  m w t = (Raise e, d) -> attempt m w t = (Ret (inl e), d).
Proof. intros H. unfold attempt. rewrite H. reflexivity. Qed.

(** In daemon mode a session that ends in an exception (other than a
    keyboard interrupt) is followed by a sleep of the current delay, and the
    next session starts with the delay doubled and capped. *)
Lemma run_loop_failure fuel wk cfg qs pw init max opts retry w t e d :
  session wk cfg qs pw opts w t = (Raise e, d) ->
  is_Exception e = true ->
  (forall e', w (t ++ d) (sleep retry) <> RRaise e') ->
  run_loop (S fuel) wk cfg qs pw false init max opts retry w t =
  (let '(o, d') :=
     run_loop fuel wk cfg qs pw false init max opts (Z.min (retry * 2) max) w
       (t ++ d ++ [sleep retry]) in
   (o, d ++ sleep retry :: d')).
Proof.
  intros Hs He Hsleep. cbn [run_loop].
  rewrite (bind_Ret _ _ _ _ _ _ (attempt_Raise _ _ _ _ _ Hs)). cbn beta iota.
  assert (Hstep :
    (perform (sleep retry) ≫= fun _ =>
       run_loop fuel wk cfg qs pw false init max opts (Z.min (retry * 2) max))
      w (t ++ d)
    = (let '(o, d') :=
         run_loop fuel wk cfg qs pw false init max opts (Z.min (retry * 2) max) w
           (t ++ d ++ [sleep retry]) in
       (o, sleep retry :: d'))).
  { unfold mbind, M_bind, bind, perform.
    destruct (w (t ++ d) (sleep retry)) eqn:E;
      try (rewrite <- app_assoc; reflexivity).
    destruct (Hsleep e0). reflexivity. }
  destruct e; try discriminate He; cbn;
    rewrite Hstep; destruct (run_loop _ _ _ _ _ _ _ _ _ _ _ _) as [o d']; reflexivity.
Qed.

(** In daemon mode a session that returns is followed by the next session
    with the delay back at its initial value. *)
Lemma run_loop_success fuel wk cfg qs pw init max opts retry w t d :
  session wk cfg qs pw opts w t = (Ret Returned, d) ->
  run_loop (S fuel) wk cfg qs pw false init max opts retry w t =
  (let '(o, d') := run_loop fuel wk cfg qs pw false init max opts init w (t ++ d) in
   (o, d ++ d')).
Proof.
  intros Hs. cbn [run_loop].
  rewrite (bind_Ret _ _ _ _ _ _ (attempt_Ret _ _ _ _ _ Hs)). reflexivity.
Qed.

(** In single-pass mode the exception of the session is the exception of
    [run]; nothing is slept and nothing retried. *)
Lemma run_loop_once fuel wk cfg qs pw init max opts retry w t e d :
  session wk cfg qs pw opts w t = (Raise e, d) ->
  is_Exception e = true ->
  run_loop (S fuel) wk cfg qs pw true init max opts retry w t = (Raise e, d).
Proof.
  intros Hs He. cbn [run_loop].
  rewrite (bind_Ret _ _ _ _ _ _ (attempt_Raise _ _ _ _ _ Hs)). cbn beta iota.
  destruct e; try discriminate He; cbn; rewrite app_nil_r; reflexivity.
Qed.

Lemma idle_unsupported connection w t :
  "IDLE" ∉ capabilities connection -> idle connection w t = (Raise IMAP4_error, []).
Proof.
  intros H. unfold idle. destruct (decide _); [contradiction | reflexivity].
Qed.

Lemma session_without_idle wk cfg qs pw opts w t connection st dp :
  w t connect_and_select = RConn connection ->
  "IDLE" ∉ capabilities connection ->
  pass connection qs opts initial_state w (t ++ [connect_and_select]) = (Ret st, dp) ->
  session (S wk) cfg qs pw opts w t = (Raise IMAP4_error, connect_and_select :: dp).
Proof.
  intros Hc Hi Hp. unfold session.
  assert (Hconn : connect pw w t = (Ret connection, [connect_and_select])).
  { unfold connect, mbind, M_bind, bind, perform. rewrite Hc. reflexivity. }
  rewrite (bind_Ret _ _ _ _ _ _ Hconn). cbn beta iota.
  assert (Hrun : runQueries (S wk) connection qs opts w (t ++ [connect_and_select])
                 = (Raise IMAP4_error, dp)).
  { unfold runQueries. cbn [while_result_OK].
    destruct (decide (result initial_state = "OK")) as [_|N]; [|destruct N; reflexivity].
    assert (Hturn : turn connection qs opts initial_state w (t ++ [connect_and_select])
                    = (Raise IMAP4_error, dp)).
    { unfold turn. cbn [response_true response initial_state].
      rewrite (bind_Ret _ _ _ _ _ _ Hp). cbn beta iota.
      rewrite (bind_Raise _ _ _ _ _ _ (idle_unsupported _ _ _ Hi)).
      rewrite app_nil_r. reflexivity. }
    rewrite (bind_Raise _ _ _ _ _ _ Hturn). reflexivity. }
  rewrite (bind_Raise _ _ _ _ _ _ Hrun). reflexivity.
Qed.

(** C7 (as amended). When the connected store does not advertise IDLE,
    [idle] raises its error at once, before any IDLE command is sent, after
    the first pass over the rule table.  In single-pass mode [run] ends with
    that error.  In daemon mode the supervisor treats it like any unexpected
    error: it sleeps the current delay and connects again, with the delay
    doubled and capped. *)
Theorem idle_unsupported_is_raised_and_in_daemon_mode_retried
    (fuel wakeups : nat) (config : Config) (queries : list query_def)
    (password : string) (initial_delay max_delay : Z) (w : World) (t : list Op)
    (connection : Connection) (st : LoopState) (dp : list Op) :
  w t connect_and_select = RConn connection ->
  "IDLE" ∉ capabilities connection ->
  pass connection queries (runtime_options_of config password) initial_state w
    (t ++ [connect_and_select]) = (Ret st, dp) ->
  (forall t', idle connection w t' = (Raise IMAP4_error, [])) /\
  run (S fuel) (S wakeups) config queries password true initial_delay max_delay w t
  = (Raise IMAP4_error, connect_and_select :: dp) /\
  ((forall e, w (t ++ connect_and_select :: dp) (sleep initial_delay) <> RRaise e) ->
   run (S fuel) (S wakeups) config queries password false initial_delay max_delay w t
   = (let '(o, d) :=
        run_loop fuel (S wakeups) config queries password false initial_delay
          max_delay (runtime_options_of config password)
          (Z.min (initial_delay * 2) max_delay) w
          (t ++ (connect_and_select :: dp) ++ [sleep initial_delay]) in
      (o, (connect_and_select :: dp) ++ sleep initial_delay :: d))).
Proof.
  intros Hc Hi Hp.
  pose proof (session_without_idle wakeups config queries password _ w t
                connection st dp Hc Hi Hp) as Hs.
  split; [intros t'; apply idle_unsupported; exact Hi|]. split.
  - unfold run. apply (run_loop_once _ _ _ _ _ _ _ _ _ _ _ _ _ Hs). reflexivity.
  - intros Hsleep. unfold run.
    apply (run_loop_failure _ _ _ _ _ _ _ _ _ _ _ _ _ Hs); [reflexivity | exact Hsleep].
Qed.

Lemma idle_unsupported_is_raised_and_in_daemon_mode_retried_witness :
  run 1 1 Sample.config Sample.work_rule "secret" true 60 3600 Sample.cannot_idle []
  = (Raise IMAP4_error,
     [connect_and_select;
      uid_SEARCH (QueryDSL.field_match QueryDSL.FROM "boss@workplace.edu")]).
Proof.
  apply (idle_unsupported_is_raised_and_in_daemon_mode_retried 0 0 Sample.config
           Sample.work_rule "secret" 60 3600 Sample.cannot_idle []
           Sample.server_without_idle
           {| result := "OK"; response := PyTrue;
              processed_message_ids := ∅; previous_message_ids := ∅ |}
           [uid_SEARCH (QueryDSL.field_match QueryDSL.FROM "boss@workplace.edu")]
           eq_refl).
  - vm_compute. intros H. inversion H as [|? ? ? H1]. inversion H1.
  - vm_compute. reflexivity.
Defined.

(** C7 as stated fails in daemon mode: against a store without IDLE the
    supervisor sleeps and connects again, here twice in two sessions. *)
Lemma idle_unsupported_is_retried_in_daemon_mode :
  run 2 1 Sample.config [] "secret" false 60 3600 Sample.cannot_idle []
  = (Ret Running,
     [connect_and_select; sleep 60; connect_and_select; sleep 120]).
Proof. vm_compute. reflexivity. Qed.

Lemma transport_error_is_Exception e : is_transport_error e = true -> is_Exception e = true.
Proof. destruct e; cbn; auto; discriminate. Qed.

Lemma session_unreachable wk cfg qs pw opts w t e :
  w t connect_and_select = RRaise e ->
  session wk cfg qs pw opts w t = (Raise e, [connect_and_select]).
Proof.
  intros H. unfold session, connect, mbind, M_bind, bind, perform.
  rewrite H. reflexivity.
Qed.




(** End to end: one rule with the AutoForwardReply handler and one matching
    mail [<m1>] that every search keeps returning.  The first wake-up sends
    the forward and the reply; the second wake-up fetches the mail again and
    sends nothing. *)
Example one_mail_two_wake_ups :
  exists forward_msg reply_msg,
    snd (runQueries 2 Sample.server Sample.work_rule Sample.options
           Sample.one_work_mail [])
    = [uid_SEARCH (QueryDSL.field_match QueryDSL.FROM "boss@workplace.edu");
       uid_FETCH "1";
       send_fn Sample.options "Forwarder <forwarder@example.com>"
         (Some "work@workplace.edu") forward_msg;
       send_fn Sample.options "Answermachine <answermachine@example.com>"
         (Some "boss@workplace.edu") reply_msg;
       IDLE;
       uid_SEARCH (QueryDSL.field_match QueryDSL.FROM "boss@workplace.edu");
       uid_FETCH "1";
       IDLE].
Proof. do 2 eexists. vm_compute. reflexivity. Qed.

(** After the first wake-up the window holds [<m1>] as current. *)
Example one_mail_is_left_in_the_window :
  exists st1 d1,
    turn Sample.server Sample.work_rule Sample.options initial_state
      Sample.one_work_mail [] = (Ret st1, d1) /\
    processed_message_ids st1 = {[Some "<m1>"]} /\
    previous_message_ids st1 = ∅.
Proof.
  destruct (turn Sample.server Sample.work_rule Sample.options initial_state
              Sample.one_work_mail []) as [[st1|e] d1] eqn:E.
  - exists st1, d1. split; [reflexivity|].
    vm_compute in E. injection E as <- _. split; vm_compute; reflexivity.
  - vm_compute in E. discriminate E.
Qed.

(** * Further properties *)

(** ** Mailbox handlers *)

Lemma imap_step_cases op (seen_ids : seen_set) w t :
  (exists typ data,
     w t op = RImap typ data /\
     (imap op ≫= fun '(res, data0) => mret (res, data0, seen_ids)) w t
     = (Ret (typ, data, seen_ids), [op])) \/
  ((forall typ data, w t op <> RImap typ data) /\
   exists e,
     (imap op ≫= fun '(res, data0) => mret (res, data0, seen_ids)) w t
     = (Raise e, [op])).
Proof.
  destruct (imap_cases op w t) as [(typ & data & E & H)|(N & e & H)].
  - left. exists typ, data. split; [exact E|].
    rewrite (bind_Ret _ _ _ _ _ _ H). reflexivity.
  - right. split; [exact N|]. exists e.
    rewrite (bind_Raise _ _ _ _ _ _ H). reflexivity.
Qed.

Lemma Move_spec
    (folder : string) (server : Connection) (listofuids : list string)
    (options : Options) (seen_ids : seen_set) (w : World) (t : list Op) :
  let theuids := join "," listofuids in
  let copy := uid_COPY theuids folder in
  let delete := uid_STORE theuids "+FLAGS" "(\Deleted)" in
  let calls := snd (Move folder server listofuids options seen_ids w t) in
  (forall data, w t copy = RImap "OK" data -> calls = [copy; delete]) /\
  ((forall data, w t copy <> RImap "OK" data) -> calls = [copy]) /\
  (forall typ data,
     w t copy = RImap typ data -> typ <> "OK" ->
     Move folder server listofuids options seen_ids w t
     = (Ret (typ, data, seen_ids), [copy])).
Proof.
  intros theuids copy delete calls. subst calls.
  unfold Move, Copy, Delete. fold theuids. fold copy. fold delete.
  destruct (imap_cases copy w t) as [(typ & data & E & H)|(N & e & H)].
  - assert (Hc : (imap copy ≫= fun '(res, data0) => mret (res, data0, seen_ids)) w t
                 = (Ret (typ, data, seen_ids), [copy])).
    { rewrite (bind_Ret _ _ _ _ _ _ H). reflexivity. }
    rewrite (bind_Ret _ _ _ _ _ _ Hc). cbn beta iota.
    destruct (decide (typ = "OK")) as [->|Hne].
    + split; [|split].
      * intros data' _.
        destruct (imap_cases delete w (t ++ [copy])) as [(ty & dt & E2 & H2)|(N2 & e & H2)].
        -- rewrite (bind_Ret _ _ _ _ _ _ H2). reflexivity.
        -- rewrite (bind_Raise _ _ _ _ _ _ H2). reflexivity.
      * intros Hno. destruct (Hno _ E).
      * intros typ' data' E' Hne'. rewrite E in E'. congruence.
    + split; [|split].
      * intros data' E'. rewrite E in E'. congruence.
      * intros _. reflexivity.
      * intros typ' data' E' _. rewrite E in E'. injection E' as <- <-. reflexivity.
  - assert (Hc : (imap copy ≫= fun '(res, data0) => mret (res, data0, seen_ids)) w t
                 = (Raise e, [copy])).
    { rewrite (bind_Raise _ _ _ _ _ _ H). reflexivity. }
    rewrite (bind_Raise _ _ _ _ _ _ Hc). split; [|split].
    + intros data E. destruct (N _ _ E).
    + intros _. reflexivity.
    + intros typ data E. destruct (N _ _ E).
Qed.


(** X1. Move marks the messages deleted only after the copy has answered
    OK: when the copy answers anything else, or raises, the copy is Move's
    only call and its answer is Move's result. *)
Theorem move_deletes_only_after_copy
    (folder : string) (server : Connection) (listofuids : list string)
    (options : Options) (seen_ids : seen_set) (w : World) (t : list Op) :
  let theuids := join "," listofuids in
  let copy := uid_COPY theuids folder in
  let delete := uid_STORE theuids "+FLAGS" "(\Deleted)" in
  let calls := snd (Move folder server listofuids options seen_ids w t) in
  (forall data, w t copy = RImap "OK" data -> calls = [copy; delete]) /\
  ((forall data, w t copy <> RImap "OK" data) -> calls = [copy]) /\
  (forall typ data,
     w t copy = RImap typ data -> typ <> "OK" ->
     Move folder server listofuids options seen_ids w t
     = (Ret (typ, data, seen_ids), [copy])).
Proof. apply Move_spec. Qed.

Lemma move_deletes_only_after_copy_witness :
  Move "INBOX.Archive" Sample.server ["1"] Sample.options ∅ Sample.copy_refused []
  = (Ret ("NO", [ItemBytes "Copy failed"], ∅), [uid_COPY "1" "INBOX.Archive"]).
Proof.
  apply (move_deletes_only_after_copy "INBOX.Archive" Sample.server ["1"]
           Sample.options ∅ Sample.copy_refused []).
  - reflexivity.
  - discriminate.
Defined.

(** X2. SetFlagsAndMove makes its calls in the order set flags, copy,
    delete and stops at the first that does not answer OK: all three are made
    exactly when the flags and the copy both answered OK, and only the first
    when the flags did not. *)
Theorem setflagsandmove_stops_at_first_failure
    (flag folder : string) (server : Connection) (listofuids : list string)
    (options : Options) (seen_ids : seen_set) (w : World) (t : list Op) :
  let theuids := join "," listofuids in
  let flags := uid_STORE theuids "+FLAGS" flag in
  let copy := uid_COPY theuids folder in
  let delete := uid_STORE theuids "+FLAGS" "(\Deleted)" in
  let calls :=
    snd (SetFlagsAndMove flag folder server listofuids options seen_ids w t) in
  calls `prefix_of` [flags; copy; delete] /\
  (calls = [flags; copy; delete] <->
   (exists data, w t flags = RImap "OK" data) /\
   (exists data, w (t ++ [flags]) copy = RImap "OK" data)) /\
  (calls = [flags] <-> ~ exists data, w t flags = RImap "OK" data).
Proof.
  intros theuids flags copy delete calls. subst calls.
  unfold SetFlagsAndMove, SetFlags. fold theuids. fold flags.
  destruct (imap_step_cases flags seen_ids w t)
    as [(typ & data & E & H)|(N & e & H)].
  - rewrite (bind_Ret _ _ _ _ _ _ H). cbn beta iota.
    destruct (decide (typ = "OK")) as [->|Hne].
    + destruct (Move_spec folder server listofuids options seen_ids w (t ++ [flags]))
        as (Hok & Hno & _). fold theuids in Hok, Hno. fold copy in Hok, Hno.
      fold delete in Hok.
      destruct (Move folder server listofuids options seen_ids w (t ++ [flags]))
        as [o d] eqn:Em. cbn in Hok, Hno |- *.
      destruct (w (t ++ [flags]) copy) as [ty dt| | | | |] eqn:Ec;
        try (rewrite Hno by congruence;
             split; [exists [delete]; reflexivity|];
             split; [split; [discriminate | intros [_ [? ?]]; discriminate]
                    | split; [discriminate | intros Hn; destruct Hn; eauto]]).
      destruct (decide (ty = "OK")) as [->|Hty].
      * rewrite (Hok dt eq_refl).
        split; [exists []; reflexivity|].
        split; [split; eauto | split; [discriminate | intros Hn; destruct Hn; eauto]].
      * rewrite Hno by congruence.
        split; [exists [delete]; reflexivity|].
        split; [split; [discriminate | intros [_ [? ?]]; congruence]
               | split; [discriminate | intros Hn; destruct Hn; eauto]].
    + cbn. split; [exists [copy; delete]; reflexivity|].
      split; [split; [discriminate | intros [[? ?] _]; congruence]|].
      split; [intros _ [? ?]; congruence | reflexivity].
  - rewrite (bind_Raise _ _ _ _ _ _ H). cbn.
    split; [exists [copy; delete]; reflexivity|].
    split; [split; [discriminate | intros [[? E] _]; destruct (N _ _ E)]|].
    split; [intros _ [? E]; destruct (N _ _ E) | reflexivity].
Qed.

Lemma mailbox_only_step (mk : list string -> Op) :
  (forall listofuids, is_imap (mk listofuids) = true) ->
  mailbox_only (fun server listofuids options seen_ids =>
                  imap (mk listofuids) ≫= fun '(res, data) => mret (res, data, seen_ids)).
Proof.
  intros Hmk server listofuids options seen_ids w t.
  destruct (imap_step_cases (mk listofuids) seen_ids w t)
    as [(typ & data & E & H)|(N & e & H)]; rewrite H; cbn.
  - split; [intros ? ? ? [= _ _ <-]; reflexivity|].
    constructor; [apply Hmk | constructor].
  - split; [discriminate|]. constructor; [apply Hmk | constructor].
Qed.

(** [h1], and then [h2] when [h1] answered OK: the shape of Move and of
    SetFlagsAndMove. *)
Lemma mailbox_only_chain (h1 h2 : handler) :
  mailbox_only h1 -> mailbox_only h2 ->
  mailbox_only (fun server listofuids options seen_ids =>
                  h1 server listofuids options seen_ids ≫= fun '(res, data, seen_ids) =>
                  if decide (res = "OK") then h2 server listofuids options seen_ids
                  else mret (res, data, seen_ids)).
Proof.
  intros H1 H2 server listofuids options seen_ids w t.
  destruct (H1 server listofuids options seen_ids w t) as [Hs1 Hc1].
  unfold mbind, M_bind, bind.
  destruct (h1 server listofuids options seen_ids w t) as [[[[res data] s1]|e] d1];
    cbn in *; [|split; [discriminate | exact Hc1]].
  rewrite (Hs1 res data s1 eq_refl).
  destruct (decide (res = "OK")).
  - destruct (H2 server listofuids options seen_ids w (t ++ d1)) as [Hs2 Hc2].
    destruct (h2 server listofuids options seen_ids w (t ++ d1)) as [o d2]; cbn in *.
    split; [exact Hs2 | apply Forall_app; auto].
  - cbn. split; [intros ? ? ? [= _ _ <-]; reflexivity|].
    rewrite app_nil_r. exact Hc1.
Qed.

Lemma mailbox_only_Expunge : mailbox_only Expunge.
Proof. apply (mailbox_only_step (fun _ => expunge)). reflexivity. Qed.

Lemma mailbox_only_Delete : mailbox_only Delete.
Proof.
  apply (mailbox_only_step
           (fun listofuids => uid_STORE (join "," listofuids) "+FLAGS" "(\Deleted)")).
  reflexivity.
Qed.

Lemma mailbox_only_Copy folder : mailbox_only (Copy folder).
Proof.
  apply (mailbox_only_step (fun listofuids => uid_COPY (join "," listofuids) folder)).
  reflexivity.
Qed.

Lemma mailbox_only_SetFlags flag : mailbox_only (SetFlags flag).
Proof.
  apply (mailbox_only_step
           (fun listofuids => uid_STORE (join "," listofuids) "+FLAGS" flag)).
  reflexivity.
Qed.

Lemma mailbox_only_Move folder : mailbox_only (Move folder).
Proof.
  apply (mailbox_only_chain (Copy folder) Delete);
    [apply mailbox_only_Copy | apply mailbox_only_Delete].
Qed.

Lemma mailbox_only_SetFlagsAndMove flag folder :
  mailbox_only (SetFlagsAndMove flag folder).
Proof.
  apply (mailbox_only_chain (SetFlags flag) (Move folder));
    [apply mailbox_only_SetFlags | apply mailbox_only_Move].
Qed.

(** X3. The six mailbox handlers (Expunge, Delete, Copy, Move, SetFlags,
    SetFlagsAndMove) hand [seen_ids] back exactly as they received it, and
    every call they make is a mailbox command: none of them ever sends
    mail. *)
Theorem mailbox_handlers_pass_seen_ids_through (flag folder : string) :
  mailbox_only Expunge /\ mailbox_only Delete /\ mailbox_only (Copy folder) /\
  mailbox_only (Move folder) /\ mailbox_only (SetFlags flag) /\
  mailbox_only (SetFlagsAndMove flag folder).
Proof.
  repeat apply conj;
    auto using mailbox_only_Expunge, mailbox_only_Delete, mailbox_only_Copy,
      mailbox_only_Move, mailbox_only_SetFlags, mailbox_only_SetFlagsAndMove.
Qed.

(** ** Content handlers over a batch *)

Lemma mail_of_None_cases ret :
  mail_of ret = None ->
  (forall meta rest, ret <> ItemTuple meta rest) \/
  (exists meta, ret = ItemTuple meta []) \/
  (exists meta themail rest,
     ret = ItemTuple meta (themail :: rest) /\ not_message themail = true).
Proof.
  destruct ret as [b| |meta [|m rest]]; cbn.
  - left. discriminate.
  - left. discriminate.
  - right. left. eauto.
  - destruct (not_message m) eqn:E; [|discriminate].
    right. right. eauto 6.
Qed.

Lemma dedup_body_WorkEmail config options : dedup_body (WorkEmail_item config options).
Proof.
  split; [|split].
  - intros ret s w t [H|[(meta & ->)|(meta & m & rest & -> & Hm)]]%mail_of_None_cases.
    + destruct ret; try reflexivity. destruct (H meta rest eq_refl).
    + reflexivity.
    + unfold WorkEmail_item. rewrite Hm. reflexivity.
  - intros. eapply WorkEmail_item_seen; eauto.
  - intros. eapply WorkEmail_item_marks; eauto.
Qed.

Lemma dedup_body_Obnoxious config options : dedup_body (Obnoxious_item config options).
Proof.
  split; [|split].
  - intros ret s w t [H|[(meta & ->)|(meta & m & rest & -> & Hm)]]%mail_of_None_cases.
    + destruct ret; try reflexivity. destruct (H meta rest eq_refl).
    + reflexivity.
    + unfold Obnoxious_item. rewrite Hm. reflexivity.
  - intros. eapply Obnoxious_item_seen; eauto.
  - intros. eapply Obnoxious_item_marks; eauto.
Qed.

Lemma dedup_body_Proxy extract config options server :
  dedup_body (fun ret s => proxy_process_email extract ret server options s config).
Proof.
  split; [|split].
  - intros ret s w t [H|[(meta & ->)|(meta & m & rest & -> & Hm)]]%mail_of_None_cases.
    + destruct ret; try reflexivity. destruct (H meta rest eq_refl).
    + reflexivity.
    + unfold proxy_process_email. rewrite Hm. reflexivity.
  - intros. eapply proxy_process_email_seen; eauto.
  - intros. eapply proxy_process_email_marks; eauto.
Qed.

Lemma dedup_body_step body ret s w t s' :
  dedup_body body -> fst (body ret s w t) = Ret s' ->
  s ⊆ s' /\ (forall themail, mail_of ret = Some themail ->
                             getitem themail "Message-ID" ∈ s').
Proof.
  intros (Hnone & Hseen & Hnew) H.
  destruct (mail_of ret) as [themail|] eqn:Em.
  - destruct (decide (getitem themail "Message-ID" ∈ s)) as [Hin|Hout].
    + rewrite (Hseen _ _ _ _ _ Em Hin) in H. injection H as <-.
      split; [reflexivity|]. intros ? [= <-]. exact Hin.
    + rewrite (Hnew _ _ _ _ _ _ Em Hout H).
      split; [apply union_subseteq_l|]. intros ? [= <-].
      apply elem_of_union_r, elem_of_singleton. reflexivity.
  - rewrite (Hnone _ _ _ _ Em) in H. injection H as <-.
    split; [reflexivity | discriminate].
Qed.

Lemma for_items_dedup body data s w t s' :
  dedup_body body -> fst (for_items body data s w t) = Ret s' ->
  s ⊆ s' /\
  Forall (fun ret => forall themail, mail_of ret = Some themail ->
                                     getitem themail "Message-ID" ∈ s') data.
Proof.
  intros Hb. revert s t. induction data as [|ret data IH]; intros s t.
  - cbn. intros [= <-]. split; [reflexivity | constructor].
  - cbn [for_items]. intros H.
    apply bind_returns in H as (s1 & d1 & H1 & H2).
    destruct (dedup_body_step body ret s w t s1 Hb) as [Hs1 Hid1];
      [rewrite H1; reflexivity|].
    destruct (IH _ _ H2) as [Hs2 Hall].
    split; [etrans; eassumption|]. constructor; [|exact Hall].
    intros themail Hm. apply Hs2. exact (Hid1 themail Hm).
Qed.

Lemma for_items_all_seen body data s w t :
  dedup_body body ->
  Forall (fun ret => forall themail, mail_of ret = Some themail ->
                                     getitem themail "Message-ID" ∈ s) data ->
  for_items body data s w t = (Ret s, []).
Proof.
  intros (Hnone & Hseen & _) Hall. revert t.
  induction Hall as [|ret data Hret Hall IH]; intros t; [reflexivity|].
  cbn [for_items].
  assert (Hb : body ret s w t = (Ret s, [])).
  { destruct (mail_of ret) as [themail|] eqn:Em; [|auto].
    apply (Hseen _ _ _ _ _ Em). auto. }
  rewrite (bind_Ret _ _ _ _ _ _ Hb). rewrite IH. reflexivity.
Qed.

(** X7. Deduplication across invocations: when the loop of a content
    handler (WorkEmail, Obnoxious, Proxy) over a batch has handed back a set,
    running it again over the same batch with that set makes no call at all,
    in any world, and hands the set back unchanged. *)
Theorem second_run_over_a_batch_is_silent
    (extract : Message -> option string -> list string)
    (config : Config) (options : Options) (server : Connection)
    (data : list Item) (seen_ids seen_ids' : seen_set) (w : World) (t : list Op) :
  (fst (for_items (WorkEmail_item config options) data seen_ids w t) = Ret seen_ids' ->
   forall w' t',
     for_items (WorkEmail_item config options) data seen_ids' w' t'
     = (Ret seen_ids', [])) /\
  (fst (for_items (Obnoxious_item config options) data seen_ids w t) = Ret seen_ids' ->
   forall w' t',
     for_items (Obnoxious_item config options) data seen_ids' w' t'
     = (Ret seen_ids', [])) /\
  (fst (for_items
          (fun ret s => proxy_process_email extract ret server options s config)
          data seen_ids w t) = Ret seen_ids' ->
   forall w' t',
     for_items (fun ret s => proxy_process_email extract ret server options s config)
       data seen_ids' w' t'
     = (Ret seen_ids', [])).
Proof.
  repeat apply conj; intros H w' t'.
  - apply for_items_all_seen; [apply dedup_body_WorkEmail|].
    eapply for_items_dedup; [apply dedup_body_WorkEmail | exact H].
  - apply for_items_all_seen; [apply dedup_body_Obnoxious|].
    eapply for_items_dedup; [apply dedup_body_Obnoxious | exact H].
  - apply for_items_all_seen; [apply dedup_body_Proxy|].
    eapply for_items_dedup; [apply dedup_body_Proxy | exact H].
Qed.

Lemma mailbox_only_grows h : mailbox_only h -> grows h.
Proof.
  intros Hm server listofuids options seen_ids w t res data seen_ids' H.
  destruct (Hm server listofuids options seen_ids w t) as [Hs _].
  rewrite (Hs _ _ _ H). reflexivity.
Qed.

(** As [bind_returns], with the outcome of the first step as a projection. *)
Lemma bind_returns_fst {A B} (m : M A) (k : A -> M B) w t b :
  fst ((m ≫= k) w t) = Ret b ->
  exists a d, fst (m w t) = Ret a /\ d = snd (m w t) /\ fst (k a w (t ++ d)) = Ret b.
Proof.
  intros (a & d & H1 & H2)%bind_returns. exists a, d. rewrite H1. auto.
Qed.

Lemma grows_WorkEmail config : grows (WorkEmail config).
Proof.
  intros server listofuids options seen_ids w t res data seen_ids' H.
  unfold WorkEmail in H.
  apply bind_returns_fst in H as ([typ data0] & d1 & _ & _ & H).
  apply bind_returns_fst in H as (s1 & d2 & H2 & _ & H).
  cbn in H. injection H as _ _ <-.
  eapply for_items_dedup; [apply dedup_body_WorkEmail | exact H2].
Qed.

Lemma grows_Proxy extract config : grows (Proxy extract config).
Proof.
  intros server listofuids options seen_ids w t res data seen_ids' H.
  unfold Proxy in H.
  apply bind_returns_fst in H as ([typ data0] & d1 & _ & _ & H).
  apply bind_returns_fst in H as (s1 & d2 & H2 & _ & H).
  cbn in H. injection H as _ _ <-.
  eapply for_items_dedup; [apply dedup_body_Proxy | exact H2].
Qed.

Lemma grows_Obnoxious config : grows (Obnoxious config).
Proof.
  intros server listofuids options seen_ids w t res data seen_ids' H.
  unfold Obnoxious in H.
  apply bind_returns_fst in H as ([typ data0] & d1 & _ & _ & H).
  apply bind_returns_fst in H as (r1 & d2 & _ & _ & H).
  apply bind_returns_fst in H as (r2 & d3 & _ & _ & H).
  apply bind_returns_fst in H as (s1 & d4 & H2 & _ & H).
  cbn in H. injection H as _ _ <-.
  eapply for_items_dedup; [apply dedup_body_Obnoxious | exact H2].
Qed.

Lemma for_handlers_grows hs conn uids opts r data s w t r' data' s' :
  Forall grows hs ->
  fst (for_handlers hs conn uids opts r data s w t) = Ret (r', data', s') ->
  s ⊆ s'.
Proof.
  intros Hall. revert r data s t.
  induction Hall as [|h hs Hh Hall IH]; intros r data s t.
  - cbn. intros [= _ _ <-]. reflexivity.
  - cbn [for_handlers]. destruct (decide (r = "OK")); [|apply IH].
    intros H. apply bind_returns_fst in H as ([[r1 dt1] s1] & d1 & H1 & _ & H).
    etrans; [eapply Hh; exact H1 | eapply IH; exact H].
Qed.

(** X4. No handler ever takes an identifier out of [seen_ids]: each of
    the nine handlers hands back a superset of the set it received, and so
    does every pipeline made of such handlers.  Hence a rule never loses an
    identifier that an earlier rule of the same wake-up has marked: the
    current set only grows along the rule table. *)
Theorem seen_ids_only_grow
    (extract : Message -> option string -> list string)
    (config : Config) (flag folder : string) :
  (grows Expunge /\ grows Delete /\ grows (Copy folder) /\ grows (Move folder) /\
   grows (SetFlags flag) /\ grows (SetFlagsAndMove flag folder) /\
   grows (WorkEmail config) /\ grows (Obnoxious config) /\
   grows (Proxy extract config)) /\
  (forall hs conn uids opts r data s w t r' data' s',
     Forall grows hs ->
     fst (for_handlers hs conn uids opts r data s w t) = Ret (r', data', s') ->
     s ⊆ s') /\
  (forall conn opts previous query hs current w t r current',
     Forall grows hs ->
     current ## previous ->
     fst (query_body conn opts previous (query, hs) current w t) = Ret (r, current') ->
     current ⊆ current').
Proof.
  split; [|split].
  - repeat apply conj;
      auto using mailbox_only_grows, mailbox_only_Expunge, mailbox_only_Delete,
        mailbox_only_Copy, mailbox_only_Move, mailbox_only_SetFlags,
        mailbox_only_SetFlagsAndMove, grows_WorkEmail, grows_Obnoxious, grows_Proxy.
  - intros. eapply for_handlers_grows; eauto.
  - intros conn opts previous query hs current w t r current' Hall Hd H.
    unfold query_body in H.
    apply bind_returns_fst in H as ([typ data] & d1 & _ & _ & H).
    destruct (decide (typ = "OK")); [|cbn in H; injection H as _ <-; reflexivity].
    apply bind_returns_fst in H as (uids & d2 & _ & _ & H).
    destruct (decide _); [|cbn in H; injection H as _ <-; reflexivity].
    apply bind_returns_fst in H as ([[r1 dt1] s1] & d3 & H1 & _ & H).
    cbn in H. injection H as _ <-.
    pose proof (for_handlers_grows _ _ _ _ _ _ _ _ _ _ _ _ Hall H1) as Hs.
    intros x Hx. apply elem_of_difference. split.
    + apply Hs. apply elem_of_union_l. exact Hx.
    + intros Hp. exact (Hd x Hx Hp).
Qed.

Lemma size_difference_step (s s' : seen_set) (x : option string) :
  x ∉ s -> s ∪ {[x]} ⊆ s' -> size (s' ∖ s) = S (size (s' ∖ (s ∪ {[x]}))).
Proof.
  intros Hx Hsub.
  assert (Heq : s' ∖ s = {[x]} ∪ (s' ∖ (s ∪ {[x]}))).
  { apply set_eq. intros y. rewrite elem_of_union, !elem_of_difference,
      elem_of_union, elem_of_singleton.
    destruct (decide (y = x)) as [->|Hne].
    - split; [auto|]. intros _. split; [|exact Hx].
      apply Hsub, elem_of_union_r, elem_of_singleton. reflexivity.
    - split.
      + intros [H1 H2]. right. split; [exact H1|]. intros [?|?]; contradiction.
      + intros [?|[H1 H2]]; [contradiction|]. split; [exact H1|]. auto. }
  rewrite Heq, size_union, size_singleton; [reflexivity|].
  intros y Hy1 Hy2. apply elem_of_singleton in Hy1 as ->.
  apply elem_of_difference in Hy2 as [_ Hy2]. apply Hy2.
  apply elem_of_union_r, elem_of_singleton. reflexivity.
Qed.

(** A loop whose body either passes an item over or marks one new
    identifier with [k] sends: the sends are [k] for each identifier added. *)
Lemma for_items_count (body : Item -> seen_set -> M seen_set) (k : nat) w :
  (forall ret s t,
     body ret s w t = (Ret s, []) \/
     exists x sends,
       (x ∉ s) /\ body ret s w t = (Ret (s ∪ {[x]}), sends) /\
       List.length sends = k /\ Forall (fun op => is_send op = true) sends) ->
  forall data s t,
  exists s' sends,
    for_items body data s w t = (Ret s', sends) /\
    Forall (fun op => is_send op = true) sends /\
    s ⊆ s' /\
    List.length sends = (k * size (s' ∖ s))%nat.
Proof.
  intros Hbody. induction data as [|ret data IH]; intros s t.
  - exists s, []. cbn. split; [reflexivity|]. split; [constructor|].
    split; [reflexivity|]. rewrite difference_diag_L, size_empty. lia.
  - cbn [for_items].
    destruct (Hbody ret s t) as [Hb|(x & sends1 & Hx & Hb & Hlen & Hsends)].
    + rewrite (bind_Ret _ _ _ _ _ _ Hb).
      destruct (IH s (t ++ [])) as (s' & sends & -> & H1 & H2 & H3).
      exists s', sends. auto.
    + rewrite (bind_Ret _ _ _ _ _ _ Hb).
      destruct (IH (s ∪ {[x]}) (t ++ sends1)) as (s' & sends & -> & H1 & H2 & H3).
      exists s', (sends1 ++ sends). split; [reflexivity|].
      split; [apply Forall_app; auto|].
      split; [etrans; [apply union_subseteq_l | exact H2]|].
      rewrite length_app, Hlen, H3, (size_difference_step s s' x Hx H2). lia.
Qed.

Lemma WorkEmail_item_cases config options w :
  delivery_contract w ->
  is_Some (dict_get (work_reply config) "en") ->
  is_Some (dict_get (work_forward_note config) "en") ->
  forall ret s t,
    WorkEmail_item config options ret s w t = (Ret s, []) \/
    exists x sends,
      (x ∉ s) /\ WorkEmail_item config options ret s w t = (Ret (s ∪ {[x]}), sends) /\
      List.length sends = 2%nat /\ Forall (fun op => is_send op = true) sends.
Proof.
  intros Hw [r Hr] [n Hn] ret s t.
  destruct (dedup_body_WorkEmail config options) as (Hnone & Hseen & _).
  destruct (mail_of ret) as [themail|] eqn:Em; [|left; auto].
  destruct (decide (getitem themail "Message-ID" ∈ s)) as [Hin|Hout]; [left; eauto|].
  right. eexists _, _. split; [exact Hout|].
  split; [eapply WorkEmail_item_unseen; eauto|].
  split; [reflexivity | repeat constructor].
Qed.

Lemma Obnoxious_item_cases config options w :
  delivery_contract w ->
  is_Some (dict_get (obnoxious_reply config) "en") ->
  forall ret s t,
    Obnoxious_item config options ret s w t = (Ret s, []) \/
    exists x sends,
      (x ∉ s) /\ Obnoxious_item config options ret s w t = (Ret (s ∪ {[x]}), sends) /\
      List.length sends = 1%nat /\ Forall (fun op => is_send op = true) sends.
Proof.
  intros Hw [r Hr] ret s t.
  destruct (dedup_body_Obnoxious config options) as (Hnone & Hseen & _).
  destruct (mail_of ret) as [themail|] eqn:Em; [|left; auto].
  destruct (decide (getitem themail "Message-ID" ∈ s)) as [Hin|Hout]; [left; eauto|].
  right. eexists _, _. split; [exact Hout|].
  split; [eapply Obnoxious_item_unseen; eauto|].
  split; [reflexivity | repeat constructor].
Qed.





(** ** FetchProxy never mails a sender *)

Lemma proxy_fetch_and_store_url_sends url subject ref_mid proxy_options server
    smtp_options config w t :
  Forall (fun op =>
            match op with
            | send_fn _ from_addr to_addr _ =>
                send_using_smtp proxy_options = true /\
                from_addr = send_from proxy_options /\
                to_addr = send_to proxy_options
            | _ => True
            end)
    (snd (proxy_fetch_and_store_url url subject ref_mid proxy_options server
            smtp_options config w t)).
Proof.
  unfold proxy_fetch_and_store_url, proxy_build_message_from_url. unfold_M.
  destruct (send_using_smtp proxy_options) eqn:Es; repeat case_world w;
    repeat match goal with
      | |- context [is_Exception ?e] => destruct (is_Exception e); cbn
      end;
    cbn; rewrite ?app_nil_r;
    repeat (apply List.Forall_cons; [cbn; auto|]); apply List.Forall_nil.
Qed.

Lemma for_urls_Forall (body : string -> M unit) (P : Op -> Prop) urls w :
  (forall u t, Forall P (snd (body u w t))) ->
  forall t, Forall P (snd (for_urls body urls w t)).
Proof.
  intros Hbody. induction urls as [|u urls IH]; intros t; [constructor|].
  cbn [for_urls]. unfold mbind, M_bind, bind.
  pose proof (Hbody u t) as H1.
  destruct (body u w t) as [[[]|e] d1]; cbn in *; [|exact H1].
  pose proof (IH (t ++ d1)) as H2.
  destruct (for_urls body urls w (t ++ d1)) as [o d2]; cbn in *.
  apply Forall_app; auto.
Qed.

Lemma proxy_process_email_sends extract ret server options seen_ids config w t :
  Forall (kindle_send_or_none config)
    (snd (proxy_process_email extract ret server options seen_ids config w t)).
Proof.
  destruct ret as [b| |meta [|themail rest]]; try constructor.
  unfold proxy_process_email, should_process_message.
  destruct (not_message themail); [constructor|].
  destruct (decide _); [constructor|]. cbn [negb].
  unfold mbind, M_bind, bind.
  match goal with
  | |- context [for_urls ?b ?us w t] =>
      pose proof (for_urls_Forall b (kindle_send_or_none config) us w) as Hu;
      destruct (for_urls b us w t) as [[[]|e] d] eqn:Eu
  end.
  - cbn. rewrite app_nil_r.
    match type of Eu with
    | for_urls ?b ?us w t = _ =>
        replace d with (snd (for_urls b us w t)) by (rewrite Eu; reflexivity)
    end.
    apply Hu. intros u t'.
    eapply Forall_impl; [apply proxy_fetch_and_store_url_sends|].
    intros [] H; cbn in *; auto.
    destruct H as (Hk & -> & ->). unfold proxy_parse_options in *. cbn in *.
    rewrite Hk. auto.
  - cbn.
    match type of Eu with
    | for_urls ?b ?us w t = _ =>
        replace d with (snd (for_urls b us w t)) by (rewrite Eu; reflexivity)
    end.
    apply Hu. intros u t'.
    eapply Forall_impl; [apply proxy_fetch_and_store_url_sends|].
    intros [] H; cbn in *; auto.
    destruct H as (Hk & -> & ->). unfold proxy_parse_options in *. cbn in *.
    rewrite Hk. auto.
Qed.

(** X8. Whatever a mail says and whatever the world answers, the only
    mail the FetchProxy handler ever sends goes from the configured Kindle
    sender to the configured Kindle address: it never sends fetched content
    to an address taken from the mail. *)
Theorem proxy_sends_to_kindle_only
    (extract : Message -> option string -> list string)
    (config : Config) (server : Connection) (listofuids : list string)
    (options : Options) (seen_ids : seen_set) (w : World) (t : list Op) :
  Forall (kindle_send_or_none config)
    (snd (Proxy extract config server listofuids options seen_ids w t)).
Proof.
  unfold Proxy.
  destruct (imap_cases (uid_FETCH (join "," listofuids)) w t)
    as [(typ & data & E & H)|(N & e & H)].
  - rewrite (bind_Ret _ _ _ _ _ _ H). cbn beta iota. unfold mbind, M_bind, bind.
    match goal with
    | |- context [for_items ?b data seen_ids w ?h] =>
        pose proof (for_items_Forall b (kindle_send_or_none config) w
                      (fun r s t' =>
                         proxy_process_email_sends extract r server options s config
                           w t')
                      data seen_ids h) as Hs;
        destruct (for_items b data seen_ids w h) as [[s'|e] d]
    end; cbn in *.
    + rewrite app_nil_r. constructor; [exact I | exact Hs].
    + constructor; [exact I | exact Hs].
  - rewrite (bind_Raise _ _ _ _ _ _ H). repeat constructor.
Qed.

(** ** The event loop *)

Lemma bind_Ret_inv {A B} (m : M A) (k : A -> M B) w t b d :
  (m ≫= k) w t = (Ret b, d) ->
  exists a d1 d2, m w t = (Ret a, d1) /\ k a w (t ++ d1) = (Ret b, d2) /\ d = d1 ++ d2.
Proof.
  unfold mbind, M_bind, bind.
  destruct (m w t) as [[a|e] d1]; [|discriminate].
  destruct (k a w (t ++ d1)) as [o d2] eqn:Ek. intros [= -> <-].
  exists a, d1, d2. auto.
Qed.

Lemma query_body_quiet conn opts prev qd p w t :
  inbox_quiet w ->
  query_body conn opts prev qd p w t = (Ret ("OK", p), [uid_SEARCH (fst qd)]).
Proof.
  intros Hq. destruct qd as [q hs]. cbn [fst].
  destruct (Hq t q) as (b & rest & E & Hb). unfold query_body.
  destruct (imap_cases (uid_SEARCH q) w t) as [(typ & data & E' & H)|(N & _)];
    [|destruct (N _ _ E)].
  rewrite E in E'. injection E' as <- <-.
  rewrite (bind_Ret _ _ _ _ _ _ H). cbn beta iota.
  destruct (decide ("OK" = "OK")) as [_|]; [|contradiction].
  unfold split_first, mbind, M_bind, bind, mret, M_ret, ret. cbn. rewrite Hb.
  destruct (decide _) as [Hlt|_]; [cbn in Hlt; lia | reflexivity].
Qed.

Lemma for_queries_quiet conn opts prev queries r p w t :
  inbox_quiet w ->
  for_queries conn opts prev queries r p w t
  = (Ret (match queries with [] => r | _ => "OK" end, p),
     map (fun qd => uid_SEARCH (fst qd)) queries).
Proof.
  intros Hq. revert r t. induction queries as [|qd queries IH]; intros r t;
    [reflexivity|].
  cbn [for_queries]. rewrite (bind_Ret _ _ _ _ _ _ (query_body_quiet _ _ _ _ _ _ _ Hq)).
  cbn beta iota. rewrite IH. destruct queries; reflexivity.
Qed.

(** X9. A pass over a mailbox in which no search finds anything costs
    exactly one SEARCH per rule, in table order: no handler is called, so
    nothing is fetched, changed or sent, and the current set is left empty
    while the former current set becomes previous. *)
Theorem quiet_pass_only_searches
    (connection : Connection) (queries : list query_def) (runtime_options : Options)
    (st : LoopState) (w : World) (t : list Op) :
  inbox_quiet w ->
  exists st',
    pass connection queries runtime_options st w t
    = (Ret st', map (fun qd => uid_SEARCH (fst qd)) queries) /\
    processed_message_ids st' = ∅ /\
    previous_message_ids st' = processed_message_ids st.
Proof.
  intros Hq. unfold pass.
  rewrite (bind_Ret _ _ _ _ _ _ (for_queries_quiet _ _ _ _ _ _ _ _ Hq)).
  cbn. rewrite app_nil_r. eexists. split; [reflexivity|]. split; reflexivity.
Qed.

Lemma quiet_is_quiet data : inbox_quiet (Sample.quiet data).
Proof. intros h q. exists "", []. split; reflexivity. Qed.

Lemma quiet_pass_only_searches_witness :
  exists st',
    pass Sample.server Sample.two_rules Sample.options initial_state
      (Sample.quiet []) []
    = (Ret st', map (fun qd => uid_SEARCH (fst qd)) Sample.two_rules) /\
    processed_message_ids st' = ∅ /\
    previous_message_ids st' = processed_message_ids initial_state.
Proof.
  apply (quiet_pass_only_searches Sample.server Sample.two_rules Sample.options
           initial_state (Sample.quiet []) []).
  apply quiet_is_quiet.
Defined.

Lemma idle_returns connection w t typ resp d :
  idle connection w t = (Ret (typ, resp), d) ->
  d = [IDLE] /\ w t IDLE = RIdle typ resp.
Proof.
  unfold idle. destruct (decide _); [|discriminate].
  unfold mbind, M_bind, bind, perform, raise, mret, M_ret, ret.
  destruct (w t IDLE) eqn:E; cbn; try discriminate.
  intros [= <- <- <-]. auto.
Qed.

Lemma turn_returns connection queries opts st w t st' d :
  turn connection queries opts st w t = (Ret st', d) ->
  exists d' resp,
    d = d' ++ [IDLE] /\ w (t ++ d') IDLE = RIdle (result st') resp /\
    response st' = Untagged resp.
Proof.
  unfold turn. intros H.
  apply bind_Ret_inv in H as (st1 & d1 & d2 & _ & H & ->).
  apply bind_Ret_inv in H as ([typ resp] & d3 & d4 & Hi & H & ->).
  apply idle_returns in Hi as [-> Hi].
  cbn in H. injection H as <- <-.
  exists d1, resp. rewrite app_nil_r. auto.
Qed.

Lemma while_result_OK_returns fuel connection queries opts st w t d :
  while_result_OK fuel connection queries opts st w t = (Ret Returned, d) ->
  (result st <> "OK" /\ d = []) \/
  exists d' typ resp,
    d = d' ++ [IDLE] /\ w (t ++ d') IDLE = RIdle typ resp /\ typ <> "OK".
Proof.
  revert st t d. induction fuel as [|fuel IH]; intros st t d.
  - cbn. destruct (decide (result st = "OK")); [discriminate|].
    intros [= <-]. auto.
  - cbn [while_result_OK]. destruct (decide (result st = "OK")) as [Hok|Hne].
    + intros H. right.
      apply bind_Ret_inv in H as (st1 & d1 & d2 & Ht & H & ->).
      apply turn_returns in Ht as (d' & resp & -> & Hi & _).
      destruct (IH _ _ _ H) as [[Hr ->]|(d'' & typ & resp' & -> & Hi' & Hne)].
      * exists d', (result st1), resp. rewrite app_nil_r. auto.
      * exists ((d' ++ [IDLE]) ++ d''), typ, resp'.
        rewrite !app_assoc in *. auto.
    + intros [= <-]. auto.
Qed.

(** X10. [runQueries] comes to its end only through an IDLE that
    reports a status other than OK: when it returns, its last call is that
    IDLE.  No refused search and no failed handler step ever ends the
    session. *)
Theorem runQueries_returns_only_after_a_refused_idle
    (fuel : nat) (connection : Connection) (queries : list query_def)
    (runtime_options : Options) (w : World) (t d : list Op) :
  runQueries fuel connection queries runtime_options w t = (Ret Returned, d) ->
  exists d' typ resp,
    d = d' ++ [IDLE] /\ w (t ++ d') IDLE = RIdle typ resp /\ typ <> "OK".
Proof.
  intros H. apply while_result_OK_returns in H as [[Hr _]|H]; [|exact H].
  destruct Hr. reflexivity.
Qed.

Lemma runQueries_returns_only_after_a_refused_idle_witness :
  exists d' typ resp,
    [uid_SEARCH (QueryDSL.field_match QueryDSL.FROM "boss@workplace.edu"); IDLE]
    = d' ++ [IDLE] /\
    SampleWorlds.idle_refused ([] ++ d') IDLE = RIdle typ resp /\ typ <> "OK".
Proof.
  apply (runQueries_returns_only_after_a_refused_idle 3 Sample.server
           Sample.work_rule Sample.options SampleWorlds.idle_refused []).
  reflexivity.
Defined.

(** ** The window over three wake-ups *)

Lemma for_items_one (body : Item -> seen_set -> M seen_set) ret rest s w t s' d :
  dedup_body body ->
  Forall (fun r => mail_of r = None) rest ->
  body ret s w t = (Ret s', d) -> for_items body (ret :: rest) s w t = (Ret s', d).
Proof.
  intros Hb Hrest H. cbn [for_items]. rewrite (bind_Ret _ _ _ _ _ _ H).
  rewrite for_items_all_seen; [cbn; rewrite app_nil_r; reflexivity | exact Hb |].
  eapply Forall_impl; [exact Hrest|]. cbn. intros r -> ? [=].
Qed.

Lemma WorkEmail_single_unseen config server listofuids options seen_ids w t typ meta
    themail rest reply_en note_en :
  w t (uid_FETCH (join "," listofuids)) = RImap typ (ItemTuple meta [themail] :: rest) ->
  Forall (fun r => mail_of r = None) rest ->
  not_message themail = false ->
  getitem themail "Message-ID" ∉ seen_ids ->
  dict_get (work_reply config) "en" = Some reply_en ->
  dict_get (work_forward_note config) "en" = Some note_en ->
  delivery_contract w ->
  let lang := detect_language themail (keys (work_reply config)) "en" in
  WorkEmail config server listofuids options seen_ids w t =
  (Ret (typ, ItemTuple meta [themail] :: rest,
        seen_ids ∪ {[getitem themail "Message-ID"]}),
   [uid_FETCH (join "," listofuids);
    send_fn options (work_forward_by config) (Some (work_forward_to config))
      (work_forward_msg config themail
         (default note_en (dict_get (work_forward_note config) lang)));
    send_fn options (work_reply_from config) (reply_sender themail)
      (work_reply_msg config themail
         (default reply_en (dict_get (work_reply config) lang)))]).
Proof.
  intros E Hrest Hm Hnew Hr Hn Hw lang. unfold WorkEmail.
  destruct (imap_cases (uid_FETCH (join "," listofuids)) w t)
    as [(typ' & data' & E' & H)|(N & _)]; [|destruct (N _ _ E)].
  rewrite E in E'. injection E' as <- <-.
  rewrite (bind_Ret _ _ _ _ _ _ H). cbn beta iota.
  assert (Hmail : mail_of (ItemTuple meta [themail]) = Some themail)
    by (cbn; rewrite Hm; reflexivity).
  rewrite (bind_Ret _ _ _ _ _ _
             (for_items_one _ _ rest _ _ _ _ _ (dedup_body_WorkEmail config options)
                Hrest
                (WorkEmail_item_unseen config options _ themail seen_ids w _
                   reply_en note_en Hmail Hnew Hr Hn Hw))).
  reflexivity.
Qed.

Lemma WorkEmail_single_seen config server listofuids options seen_ids w t typ meta
    themail rest :
  w t (uid_FETCH (join "," listofuids)) = RImap typ (ItemTuple meta [themail] :: rest) ->
  Forall (fun r => mail_of r = None) rest ->
  not_message themail = false ->
  getitem themail "Message-ID" ∈ seen_ids ->
  WorkEmail config server listofuids options seen_ids w t =
  (Ret (typ, ItemTuple meta [themail] :: rest, seen_ids),
   [uid_FETCH (join "," listofuids)]).
Proof.
  intros E Hrest Hm Hin. unfold WorkEmail.
  destruct (imap_cases (uid_FETCH (join "," listofuids)) w t)
    as [(typ' & data' & E' & H)|(N & _)]; [|destruct (N _ _ E)].
  rewrite E in E'. injection E' as <- <-.
  rewrite (bind_Ret _ _ _ _ _ _ H). cbn beta iota.
  assert (Hmail : mail_of (ItemTuple meta [themail]) = Some themail)
    by (cbn; rewrite Hm; reflexivity).
  rewrite (bind_Ret _ _ _ _ _ _
             (for_items_one _ _ rest _ _ _ _ _ (dedup_body_WorkEmail config options)
                Hrest
                (WorkEmail_item_seen config options _ themail seen_ids w _
                   Hmail Hin))).
  reflexivity.
Qed.

Lemma for_handlers_one (h : handler) conn uids opts data s w t r data' s' d :
  h conn uids opts s w t = (Ret (r, data', s'), d) ->
  for_handlers [h] conn uids opts "OK" data s w t = (Ret (r, data', s'), d).
Proof.
  intros H. cbn [for_handlers].
  destruct (decide ("OK" = "OK")) as [_|]; [|contradiction].
  rewrite (bind_Ret _ _ _ _ _ _ H). cbn. rewrite app_nil_r. reflexivity.
Qed.

Lemma pass_one_rule conn qd opts st w t r p d :
  query_body conn opts (processed_message_ids st) qd ∅ w t = (Ret (r, p), d) ->
  pass conn [qd] opts st w t
  = (Ret {| result := r; response := response st; processed_message_ids := p;
            previous_message_ids := processed_message_ids st |}, d).
Proof.
  intros H. unfold pass.
  assert (Hf : for_queries conn opts (processed_message_ids st) [qd] (result st) ∅ w t
               = (Ret (r, p), d)).
  { cbn [for_queries]. rewrite (bind_Ret _ _ _ _ _ _ H). cbn.
    rewrite app_nil_r. reflexivity. }
  rewrite (bind_Ret _ _ _ _ _ _ Hf). cbn. rewrite app_nil_r. reflexivity.
Qed.

Lemma idle_OK connection w t typ resp :
  "IDLE" ∈ capabilities connection ->
  w t IDLE = RIdle typ resp ->
  idle connection w t = (Ret (typ, resp), [IDLE]).
Proof.
  intros Hc E. unfold idle. destruct (decide _); [|contradiction].
  unfold mbind, M_bind, bind, perform. rewrite E. reflexivity.
Qed.

Section StayingMail.

Variables (config : Config) (connection : Connection) (options : Options).
Variables (query b meta : string) (themail : Message) (rest : list Item) (w : World).
Variables (reply_en note_en : string).

Hypothesis Hcap : "IDLE" ∈ capabilities connection.
Hypothesis Hstay : mail_stays w query b meta themail rest.
Hypothesis Hmail : not_message themail = false.
Hypothesis Hw : delivery_contract w.
Hypothesis Hr : dict_get (work_reply config) "en" = Some reply_en.
Hypothesis Hn : dict_get (work_forward_note config) "en" = Some note_en.

Let queries : list query_def := [(query, [WorkEmail config])].
Let mid := getitem themail "Message-ID".
Let lang := detect_language themail (keys (work_reply config)) "en".
Let search := uid_SEARCH query.
Let fetch := uid_FETCH (join "," (String.words b)).
Let forward :=
  send_fn options (work_forward_by config) (Some (work_forward_to config))
    (work_forward_msg config themail
       (default note_en (dict_get (work_forward_note config) lang))).
Let reply :=
  send_fn options (work_reply_from config) (reply_sender themail)
    (work_reply_msg config themail
       (default reply_en (dict_get (work_reply config) lang))).

(** A wake-up that finds the mail outside the window answers it and takes
    its identifier into the current set. *)
Lemma turn_answers st t :
  response_true (response st) = true ->
  mid ∉ processed_message_ids st ->
  exists st',
    turn connection queries options st w t
    = (Ret st', [search; fetch; forward; reply; IDLE]) /\
    result st' = "OK" /\ response_true (response st') = true /\
    mid ∈ processed_message_ids st'.
Proof.
  intros Hresp Hout. destruct Hstay as (Hne & Hrest & Hs & Hf & Hi).
  assert (Hh : WorkEmail config connection (String.words b) options
                 (∅ ∪ processed_message_ids st) w (t ++ [search])
               = (Ret ("OK", ItemTuple meta [themail] :: rest,
                       ∅ ∪ processed_message_ids st ∪ {[mid]}),
                  [fetch; forward; reply])).
  { apply WorkEmail_single_unseen; auto.
    rewrite union_empty_l_L. exact Hout. }
  assert (Hq : query_body connection options (processed_message_ids st)
                 (query, [WorkEmail config]) ∅ w t
               = (Ret ("OK", (∅ ∪ processed_message_ids st ∪ {[mid]})
                             ∖ processed_message_ids st),
                  [search; fetch; forward; reply])).
  { rewrite (query_body_found _ _ _ _ _ _ _ _ b [] (Hs t) Hne).
    fold search. rewrite (for_handlers_one _ _ _ _ _ _ _ _ _ _ _ _ Hh).
    reflexivity. }
  unfold turn. rewrite Hresp.
  rewrite (bind_Ret _ _ _ _ _ _ (pass_one_rule _ _ _ _ _ _ _ _ _ Hq)).
  cbn beta iota.
  destruct (Hi (t ++ [search; fetch; forward; reply])) as (r & rs & Ei).
  rewrite (bind_Ret _ _ _ _ _ _ (idle_OK _ _ _ _ _ Hcap Ei)).
  eexists. split; [reflexivity|]. cbn. repeat split.
  apply elem_of_difference. split; [|exact Hout].
  apply elem_of_union_r, elem_of_singleton. reflexivity.
Qed.

(** A wake-up that finds the mail in the window fetches it, sends nothing,
    and lets its identifier fall out of the current set. *)
Lemma turn_passes_over st t :
  response_true (response st) = true ->
  mid ∈ processed_message_ids st ->
  exists st',
    turn connection queries options st w t = (Ret st', [search; fetch; IDLE]) /\
    result st' = "OK" /\ response_true (response st') = true /\
    mid ∉ processed_message_ids st'.
Proof.
  intros Hresp Hin. destruct Hstay as (Hne & Hrest & Hs & Hf & Hi).
  assert (Hh : WorkEmail config connection (String.words b) options
                 (∅ ∪ processed_message_ids st) w (t ++ [search])
               = (Ret ("OK", ItemTuple meta [themail] :: rest,
                       ∅ ∪ processed_message_ids st),
                  [fetch])).
  { apply WorkEmail_single_seen; auto.
    rewrite union_empty_l_L. exact Hin. }
  assert (Hq : query_body connection options (processed_message_ids st)
                 (query, [WorkEmail config]) ∅ w t
               = (Ret ("OK", (∅ ∪ processed_message_ids st)
                             ∖ processed_message_ids st),
                  [search; fetch])).
  { rewrite (query_body_found _ _ _ _ _ _ _ _ b [] (Hs t) Hne).
    fold search. rewrite (for_handlers_one _ _ _ _ _ _ _ _ _ _ _ _ Hh).
    reflexivity. }
  unfold turn. rewrite Hresp.
  rewrite (bind_Ret _ _ _ _ _ _ (pass_one_rule _ _ _ _ _ _ _ _ _ Hq)).
  cbn beta iota.
  destruct (Hi (t ++ [search; fetch])) as (r & rs & Ei).
  rewrite (bind_Ret _ _ _ _ _ _ (idle_OK _ _ _ _ _ Hcap Ei)).
  eexists. split; [reflexivity|]. cbn. repeat split.
  intros [_ H]%elem_of_difference. apply H. exact Hin.
Qed.

Lemma three_wake_ups t :
  snd (runQueries 3 connection queries options w t)
  = [search; fetch; forward; reply; IDLE;
     search; fetch; IDLE;
     search; fetch; forward; reply; IDLE].
Proof.
  unfold runQueries.
  destruct (turn_answers initial_state t eq_refl (not_elem_of_empty mid))
    as (st1 & H1 & Hr1 & Hp1 & Hin1).
  destruct (turn_passes_over st1 (t ++ [search; fetch; forward; reply; IDLE]) Hp1 Hin1)
    as (st2 & H2 & Hr2 & Hp2 & Hout2).
  destruct (turn_answers st2
              ((t ++ [search; fetch; forward; reply; IDLE]) ++ [search; fetch; IDLE])
              Hp2 Hout2)
    as (st3 & H3 & Hr3 & Hp3 & Hin3).
  cbn [while_result_OK].
  destruct (decide (result initial_state = "OK")) as [_|N]; [|destruct N; reflexivity].
  rewrite (bind_Ret _ _ _ _ _ _ H1). cbn beta iota.
  destruct (decide (result st1 = "OK")) as [_|N]; [|contradiction].
  rewrite (bind_Ret _ _ _ _ _ _ H2). cbn beta iota.
  destruct (decide (result st2 = "OK")) as [_|N]; [|contradiction].
  rewrite (bind_Ret _ _ _ _ _ _ H3). cbn beta iota.
  destruct (decide (result st3 = "OK")) as [_|N]; [|contradiction].
  reflexivity.
Qed.

End StayingMail.


Lemma one_work_mail_stays :
  mail_stays Sample.one_work_mail
    (QueryDSL.field_match QueryDSL.FROM "boss@workplace.edu") "1" "1 (RFC822"
    Sample.work_mail [ItemBytes ")"].
Proof.
  split; [discriminate|]. split; [repeat constructor|].
  split; [reflexivity|]. split; [reflexivity|].
  intros h. exists "EXISTS", []. reflexivity.
Qed.

Lemma one_work_mail_delivery : delivery_contract Sample.one_work_mail.
Proof. intros h o f t m e H. discriminate H. Qed.


(** ** Filter algebra: when it compiles, and how it nests *)

Section QueryLaws.
Import QueryDSL QueryFold.

Lemma call_or_combine i0 rest :
  call (or_combine (i0 :: rest)) =
  match call i0 with
  | None => None
  | Some r0 => reduce or_wrap rest r0
  end.
Proof.
  cbn. destruct (call i0) as [r0|]; [|reflexivity].
  revert r0. induction rest as [|item rest IH]; intros r0; [reflexivity|].
  cbn. destruct (call item) as [s|]; [apply IH | reflexivity].
Qed.

Lemma call_and_combine i0 rest :
  call (and_combine (i0 :: rest)) =
  match call i0 with
  | None => None
  | Some r0 => reduce and_wrap rest r0
  end.
Proof.
  cbn. destruct (call i0) as [r0|]; [|reflexivity].
  revert r0. induction rest as [|item rest IH]; intros r0; [reflexivity|].
  cbn. destruct (call item) as [s|]; [apply IH | reflexivity].
Qed.

Lemma reduce_snoc wrap l x r :
  reduce wrap (l ++ [x]) r =
  match reduce wrap l r with
  | None => None
  | Some r' =>
      match call x with
      | None => None
      | Some s => Some (wrap r' s)
      end
  end.
Proof.
  revert r. induction l as [|item l IH]; intros r; cbn.
  - destruct (call x); reflexivity.
  - destruct (call item); [apply IH | reflexivity].
Qed.

Lemma reduce_Some wrap l r s :
  reduce wrap l r = Some s -> Forall (fun t => is_Some (call t)) l.
Proof.
  revert r. induction l as [|item l IH]; intros r; cbn; [constructor|].
  destruct (call item) as [si|] eqn:E; [|discriminate].
  intros H. constructor; [eauto | eapply IH; eauto].
Qed.

Lemma call_nonempty (t : thunk) : is_Some (call t) -> nonempty t = true.
Proof.
  induction t as [f v|items IH|items IH|items IH] using thunk_induction.
  - reflexivity.
  - destruct items as [|i0 rest]; [intros [s H]; discriminate H|].
    rewrite call_or_combine. intros [s H].
    destruct (call i0) as [r0|] eqn:E0; [|discriminate].
    apply reduce_Some in H.
    change (forallb nonempty (i0 :: rest) = true).
    apply forallb_forall. intros x Hx.
    rewrite List.Forall_forall in IH. apply IH; [exact Hx|].
    destruct Hx as [<-|Hx]; [rewrite E0; eauto|].
    rewrite List.Forall_forall in H. apply H, Hx.
  - destruct items as [|i0 rest]; [intros [s H]; discriminate H|].
    rewrite call_and_combine. intros [s H].
    destruct (call i0) as [r0|] eqn:E0; [|discriminate].
    apply reduce_Some in H.
    change (forallb nonempty (i0 :: rest) = true).
    apply forallb_forall. intros x Hx.
    rewrite List.Forall_forall in IH. apply IH; [exact Hx|].
    destruct Hx as [<-|Hx]; [rewrite E0; eauto|].
    rewrite List.Forall_forall in H. apply H, Hx.
  - cbn.
    match goal with
    | |- is_Some (match ?c items with _ => _ end) -> _ => set (calls := c) in *
    end.
    intros [s H]. destruct (calls items) as [ss|] eqn:E; [|discriminate]. clear H s.
    revert ss E. induction items as [|x items IHitems]; intros ss E; [reflexivity|].
    inversion IH as [|? ? IHx IHi]; subst.
    cbn in E. destruct (call x) as [sx|] eqn:Ex; [|discriminate].
    destruct (calls items) as [ss'|] eqn:E'; [|discriminate].
    cbn. rewrite IHx by eauto. cbn. eapply IHitems; eauto.
Qed.

End QueryLaws.

(** X12. A filter expression compiles exactly when no Or and no And in it
    stands over an empty list of items; otherwise calling it fails with the
    [IndexError] of [items[0]]. *)
Theorem a_query_compiles_iff_no_combinator_is_empty (t : QueryDSL.thunk) :
  is_Some (QueryDSL.call t) <-> QueryDSL.nonempty t = true.
Proof. split; [apply call_nonempty | apply call_total]. Qed.

(** X13. [Match] over a bare list of matchers is [Match] over their
    [AnyOf]: a list of several matchers is an OR of them, a list of one is
    that matcher, and the empty list fails in both forms. *)
Theorem match_of_a_list_is_match_of_anyof (expr : list QueryDSL.thunk) :
  QueryDSL.Match expr = QueryDSL.Match (QueryDSL.AnyOf [expr]).
Proof.
  unfold QueryDSL.Match, QueryDSL.AnyOf, QueryDSL.parseQuery.
  cbn [List.concat]. rewrite app_nil_r.
  destruct expr as [|t [|t' rest]]; [reflexivity| |reflexivity].
  rewrite call_or_combine. cbn. destruct (QueryDSL.call t); reflexivity.
Qed.

(** X14. Or and And nest to the left: one more item at the end wraps the
    string of the items before it, [(OR <before> <item>)] for Or and
    [(<before> <item>)] for And, and fails when either part fails. *)
Theorem or_and_nest_to_the_left (items : list QueryDSL.thunk) (x : QueryDSL.thunk) :
  items <> [] ->
  QueryDSL.call (QueryDSL.or_combine (items ++ [x])) =
  (match QueryDSL.call (QueryDSL.or_combine items) with
   | None => None
   | Some before =>
       match QueryDSL.call x with
       | None => None
       | Some s => Some ("(OR " +:+ before +:+ " " +:+ s +:+ ")")
       end
   end) /\
  QueryDSL.call (QueryDSL.and_combine (items ++ [x])) =
  (match QueryDSL.call (QueryDSL.and_combine items) with
   | None => None
   | Some before =>
       match QueryDSL.call x with
       | None => None
       | Some s => Some ("(" +:+ before +:+ " " +:+ s +:+ ")")
       end
   end).
Proof.
  intros Hne. destruct items as [|i0 rest]; [contradiction|].
  change ((i0 :: rest) ++ [x]) with (i0 :: (rest ++ [x])).
  rewrite !call_or_combine, !call_and_combine.
  destruct (QueryDSL.call i0) as [r0|]; [|split; reflexivity].
  rewrite !reduce_snoc. split; reflexivity.
Qed.

Lemma or_and_nest_to_the_left_witness :
  QueryDSL.call
    (QueryDSL.or_combine (QueryDSL.From ["a@x"; "b@x"] ++ QueryDSL.To ["c@x"]))
  = Some ("(OR (OR " +:+ QueryDSL.field_match QueryDSL.FROM "a@x" +:+ " "
          +:+ QueryDSL.field_match QueryDSL.FROM "b@x" +:+ ") "
          +:+ QueryDSL.field_match QueryDSL.TO "c@x" +:+ ")").
Proof.
  destruct (or_and_nest_to_the_left (QueryDSL.From ["a@x"; "b@x"])
              (QueryDSL.field_thunk QueryDSL.TO "c@x")) as [H _].
  - discriminate.
  - exact H.
Defined.

(** ** The supervisor, in both modes *)

Lemma bind_fst_Raise {A B} (m : M A) (k : A -> M B) w t e :
  fst ((m ≫= k) w t) = Raise e ->
  fst (m w t) = Raise e \/
  exists a d, m w t = (Ret a, d) /\ fst (k a w (t ++ d)) = Raise e.
Proof.
  unfold mbind, M_bind, bind. destruct (m w t) as [[a|e0] d] eqn:E.
  - destruct (k a w (t ++ d)) as [o d2] eqn:Ek. cbn. intros ->.
    right. exists a, d. rewrite Ek. split; reflexivity.
  - cbn. intros [= ->]. left. reflexivity.
Qed.

Lemma run_loop_daemon_raise wk cfg qs pw init max opts w :
  (forall h d e', w h (sleep d) = RRaise e' -> is_Exception e' = false) ->
  forall fuel retry t e,
    fst (run_loop fuel wk cfg qs pw false init max opts retry w t) = Raise e ->
    is_Exception e = false.
Proof.
  intros Hsleep. induction fuel as [|fuel IH]; intros retry t e H.
  - discriminate H.
  - cbn [run_loop] in H. apply bind_fst_Raise in H as [H|(r & d & Ha & H)].
    + unfold attempt in H. destruct (session _ _ _ _ _ _ _) as [[c|e0] d0]; discriminate H.
    + assert (Hretry : forall delay,
                 fst ((perform (sleep retry) ≫= fun _ =>
                         run_loop fuel wk cfg qs pw false init max opts delay)
                        w (t ++ d)) = Raise e ->
                 is_Exception e = false).
      { intros delay Hd. apply bind_fst_Raise in Hd as [Hd|(r' & d' & _ & Hd)].
        - unfold perform in Hd.
          destruct (w (t ++ d) (sleep retry)) eqn:Ew; try discriminate Hd.
          cbn in Hd. injection Hd as <-. eapply Hsleep, Ew.
        - eapply IH, Hd. }
      destruct r as [e0|[|]].
      * destruct e0; cbn in H; try (eapply Hretry, H); try discriminate H.
        injection H as <-. reflexivity.
      * eapply IH, H.
      * discriminate H.
Qed.

(** X15. In single-pass mode [run] is one session: it connects once, never
    sleeps and never retries; what the session returns or raises is what
    [run] returns or raises, except a keyboard interrupt, after which [run]
    returns normally. *)
Theorem single_pass_run_is_one_session (fuel wakeups : nat) (config : Config)
    (queries : list query_def) (password : string) (initial_delay max_delay : Z)
    (w : World) (t : list Op) :
  run (S fuel) wakeups config queries password true initial_delay max_delay w t =
  (let s := session wakeups config queries password
              (runtime_options_of config password) w t in
   (match fst s with
    | Raise KeyboardInterrupt => Ret Returned
    | o => o
    end, snd s)).
Proof.
  unfold run, runtime_options_of. cbn [run_loop].
  unfold mbind, M_bind, bind, attempt.
  destruct (session _ _ _ _ _ _ _) as [[[|]|e] d]; cbn;
    try (rewrite app_nil_r; reflexivity).
  destruct e; cbn; rewrite app_nil_r; reflexivity.
Qed.

(** X16. In daemon mode [run] never fails with an error of class
    [Exception], whatever the sessions raise, as long as no sleep between two
    sessions does: only what is outside [Exception] ([SystemExit], or an
    interrupt of a sleep) escapes it. *)
Theorem daemon_run_survives_every_exception (fuel wakeups : nat) (config : Config)
    (queries : list query_def) (password : string) (initial_delay max_delay : Z)
    (w : World) (t : list Op) (e : exn) :
  (forall h d e', w h (sleep d) = RRaise e' -> is_Exception e' = false) ->
  fst (run fuel wakeups config queries password false initial_delay max_delay w t)
  = Raise e ->
  is_Exception e = false.
Proof.
  intros Hsleep H. unfold run in H. eapply run_loop_daemon_raise; eauto.
Qed.

Lemma daemon_run_survives_every_exception_witness :
  fst (run 1 1 Sample.config [] "secret" false 60 3600
         SampleWorlds.exit_requested []) = Raise SystemExit /\
  is_Exception SystemExit = false.
Proof.
  split; [reflexivity|].
  apply (daemon_run_survives_every_exception 1 1 Sample.config [] "secret" 60 3600
           SampleWorlds.exit_requested [] SystemExit).
  - intros h d e' H. discriminate H.
  - reflexivity.
Defined.

(** ** Strings, file names and content types *)

Section StrFacts.
Import Str.

Lemma append_cons c (a b : string) : String c a +:+ b = String c (a +:+ b).
Proof. reflexivity. Qed.

Lemma append_empty (b : string) : "" +:+ b = b.
Proof. reflexivity. Qed.

Lemma append_assoc (a b c : string) : (a +:+ b) +:+ c = a +:+ (b +:+ c).
Proof.
  induction a as [|x a IH]; [reflexivity|]. rewrite !append_cons, IH. reflexivity.
Qed.

Lemma prefix_chr c a s : String.prefix (chr c) (String a s) = Ascii.eqb a c.
Proof.
  cbn. destruct (ascii_dec c a) as [->|N].
  - rewrite Ascii.eqb_refl. destruct s; reflexivity.
  - symmetry. apply Ascii.eqb_neq. congruence.
Qed.

Lemma contains_chr c s : contains (chr c) s = occurs c s.
Proof.
  induction s as [|a s IH]; [reflexivity|].
  cbn [contains occurs]. rewrite prefix_chr, IH. reflexivity.
Qed.

Lemma occurs_app c a b : occurs c (a +:+ b) = occurs c a || occurs c b.
Proof.
  induction a as [|x a IH]; [reflexivity|].
  rewrite append_cons. cbn [occurs]. rewrite IH, orb_assoc. reflexivity.
Qed.

Lemma prefix_app a b : String.prefix a (a +:+ b) = true.
Proof.
  induction a as [|x a IH]; [rewrite append_empty; destruct b; reflexivity|].
  rewrite append_cons. cbn. destruct (ascii_dec x x); [exact IH | congruence].
Qed.

Lemma prefix_occurs c old s :
  String.prefix old s = true -> occurs c old = true -> occurs c s = true.
Proof.
  revert s. induction old as [|x old IH]; intros s Hp Ho; [discriminate Ho|].
  destruct s as [|a s]; [discriminate Hp|].
  cbn in Hp. destruct (ascii_dec x a) as [->|]; [|discriminate Hp].
  cbn in Ho |- *. destruct (Ascii.eqb a c); [reflexivity|]. cbn in Ho |- *. eauto.
Qed.

Lemma endswith_app s suffix : endswith (s +:+ suffix) suffix = true.
Proof.
  induction s as [|c s IH].
  - rewrite append_empty. destruct suffix; cbn [endswith]; rewrite String.eqb_refl;
      reflexivity.
  - rewrite append_cons. cbn [endswith]. rewrite IH. apply orb_true_r.
Qed.

(** *** [replace] *)

Lemma replace_from_keeps_absent c old new skip s :
  occurs c s = false -> occurs c new = false ->
  occurs c (replace_from old new skip s) = false.
Proof.
  intros Hs Hn. revert skip Hs. induction s as [|a s IH]; intros skip Hs; [reflexivity|].
  cbn in Hs. apply orb_false_iff in Hs as [Ha Hs].
  cbn [replace_from]. destruct skip as [|k]; [|apply IH, Hs].
  destruct (String.prefix old (String a s)).
  - rewrite occurs_app, Hn. apply IH, Hs.
  - cbn [occurs]. rewrite Ha. apply IH, Hs.
Qed.

Lemma interleave_keeps_absent c new s :
  occurs c s = false -> occurs c new = false -> occurs c (interleave new s) = false.
Proof.
  intros Hs Hn. induction s as [|a s IH]; [exact Hn|].
  cbn in Hs. apply orb_false_iff in Hs as [Ha Hs].
  cbn [interleave]. rewrite occurs_app, Hn. cbn [occurs]. rewrite Ha. apply IH, Hs.
Qed.

Lemma replace_keeps_absent c old new s :
  occurs c s = false -> occurs c new = false -> occurs c (replace old new s) = false.
Proof.
  intros Hs Hn. unfold replace. destruct old.
  - apply interleave_keeps_absent; assumption.
  - apply replace_from_keeps_absent; assumption.
Qed.

Lemma replace_char_gone c new s :
  occurs c new = false -> occurs c (replace (chr c) new s) = false.
Proof.
  intros Hn. unfold replace, chr.
  induction s as [|a s IH]; [reflexivity|].
  cbn [replace_from]. fold (chr c). rewrite prefix_chr.
  destruct (Ascii.eqb a c) eqn:E.
  - rewrite occurs_app, Hn. exact IH.
  - cbn [occurs]. rewrite E. exact IH.
Qed.

Lemma replace_absent c old new s :
  occurs c old = true -> occurs c s = false -> replace old new s = s.
Proof.
  intros Ho Hs. unfold replace. destruct old as [|x old]; [discriminate Ho|].
  induction s as [|a s IH]; [reflexivity|].
  cbn [replace_from].
  destruct (String.prefix (String x old) (String a s)) eqn:Ep.
  - rewrite (prefix_occurs c _ _ Ep Ho) in Hs. discriminate Hs.
  - cbn in Hs. apply orb_false_iff in Hs as [_ Hs]. rewrite (IH Hs). reflexivity.
Qed.

End StrFacts.

Lemma fix_plain filename :
  proxy_fix_filename_extension filename "plain" =
  if Str.endswith filename ".txt" then filename else filename +:+ ".txt".
Proof.
  unfold proxy_fix_filename_extension.
  destruct (Str.endswith filename ".txt"), (Str.endswith filename ".html"); reflexivity.
Qed.

Lemma fix_html filename :
  proxy_fix_filename_extension filename "html" =
  if Str.endswith filename ".html" then filename else filename +:+ ".html".
Proof.
  unfold proxy_fix_filename_extension.
  destruct (Str.endswith filename ".html"); reflexivity.
Qed.

Lemma fix_other filename subtype :
  String.eqb subtype "plain" = false -> String.eqb subtype "html" = false ->
  proxy_fix_filename_extension filename subtype = filename.
Proof. intros Hp Hh. unfold proxy_fix_filename_extension. rewrite Hp, Hh. reflexivity. Qed.

(** X17. [proxy_fix_filename_extension] is idempotent, and its result ends
    in [.txt] for the subtype [plain] and in [.html] for [html]. *)
Theorem fixed_filename_has_its_extension (filename subtype : string) :
  proxy_fix_filename_extension (proxy_fix_filename_extension filename subtype) subtype
  = proxy_fix_filename_extension filename subtype /\
  Str.endswith (proxy_fix_filename_extension filename "plain") ".txt" = true /\
  Str.endswith (proxy_fix_filename_extension filename "html") ".html" = true.
Proof.
  assert (Hplain :
    Str.endswith (proxy_fix_filename_extension filename "plain") ".txt" = true).
  { rewrite fix_plain. destruct (Str.endswith filename ".txt") eqn:Et;
      [exact Et | apply endswith_app]. }
  assert (Hhtml :
    Str.endswith (proxy_fix_filename_extension filename "html") ".html" = true).
  { rewrite fix_html. destruct (Str.endswith filename ".html") eqn:Et;
      [exact Et | apply endswith_app]. }
  split; [|split; assumption].
  destruct (String.eqb subtype "plain") eqn:Ep.
  - apply String.eqb_eq in Ep as ->.
    rewrite (fix_plain (proxy_fix_filename_extension _ _)), Hplain. reflexivity.
  - destruct (String.eqb subtype "html") eqn:Eh.
    + apply String.eqb_eq in Eh as ->.
      rewrite (fix_html (proxy_fix_filename_extension _ _)), Hhtml. reflexivity.
    + rewrite !fix_other by assumption. reflexivity.
Qed.

(** X18. The text [proxy_decode_text_content] returns holds no carriage
    return, whatever the bytes and whichever codec decoded them; and a text
    that the declared charset decodes without a carriage return is returned
    as decoded. *)
Theorem decoded_text_has_no_carriage_return
    (decode : list Byte.byte -> string -> option string)
    (decode_replace : list Byte.byte -> string)
    (content : list Byte.byte) (charset : string) :
  let text := proxy_decode_text_content decode decode_replace content charset in
  contains (chr Str.CR) text = false /\
  (forall decoded,
     decode content charset = Some decoded ->
     contains (chr Str.CR) decoded = false ->
     text = decoded).
Proof.
  cbn zeta. split.
  - rewrite contains_chr. unfold proxy_decode_text_content.
    apply replace_char_gone. reflexivity.
  - intros decoded Hd Hc. rewrite contains_chr in Hc.
    unfold proxy_decode_text_content. cbn [decode_first]. rewrite Hd.
    rewrite (replace_absent Str.CR Str.CRLF _ decoded eq_refl Hc).
    rewrite (replace_absent Str.CR Str.LFCR _ decoded eq_refl Hc).
    apply (replace_absent Str.CR (chr Str.CR) _ decoded eq_refl Hc).
Qed.

Lemma decoded_text_has_no_carriage_return_witness :
  let decode := fun (_ : list Byte.byte) (_ : string) => Some "plain text" in
  proxy_decode_text_content decode (fun _ => "") [] "utf-8" = "plain text".
Proof.
  intros decode.
  destruct (decoded_text_has_no_carriage_return decode (fun _ => "") [] "utf-8")
    as [_ H].
  apply H; reflexivity.
Defined.

(** *** [split] *)

Section SplitFacts.
Import Str.

Lemma split_not_nil sep s n : split sep s n <> [].
Proof.
  revert n. induction s as [|c s IH]; intros n; [discriminate|].
  cbn [split]. destruct n as [|n]; [discriminate|].
  destruct (Ascii.eqb c sep); [discriminate|].
  destruct (split sep s (S n)) eqn:E; discriminate.
Qed.

Lemma split_zero sep s : split sep s 0 = [s].
Proof. destruct s; reflexivity. Qed.

(** The pieces before the last possible one hold no separator. *)
Lemma split_piece_no_sep sep s n i :
  i < n -> occurs sep (item (split sep s n) i) = false.
Proof.
  unfold item. revert n i. induction s as [|c s IH]; intros n i Hi.
  - destruct i as [|[|i]]; reflexivity.
  - destruct n as [|n]; [lia|]. cbn [split].
    destruct (Ascii.eqb c sep) eqn:Ec.
    + destruct i as [|i]; [reflexivity|]. cbn [nth]. apply IH. lia.
    + pose proof (IH (S n)) as IHs.
      destruct (split sep s (S n)) as [|p ps] eqn:E;
        [destruct (split_not_nil _ _ _ E)|].
      destruct i as [|i].
      * cbn [nth occurs]. rewrite Ec. apply (IHs 0). lia.
      * cbn [nth]. apply (IHs (S i)). lia.
Qed.

(** No piece holds a character the string does not. *)
Lemma split_keeps_absent c sep s n i :
  occurs c s = false -> occurs c (item (split sep s n) i) = false.
Proof.
  unfold item. revert n i. induction s as [|a s IH]; intros n i Hs.
  - destruct i as [|[|i]]; reflexivity.
  - cbn in Hs. apply orb_false_iff in Hs as [Ha Hs]. cbn [split].
    destruct n as [|n].
    + destruct i as [|[|i]]; cbn [nth occurs]; [rewrite Ha; exact Hs| |]; reflexivity.
    + destruct (Ascii.eqb a sep).
      * destruct i as [|i]; [reflexivity|]. cbn [nth]. apply IH, Hs.
      * pose proof (IH (S n)) as IHs.
        destruct (split sep s (S n)) as [|p ps] eqn:E;
          [destruct (split_not_nil _ _ _ E)|].
        destruct i as [|i].
        -- cbn [nth occurs]. rewrite Ha. apply (IHs 0 Hs).
        -- cbn [nth]. apply (IHs (S i) Hs).
Qed.

(** A separator after a stretch without one ends the first piece. *)
Lemma split_app_sep sep a b n :
  occurs sep a = false ->
  split sep (a +:+ String sep b) (S n) = a :: split sep b n.
Proof.
  intros Ha. induction a as [|c a IH].
  - rewrite append_empty. cbn [split]. rewrite Ascii.eqb_refl. reflexivity.
  - cbn in Ha. apply orb_false_iff in Ha as [Hc Ha].
    rewrite append_cons. cbn [split]. rewrite Hc, (IH Ha). reflexivity.
Qed.

Lemma split_no_sep sep a n : occurs sep a = false -> split sep a n = [a].
Proof.
  revert n. induction a as [|c a IH]; intros n Ha; [reflexivity|].
  cbn in Ha. apply orb_false_iff in Ha as [Hc Ha].
  cbn [split]. destruct n as [|n]; [reflexivity|].
  rewrite Hc, (IH _ Ha). reflexivity.
Qed.

Lemma split_first_app sep a b n :
  occurs sep a = false ->
  item (split sep (a +:+ b) (S n)) 0 = a +:+ item (split sep b (S n)) 0.
Proof.
  intros Ha. unfold item. induction a as [|c a IH]; [reflexivity|].
  cbn in Ha. apply orb_false_iff in Ha as [Hc Ha].
  rewrite !append_cons. cbn [split]. rewrite Hc.
  specialize (IH Ha).
  destruct (split sep (a +:+ b) (S n)) as [|p ps] eqn:E;
    [destruct (split_not_nil _ _ _ E)|].
  cbn [nth] in IH |- *. rewrite IH. reflexivity.
Qed.

End SplitFacts.

(** X19. Whatever the network returns, the subtype that
    [fetch_and_decode_url] reports holds neither a slash nor a semicolon; and
    for a content type of the form [main/sub], alone or followed by
    [;parameters], it is [sub]. *)
Theorem reported_subtype_is_the_bare_subtype
    (Info : Type)
    (fetch_url :
       string -> Z -> Z -> exn + (option (list Byte.byte) * string * dict * Info))
    (url : string) (timeout max_size : Z)
    content base_href headers info mimetype subtype :
  fetch_and_decode_url Info fetch_url url timeout max_size
  = inr (content, base_href, headers, info, mimetype, subtype) ->
  contains "/" subtype = false /\ contains ";" subtype = false /\
  (forall main sub parameters,
     mimetype = main +:+ "/" +:+ sub +:+ parameters ->
     contains "/" main = false ->
     contains "/" sub = false -> contains ";" sub = false ->
     parameters = "" \/ (exists p, parameters = ";" +:+ p) ->
     subtype = sub).
Proof.
  unfold fetch_and_decode_url.
  destruct (fetch_url url timeout max_size) as [e|[[[c b] h] i]]; [discriminate|].
  intros [= -> -> -> -> <- <-].
  set (mimetype := match dict_get headers "content-type" with
                   | Some v => v
                   | None => "application/octet-stream"
                   end).
  change "/" with (chr "/"). change ";" with (chr ";").
  rewrite !contains_chr.
  split; [|split].
  - apply split_keeps_absent.
    destruct (Str.occurs "/" mimetype); [|reflexivity].
    apply split_piece_no_sep. lia.
  - apply split_piece_no_sep. lia.
  - intros main sub parameters Hm Hmain Hsub1 Hsub2 Hp.
    rewrite !contains_chr in *.
    assert (Hs : Str.occurs "/" mimetype = true).
    { rewrite Hm, !occurs_app. cbn. apply orb_true_r. }
    rewrite Hs, Hm.
    change (main +:+ chr "/" +:+ sub +:+ parameters)
      with (main +:+ String "/" (sub +:+ parameters)).
    rewrite (split_app_sep _ _ _ _ Hmain).
    change (Str.item (main :: Str.split "/" (sub +:+ parameters) 1) 1)
      with (Str.item (Str.split "/" (sub +:+ parameters) 1) 0).
    rewrite (split_first_app _ _ _ _ Hsub1).
    destruct Hp as [->|Hp].
    + rewrite (split_first_app _ _ _ _ Hsub2). cbn.
      destruct sub; [reflexivity|]. rewrite append_cons. f_equal.
      clear. induction sub as [|c sub IH]; [reflexivity|].
      rewrite append_cons, IH. reflexivity.
    + destruct Hp as [p ->]. change (chr ";" +:+ p) with (String ";" p).
      assert (Hq : exists q, Str.item (Str.split "/" (String ";" p) 1) 0 = String ";" q).
      { cbn [Str.split]. change (Ascii.eqb ";" "/") with false. cbn iota.
        destruct (Str.split "/" p 1) as [|q qs]; eexists; reflexivity. }
      destruct Hq as [q ->].
      rewrite (split_app_sep _ _ _ _ Hsub2). reflexivity.
Qed.

Lemma reported_subtype_is_the_bare_subtype_witness :
  let headers := [("content-type", "text/html; charset=utf-8")] in
  let fetch_url := fun (_ : string) (_ _ : Z) =>
    @inr exn _ (Some ([] : list Byte.byte), "http://example.com/", headers, tt) in
  fetch_and_decode_url unit fetch_url "http://example.com" 30 1000
  = inr (Some [], "http://example.com/", headers, tt,
         "text/html; charset=utf-8", "html") /\
  contains "/" "html" = false /\ contains ";" "html" = false.
Proof.
  intros headers fetch_url. split; [reflexivity|].
  destruct (reported_subtype_is_the_bare_subtype unit fetch_url
              "http://example.com" 30 1000 (Some []) "http://example.com/"
              headers tt "text/html; charset=utf-8" "html" eq_refl)
    as (H1 & H2 & _).
  split; assumption.
Defined.

Lemma basename_no_slash p : Str.occurs "/" p = false -> Str.basename p = p.
Proof.
  destruct p as [|c p]; [reflexivity|]. cbn [Str.occurs Str.basename].
  intros H. apply orb_false_iff in H as [Hc Hp]. rewrite Hp, Hc. reflexivity.
Qed.

(** X20. Without a [filename=] in a Content-Disposition header, the name
    [get_filename_from_headers_or_url] makes of the URL is not empty and
    holds neither a slash nor a dot: every slash and dot of the URL has become
    a space, so the name carries no directory and no extension. *)
Theorem filename_from_url_has_no_slash_and_no_dot (headers : dict) (url : string) :
  (forall cd, dict_get headers "content-disposition" = Some cd ->
              contains "filename=" cd = false) ->
  let filename := get_filename_from_headers_or_url headers url in
  filename <> "" /\ contains "/" filename = false /\ contains "." filename = false.
Proof.
  intros Hcd filename.
  set (name := Str.replace "." " "
                 (Str.replace "/" " "
                    (Str.replace "https://" "" (Str.replace "http://" "" url)))).
  assert (Hslash : Str.occurs "/" name = false).
  { apply replace_keeps_absent; [|reflexivity].
    apply (replace_char_gone "/" " "). reflexivity. }
  assert (Hdot : Str.occurs "." name = false).
  { apply (replace_char_gone "." " "). reflexivity. }
  assert (Hf : filename = if negb (String.eqb name "") then Str.basename name
                          else "download").
  { unfold filename, get_filename_from_headers_or_url. fold name.
    destruct (dict_get headers "content-disposition") as [cd|] eqn:E; [|reflexivity].
    rewrite (Hcd cd eq_refl). reflexivity. }
  rewrite Hf. change "/" with (chr "/"). change "." with (chr ".").
  rewrite !contains_chr.
  destruct (String.eqb name "") eqn:En; cbn [negb].
  - split; [discriminate|]. split; reflexivity.
  - rewrite (basename_no_slash _ Hslash).
    split; [apply String.eqb_neq, En|]. split; assumption.
Qed.

Lemma filename_from_url_has_no_slash_and_no_dot_witness :
  let filename :=
    get_filename_from_headers_or_url [("content-type", "application/pdf")]
      "https://example.com/papers/a.pdf" in
  filename <> "" /\ contains "/" filename = false /\ contains "." filename = false.
Proof.
  apply (filename_from_url_has_no_slash_and_no_dot
           [("content-type", "application/pdf")] "https://example.com/papers/a.pdf").
  intros cd H. discriminate H.
Defined.

(** *** The credential *)

Lemma get_credential_argv_skips arg_name pre rest :
  rest <> [] ->
  Forall (fun a => String.prefix ("--" +:+ arg_name +:+ "=") a = false /\
                   a <> "--" +:+ arg_name) pre ->
  get_credential_argv arg_name (pre ++ rest) = get_credential_argv arg_name rest.
Proof.
  intros Hne Hpre. induction Hpre as [|a pre [Hp He] _ IH]; [reflexivity|].
  cbn [app get_credential_argv]. rewrite Hp.
  destruct (pre ++ rest) as [|next l] eqn:E.
  - destruct pre; [contradiction | discriminate E].
  - apply String.eqb_neq in He. rewrite He. exact IH.
Qed.

(** X21. With the environment variable unset or empty, the first
    command-line argument of the form [--name=value] gives [value] whole,
    equals signs included, and the first of the form [--name value] gives the
    argument after it; nothing is asked at the terminal. *)
Theorem credential_from_the_command_line (environ : dict) (pre post : list string)
    (getpass : string -> string) (env_var arg_name prompt value : string) :
  truthy (dict_get environ env_var) = false ->
  contains "=" arg_name = false ->
  Forall (fun a => String.prefix ("--" +:+ arg_name +:+ "=") a = false /\
                   a <> "--" +:+ arg_name) pre ->
  get_credential environ (pre ++ ("--" +:+ arg_name +:+ "=" +:+ value) :: post)
    getpass env_var arg_name prompt = value /\
  get_credential environ (pre ++ ("--" +:+ arg_name) :: value :: post)
    getpass env_var arg_name prompt = value.
Proof.
  intros Henv Hname Hpre. unfold get_credential. rewrite Henv.
  rewrite !get_credential_argv_skips by (assumption || discriminate).
  change "=" with (chr "=") in *. rewrite contains_chr in Hname.
  split.
  - cbn [get_credential_argv].
    assert (Happ : "--" +:+ arg_name +:+ chr "=" +:+ value
                   = ("--" +:+ arg_name +:+ chr "=") +:+ value)
      by (rewrite !append_assoc; reflexivity).
    assert (Happ' : ("--" +:+ arg_name +:+ chr "=") +:+ value
                    = ("--" +:+ arg_name) +:+ String "=" value)
      by (rewrite !append_assoc; reflexivity).
    rewrite Happ, prefix_app, Happ'.
    rewrite split_app_sep by (rewrite occurs_app; rewrite Hname; reflexivity).
    rewrite split_zero. reflexivity.
  - cbn [get_credential_argv].
    destruct (String.prefix _ _) eqn:Ep.
    + exfalso.
      assert (Ho : Str.occurs "=" ("--" +:+ arg_name) = true).
      { eapply prefix_occurs; [exact Ep|]. rewrite !occurs_app. cbn.
        apply orb_true_r. }
      rewrite occurs_app, Hname in Ho. discriminate Ho.
    + rewrite String.eqb_refl. reflexivity.
Qed.

Lemma credential_from_the_command_line_witness :
  get_credential [("HOME", "/root")] ["runonce.py"; "-v"; "--password=a=b"]
    (fun _ => "typed at the prompt") "EMAIL_PASSWORD" "password" "Password: "
  = "a=b".
Proof.
  destruct (credential_from_the_command_line [("HOME", "/root")]
              ["runonce.py"; "-v"] [] (fun _ => "typed at the prompt")
              "EMAIL_PASSWORD" "password" "Password: " "a=b") as [H _].
  - reflexivity.
  - reflexivity.
  - repeat constructor; discriminate.
  - exact H.
Defined.


(** *** URLs *)

Section UrlFacts.
Import Str.

Lemma all_app p a b : all p (a +:+ b) = all p a && all p b.
Proof.
  induction a as [|c a IH]; [reflexivity|].
  rewrite append_cons. cbn [all]. rewrite IH, andb_assoc. reflexivity.
Qed.

Lemma take_while_all p s : all p (take_while p s) = true.
Proof.
  induction s as [|c s IH]; [reflexivity|]. cbn [take_while].
  destruct (p c) eqn:E; [|reflexivity]. cbn [all]. rewrite E. exact IH.
Qed.

Lemma rstrip_app chars a b :
  rstrip chars (a +:+ b) =
  match rstrip chars b with
  | EmptyString => rstrip chars a
  | r => a +:+ r
  end.
Proof.
  induction a as [|c a IH].
  - rewrite append_empty. destruct (rstrip chars b); reflexivity.
  - rewrite append_cons. cbn [rstrip]. rewrite IH.
    destruct (rstrip chars b) as [|x r]; [reflexivity|].
    destruct a; reflexivity.
Qed.

Lemma rstrip_all p chars s : all p s = true -> all p (rstrip chars s) = true.
Proof.
  induction s as [|c s IH]; [reflexivity|]. cbn [all rstrip].
  intros H. apply andb_prop in H as [Hc Hs]. specialize (IH Hs).
  destruct (rstrip chars s) as [|x r].
  - destruct (occurs c chars); [reflexivity|]. cbn. rewrite Hc. reflexivity.
  - cbn [all] in IH |- *. rewrite Hc. exact IH.
Qed.

Lemma rstrip_last chars s c :
  occurs c chars = true -> endswith (rstrip chars s) (chr c) = false.
Proof.
  intros Hc. induction s as [|a s IH]; [reflexivity|]. cbn [rstrip].
  destruct (rstrip chars s) as [|x r].
  - destruct (occurs a chars) eqn:Ea; [reflexivity|].
    cbn. destruct (Ascii.eqb a c) eqn:E; [|reflexivity].
    apply Ascii.eqb_eq in E as ->. congruence.
  - change (endswith (String a (String x r)) (chr c))
      with (String.eqb (String a (String x r)) (chr c)
            || endswith (String x r) (chr c)).
    rewrite IH, orb_false_r.
    cbn. destruct (Ascii.eqb a c); reflexivity.
Qed.

Lemma url_at_shape s url : url_at s = Some url -> url_shape url.
Proof.
  unfold url_at.
  destruct (String.prefix "https://" s).
  - destruct (take_while url_char (drop (String.length "https://") s)) as [|c r] eqn:E.
    + destruct (String.prefix "http://" s); [|discriminate].
      destruct (take_while url_char (drop (String.length "http://") s)) as [|c r] eqn:E';
        [discriminate|].
      intros [= <-]. exists "http://", (String c r). rewrite <- E'.
      split; [reflexivity|]. split; [auto | apply take_while_all].
    + intros [= <-]. exists "https://", (String c r). rewrite <- E.
      split; [reflexivity|]. split; [auto | apply take_while_all].
  - destruct (String.prefix "http://" s); [|discriminate].
    destruct (take_while url_char (drop (String.length "http://") s)) as [|c r] eqn:E';
      [discriminate|].
    intros [= <-]. exists "http://", (String c r). rewrite <- E'.
    split; [reflexivity|]. split; [auto | apply take_while_all].
Qed.

Lemma findall_from_shape text : forall skip, Forall url_shape (findall_from skip text).
Proof.
  induction text as [|c text IH]; intros skip; [constructor|].
  cbn [findall_from]. destruct skip as [|k]; [|apply IH].
  destruct (url_at (String c text)) as [url|] eqn:E; [|apply IH].
  constructor; [eapply url_at_shape, E | apply IH].
Qed.

End UrlFacts.

(** X22. Every URL that [_proxy_extract_urls_from_text] takes from a text
    begins with [http://] or [https://], holds no white space and none of
    the characters the pattern excludes, and does not end in one of the
    punctuation marks [.,;:!?*]. *)
Theorem extracted_urls_are_clean (text url : string) :
  url ∈ _proxy_extract_urls_from_text text ->
  (String.prefix "http://" url || String.prefix "https://" url) = true /\
  Str.all url_char url = true /\
  (forall c, Str.occurs c _TRAILING_PUNCTUATION = true ->
             Str.endswith url (chr c) = false).
Proof.
  unfold _proxy_extract_urls_from_text. rewrite elem_of_list_to_set, list_elem_of_In.
  intros H. apply in_map_iff in H as (found & <- & Hin).
  pose proof (findall_from_shape text 0) as Hshape.
  rewrite List.Forall_forall in Hshape.
  destruct (Hshape found Hin) as (scheme & run & -> & Hscheme & Hrun).
  split; [|split].
  - rewrite rstrip_app.
    destruct (Str.rstrip _TRAILING_PUNCTUATION run) as [|x r].
    + destruct Hscheme as [-> | ->]; reflexivity.
    + destruct Hscheme as [-> | ->].
      * rewrite prefix_app. reflexivity.
      * rewrite (prefix_app "https://"). apply orb_true_r.
  - apply rstrip_all. rewrite all_app, Hrun.
    destruct Hscheme as [-> | ->]; reflexivity.
  - intros c Hc. apply rstrip_last, Hc.
Qed.

Lemma extracted_urls_are_clean_witness :
  let url := "https://example.com/a?b=1" in
  url ∈ _proxy_extract_urls_from_text "Read (https://example.com/a?b=1.) today" /\
  Str.all url_char url = true.
Proof.
  intros url.
  assert (H : url ∈ _proxy_extract_urls_from_text
                      "Read (https://example.com/a?b=1.) today")
    by (apply elem_of_list_to_set; vm_compute; constructor).
  split; [exact H|].
  apply (extracted_urls_are_clean _ url H).
Defined.

(** *** The transformations of a page *)

Section TransformFacts.

Variable Tree : Type.
Variable bleach_content : Tree -> string -> dict -> exn + Tree.
Variable include_images_in_tree : Tree -> Z -> Z -> exn + Tree.
Variable tostring : Tree -> exn + string.
Variable html2text_handle : bool -> string -> exn + string.
Variable findtext_title : Tree -> exn + option string.

(** The subtype and the prefix are read off the four switches. *)
Lemma transform_subtype_prefix tree base_href config b i t l content title subtype prefix :
  transform_html_content Tree bleach_content include_images_in_tree tostring
    html2text_handle findtext_title tree base_href config b i t l
  = inr (content, title, subtype, prefix) ->
  subtype = (if t then "plain" else "html") /\
  prefix = (if t then if l then "TP" else "TL" else "")
           +:+ (if i then "I" else "") +:+ (if b then "B" else "").
Proof.
  unfold transform_html_content, and_then.
  destruct b.
  - destruct (bleach_content _ _ _) as [e|tree1]; [discriminate|].
    destruct i.
    + destruct (include_images_in_tree _ _ _) as [e|tree2]; [discriminate|].
      destruct (tostring tree2) as [e|c]; [discriminate|].
      destruct t.
      * destruct (html2text_handle l c) as [e|c']; [discriminate|].
        destruct (findtext_title tree2) as [[]|[ti|]]; try discriminate;
          intros [= <- <- <- <-]; destruct l; split; reflexivity.
      * destruct (findtext_title tree2) as [[]|[ti|]]; try discriminate;
          intros [= <- <- <- <-]; split; reflexivity.
    + destruct (tostring tree1) as [e|c]; [discriminate|].
      destruct t.
      * destruct (html2text_handle l c) as [e|c']; [discriminate|].
        destruct (findtext_title tree1) as [[]|[ti|]]; try discriminate;
          intros [= <- <- <- <-]; destruct l; split; reflexivity.
      * destruct (findtext_title tree1) as [[]|[ti|]]; try discriminate;
          intros [= <- <- <- <-]; split; reflexivity.
  - destruct i.
    + destruct (include_images_in_tree _ _ _) as [e|tree2]; [discriminate|].
      destruct (tostring tree2) as [e|c]; [discriminate|].
      destruct t.
      * destruct (html2text_handle l c) as [e|c']; [discriminate|].
        destruct (findtext_title tree2) as [[]|[ti|]]; try discriminate;
          intros [= <- <- <- <-]; destruct l; split; reflexivity.
      * destruct (findtext_title tree2) as [[]|[ti|]]; try discriminate;
          intros [= <- <- <- <-]; split; reflexivity.
    + destruct (tostring tree) as [e|c]; [discriminate|].
      destruct t.
      * destruct (html2text_handle l c) as [e|c']; [discriminate|].
        destruct (findtext_title tree) as [[]|[ti|]]; try discriminate;
          intros [= <- <- <- <-]; destruct l; split; reflexivity.
      * destruct (findtext_title tree) as [[]|[ti|]]; try discriminate;
          intros [= <- <- <- <-]; split; reflexivity.
Qed.

End TransformFacts.

(** X23. The prefix that [transform_html_content] returns tells which
    transformations were applied: two runs that return the same prefix
    agree on bleaching, on image inlining and on text conversion (and then on
    whether links were dropped), hence on the subtype. *)
Theorem prefix_tells_the_transformations
    (Tree : Type)
    (bleach_content : Tree -> string -> dict -> exn + Tree)
    (include_images_in_tree : Tree -> Z -> Z -> exn + Tree)
    (tostring : Tree -> exn + string)
    (html2text_handle : bool -> string -> exn + string)
    (findtext_title : Tree -> exn + option string)
    tree1 base_href1 config1 b1 i1 t1 l1 content1 title1 subtype1 prefix1
    tree2 base_href2 config2 b2 i2 t2 l2 content2 title2 subtype2 prefix2 :
  transform_html_content Tree bleach_content include_images_in_tree tostring
    html2text_handle findtext_title tree1 base_href1 config1 b1 i1 t1 l1
  = inr (content1, title1, subtype1, prefix1) ->
  transform_html_content Tree bleach_content include_images_in_tree tostring
    html2text_handle findtext_title tree2 base_href2 config2 b2 i2 t2 l2
  = inr (content2, title2, subtype2, prefix2) ->
  prefix1 = prefix2 ->
  b1 = b2 /\ i1 = i2 /\ t1 = t2 /\ (t1 = true -> l1 = l2) /\ subtype1 = subtype2.
Proof.
  intros H1 H2 Hp.
  apply transform_subtype_prefix in H1 as [-> ->].
  apply transform_subtype_prefix in H2 as [-> ->].
  destruct b1, i1, t1, l1, b2, i2, t2, l2; try discriminate Hp;
    repeat apply conj; try reflexivity; intros [=].
Qed.

Lemma prefix_tells_the_transformations_witness :
  let ok := fun (tree : string) => @inr exn string tree in
  let run := transform_html_content string (fun tree _ _ => ok tree)
               (fun tree _ _ => ok tree) ok (fun _ content => inr content)
               (fun _ => inr (Some " A title ")) in
  let config := {| deobfuscators := []; default_image_timeout := 10;
                   default_max_images := 100 |} in
  run "<html/>" "http://example.com/" config true false true true
  = inr ("<html/>", Some "A title", "plain", "TPB").
Proof.
  intros ok run config.
  destruct (prefix_tells_the_transformations string (fun tree _ _ => ok tree)
              (fun tree _ _ => ok tree) ok (fun _ content => inr content)
              (fun _ => inr (Some " A title "))
              "<html/>" "http://example.com/" config true false true true
              "<html/>" (Some "A title") "plain" "TPB"
              "<p/>" "http://example.org/" config true false true true
              "<p/>" (Some "A title") "plain" "TPB") as (_ & _ & _ & _ & _);
    reflexivity.
Defined.

(** X24. The file name of a fetched page, as [proxy_build_message_from_url]
    fixes it with the subtype that [transform_html_content] returned, ends in
    [.txt] when the page was converted to text and in [.html] otherwise. *)
Theorem page_filename_ends_in_txt_or_html
    (Tree : Type)
    (bleach_content : Tree -> string -> dict -> exn + Tree)
    (include_images_in_tree : Tree -> Z -> Z -> exn + Tree)
    (tostring : Tree -> exn + string)
    (html2text_handle : bool -> string -> exn + string)
    (findtext_title : Tree -> exn + option string)
    tree base_href config bleach_html include_images as_txt txt_without_links
    content title subtype prefix (filename : string) :
  transform_html_content Tree bleach_content include_images_in_tree tostring
    html2text_handle findtext_title tree base_href config
    bleach_html include_images as_txt txt_without_links
  = inr (content, title, subtype, prefix) ->
  Str.endswith (proxy_fix_filename_extension filename subtype)
    (if as_txt then ".txt" else ".html") = true.
Proof.
  intros H. apply transform_subtype_prefix in H as [-> _].
  destruct as_txt.
  - rewrite fix_plain. destruct (Str.endswith filename ".txt") eqn:E;
      [exact E | apply endswith_app].
  - rewrite fix_html. destruct (Str.endswith filename ".html") eqn:E;
      [exact E | apply endswith_app].
Qed.

Lemma page_filename_ends_in_txt_or_html_witness :
  let ok := fun (tree : string) => @inr exn string tree in
  Str.endswith (proxy_fix_filename_extension "example com a" "html") ".html" = true.
Proof.
  intros ok.
  apply (page_filename_ends_in_txt_or_html string (fun tree _ _ => ok tree)
           (fun tree _ _ => ok tree) ok (fun _ content => inr content)
           (fun _ => inr None)
           "<html/>" "http://example.com/a"
           {| deobfuscators := []; default_image_timeout := 10;
              default_max_images := 100 |}
           false false false false "<html/>" None "html" "" "example com a").
  reflexivity.
Defined.

(** ** Sending *)

Lemma try_body_calls w t from_addr to_addr message :
  ~ In Smtp.quit (snd (Smtp.try_body w t from_addr to_addr message)) /\
  (fst (Smtp.try_body w t from_addr to_addr message) = Ret tt ->
   exists msg_data,
     In (Smtp.sendmail from_addr to_addr msg_data)
        (snd (Smtp.try_body w t from_addr to_addr message))).
Proof.
  unfold Smtp.try_body. destruct message as [msg_data|m].
  - destruct (w t _); cbn; (split; [intros [H|[]]; discriminate H|]);
      intros H; try discriminate H; eexists; left; reflexivity.
  - destruct (w t (Smtp.as_bytes m)) as [|b|e]; cbn.
    + split; [intros [H|[]]; discriminate H | intros H; discriminate H].
    + destruct (w _ (Smtp.sendmail _ _ _)); cbn;
        (split; [intros [H|[H|[]]]; discriminate H|]);
        intros H; try discriminate H; eexists; right; left; reflexivity.
    + split; [intros [H|[]]; discriminate H | intros H; discriminate H].
Qed.

(** X25. [send_via_smtp] closes what it opened: [quit] is called exactly
    when the connection and the login succeeded, and it is then the last
    call, also when the message could not be encoded or sent; and a normal
    return means the message was handed to [sendmail]. *)
Theorem smtp_session_is_quit_after_login (options : Options) (from_addr : string)
    (to_addr : option string) (message : Smtp.Data + EmailMessage) (w : Smtp.World) :
  let connect := Smtp.SMTP_SSL (smtp_server options) in
  let log_in := Smtp.login (smtp_user options) (smtp_pass options) in
  let outcome := fst (Smtp.send_via_smtp options from_addr to_addr message w) in
  let calls := snd (Smtp.send_via_smtp options from_addr to_addr message w) in
  (In Smtp.quit calls <->
   (forall e, w [] connect <> Smtp.Failed e) /\
   (forall e, w [connect] log_in <> Smtp.Failed e)) /\
  (In Smtp.quit calls -> List.last calls connect = Smtp.quit) /\
  (outcome = Ret tt ->
   exists msg_data, In (Smtp.sendmail from_addr to_addr msg_data) calls).
Proof.
  intros connect log_in outcome calls.
  unfold outcome, calls, Smtp.send_via_smtp. fold connect log_in.
  destruct (try_body_calls w [connect; log_in] from_addr to_addr message) as [Hq Hs].
  assert (Hfail1 : forall e, w [] connect = Smtp.Failed e ->
            ~ ((forall e, w [] connect <> Smtp.Failed e) /\
               (forall e, w [connect] log_in <> Smtp.Failed e))).
  { intros e E [H _]. exact (H e E). }
  assert (Hfail2 : forall e, w [connect] log_in = Smtp.Failed e ->
            ~ ((forall e, w [] connect <> Smtp.Failed e) /\
               (forall e, w [connect] log_in <> Smtp.Failed e))).
  { intros e E [_ H]. exact (H e E). }
  assert (Hafter :
    forall o d,
      Smtp.try_body w [connect; log_in] from_addr to_addr message = (o, d) ->
      (forall e, w [] connect <> Smtp.Failed e) ->
      (forall e, w [connect] log_in <> Smtp.Failed e) ->
      let r := match w ([connect; log_in] ++ d) Smtp.quit with
               | Smtp.Failed e => (Raise e, [connect; log_in] ++ d ++ [Smtp.quit])
               | _ => (o, [connect; log_in] ++ d ++ [Smtp.quit])
               end in
      (In Smtp.quit (snd r) <->
       (forall e, w [] connect <> Smtp.Failed e) /\
       (forall e, w [connect] log_in <> Smtp.Failed e)) /\
      (In Smtp.quit (snd r) -> List.last (snd r) connect = Smtp.quit) /\
      (fst r = Ret tt ->
       exists msg_data, In (Smtp.sendmail from_addr to_addr msg_data) (snd r))).
  { intros o d E H1 H2 r. rewrite E in Hq, Hs. cbn [fst snd] in Hq, Hs.
    assert (Hsnd : snd r = [connect; log_in] ++ d ++ [Smtp.quit])
      by (unfold r; destruct (w _ Smtp.quit); reflexivity).
    rewrite Hsnd. split; [|split].
    - split; [auto|]. intros _. apply in_or_app. right. apply in_or_app. right.
      left. reflexivity.
    - intros _.
      change ([connect; log_in] ++ d ++ [Smtp.quit])
        with (connect :: log_in :: (d ++ [Smtp.quit])).
      rewrite !app_comm_cons. apply List.last_last.
    - intros Hr.
      assert (Ho : o = Ret tt)
        by (unfold r in Hr; destruct (w _ Smtp.quit); [exact Hr | exact Hr | discriminate Hr]).
      destruct (Hs Ho) as [msg_data Hin]. exists msg_data.
      apply in_or_app. right. apply in_or_app. left. exact Hin. }
  destruct (w [] connect) as [|b1|e1] eqn:E1.
  - destruct (w [connect] log_in) as [|b2|e2] eqn:E2.
    + destruct (Smtp.try_body w [connect; log_in] from_addr to_addr message)
        as [o d] eqn:Eb.
      apply (Hafter o d eq_refl); intros e; congruence.
    + destruct (Smtp.try_body w [connect; log_in] from_addr to_addr message)
        as [o d] eqn:Eb.
      apply (Hafter o d eq_refl); intros e; congruence.
    + cbn. split; [|split].
      * split; [intros [H|[H|[]]]; discriminate H|].
        intros H. destruct (Hfail2 e2 eq_refl H).
      * intros [H|[H|[]]]; discriminate H.
      * intros H; discriminate H.
  - destruct (w [connect] log_in) as [|b2|e2] eqn:E2.
    + destruct (Smtp.try_body w [connect; log_in] from_addr to_addr message)
        as [o d] eqn:Eb.
      apply (Hafter o d eq_refl); intros e; congruence.
    + destruct (Smtp.try_body w [connect; log_in] from_addr to_addr message)
        as [o d] eqn:Eb.
      apply (Hafter o d eq_refl); intros e; congruence.
    + cbn. split; [|split].
      * split; [intros [H|[H|[]]]; discriminate H|].
        intros H. destruct (Hfail2 e2 eq_refl H).
      * intros [H|[H|[]]]; discriminate H.
      * intros H; discriminate H.
  - cbn. split; [|split].
    + split; [intros [H|[]]; discriminate H|].
      intros H. destruct (Hfail1 e1 eq_refl H).
    + intros [H|[]]; discriminate H.
    + intros H; discriminate H.
Qed.

(** ** The language of a reply *)

Lemma detect_language_loop_spec langs cl d :
  let r := detect_language_loop langs cl d in
  (r = d /\ Forall (fun l => contains l (lower cl) = false) langs) \/
  (exists pre post,
     langs = pre ++ r :: post /\ contains r (lower cl) = true /\
     Forall (fun l => contains l (lower cl) = false) pre).
Proof.
  induction langs as [|lang rest IH]; cbn [detect_language_loop].
  - left. split; [reflexivity | constructor].
  - destruct (contains lang (lower cl)) eqn:E.
    + right. exists [], rest. split; [reflexivity|]. split; [exact E | constructor].
    + destruct IH as [[Hr Hall]|(pre & post & Hl & Hc & Hpre)].
      * left. split; [exact Hr | constructor; assumption].
      * right. exists (lang :: pre), post. split; [cbn; f_equal; exact Hl|].
        split; [exact Hc | constructor; assumption].
Qed.

Lemma dict_get_key (d : dict) k : In k (keys d) -> is_Some (dict_get d k).
Proof.
  induction d as [|[k' v] d IH]; [intros []|].
  cbn. destruct (String.eqb k' k) eqn:E; [eauto|].
  intros [H|H]; [|exact (IH H)].
  apply String.eqb_neq in E. contradiction.
Qed.

(** X26. The language of a reply is the first language of the template
    table, in the table's order, whose code occurs in the lower-cased
    Content-Language header, and ["en"] when none does; and when the table
    has an ["en"] entry the detected language always has an entry, so the
    reply body is that entry and never a fallback for a language that is
    missing. *)
Theorem reply_is_in_the_detected_language (templates : dict) (themail : Message)
    (reply_en : string) :
  dict_get templates "en" = Some reply_en ->
  let header := match getitem themail "Content-Language" with
                | Some v => v
                | None => ""
                end in
  let lang := detect_language themail (keys templates) "en" in
  (exists body, dict_get templates lang = Some body /\
                default reply_en (dict_get templates lang) = body) /\
  ((lang = "en" /\
    Forall (fun l => contains l (lower header) = false) (keys templates)) \/
   (exists pre post,
      keys templates = pre ++ lang :: post /\
      contains lang (lower header) = true /\
      Forall (fun l => contains l (lower header) = false) pre)).
Proof.
  intros Hen header lang.
  pose proof (detect_language_loop_spec (keys templates) header "en") as Hspec.
  change (detect_language_loop (keys templates) header "en") with lang in Hspec.
  cbn zeta in Hspec. split; [|exact Hspec].
  assert (Hsome : is_Some (dict_get templates lang)).
  { destruct Hspec as [[-> _]|(pre & post & Hk & _ & _)]; [rewrite Hen; eauto|].
    apply dict_get_key. rewrite Hk. apply in_or_app. right. left. reflexivity. }
  destruct Hsome as [body Hb]. exists body. rewrite Hb. split; reflexivity.
Qed.

Lemma reply_is_in_the_detected_language_witness :
  let templates := [("en", "I am away."); ("de", "Ich bin nicht da.")] in
  let themail :=
    {| headers := [("From", "a@example.com"); ("Content-Language", "de-DE")];
       payload := "" |} in
  let lang := detect_language themail (keys templates) "en" in
  lang = "de" /\
  exists body, dict_get templates lang = Some body /\
               default "I am away." (dict_get templates lang) = body.
Proof.
  intros templates themail lang. split; [reflexivity|].
  exact (proj1 (reply_is_in_the_detected_language templates themail "I am away."
                  eq_refl)).
Defined.

(** ** Templates without an English entry *)

Lemma for_items_skips body pre l s w t :
  dedup_body body ->
  Forall (fun ret => forall themail, mail_of ret = Some themail ->
                                     getitem themail "Message-ID" ∈ s) pre ->
  for_items body (pre ++ l) s w t = for_items body l s w t.
Proof.
  intros (Hnone & Hseen & _) Hall. revert t.
  induction Hall as [|ret pre Hret Hall IH]; intros t; [reflexivity|].
  cbn [app for_items].
  assert (Hb : body ret s w t = (Ret s, [])).
  { destruct (mail_of ret) as [themail|] eqn:Em; [|auto].
    apply (Hseen _ _ _ _ _ Em). auto. }
  rewrite (bind_Ret _ _ _ _ _ _ Hb). rewrite app_nil_r, IH.
  destruct (for_items body l s w t); reflexivity.
Qed.

Lemma imap_answer op w t typ data :
  w t op = RImap typ data -> imap op w t = (Ret (typ, data), [op]).
Proof.
  intros E. unfold imap, mbind, M_bind, bind, perform, raise, mret, M_ret, ret.
  rewrite E. reflexivity.
Qed.

Lemma WorkEmail_item_KeyError config options ret themail seen_ids w t :
  mail_of ret = Some themail ->
  getitem themail "Message-ID" ∉ seen_ids ->
  dict_get (work_reply config) "en" = None \/
  dict_get (work_forward_note config) "en" = None ->
  WorkEmail_item config options ret seen_ids w t = (Raise KeyError, []).
Proof.
  intros (meta & rest & -> & Hm)%mail_of_Some Hnew Hen.
  unfold WorkEmail_item, should_process_message, dict_getitem.
  rewrite Hm. destruct (decide _) as [|_]; [contradiction|].
  cbn [negb].
  destruct (dict_get (work_reply config) "en") as [reply_en|]; [|reflexivity].
  destruct Hen as [Hen|Hen]; [discriminate Hen|]. rewrite Hen. reflexivity.
Qed.

Lemma Obnoxious_item_KeyError config options ret themail seen_ids w t :
  mail_of ret = Some themail ->
  getitem themail "Message-ID" ∉ seen_ids ->
  dict_get (obnoxious_reply config) "en" = None ->
  Obnoxious_item config options ret seen_ids w t = (Raise KeyError, []).
Proof.
  intros (meta & rest & -> & Hm)%mail_of_Some Hnew Hen.
  unfold Obnoxious_item, should_process_message, dict_getitem.
  rewrite Hm. destruct (decide _) as [|_]; [contradiction|].
  cbn [negb]. rewrite Hen. reflexivity.
Qed.

(** X27. When the reply table or the forward-note table of [WorkEmail] has
    no ["en"] entry, the first mail of a batch that is not yet seen makes the
    handler fail with [KeyError] right after the fetch: nothing is sent,
    whatever the language of the mail and whether or not that language has an
    entry. *)
Theorem work_email_needs_its_english_templates (config : Config)
    (server : Connection) (listofuids : list string) (options : Options)
    (seen_ids : seen_set) (w : World) (t : list Op) (typ : string)
    (pre post : list Item) (ret : Item) (themail : Message) :
  dict_get (work_reply config) "en" = None \/
  dict_get (work_forward_note config) "en" = None ->
  w t (uid_FETCH (join "," listofuids)) = RImap typ (pre ++ ret :: post) ->
  Forall (fun r => forall m, mail_of r = Some m -> getitem m "Message-ID" ∈ seen_ids)
    pre ->
  mail_of ret = Some themail ->
  getitem themail "Message-ID" ∉ seen_ids ->
  WorkEmail config server listofuids options seen_ids w t
  = (Raise KeyError, [uid_FETCH (join "," listofuids)]).
Proof.
  intros Hen Hfetch Hpre Hmail Hnew. unfold WorkEmail.
  rewrite (bind_Ret _ _ _ _ _ _ (imap_answer _ _ _ _ _ Hfetch)).
  assert (Hitems :
    for_items (WorkEmail_item config options) (pre ++ ret :: post) seen_ids w
      (t ++ [uid_FETCH (join "," listofuids)]) = (Raise KeyError, [])).
  { rewrite (for_items_skips _ _ _ _ _ _ (dedup_body_WorkEmail config options) Hpre).
    cbn [for_items].
    apply bind_Raise, WorkEmail_item_KeyError with (themail := themail); assumption. }
  rewrite (bind_Raise _ _ _ _ _ _ Hitems). reflexivity.
Qed.

Lemma work_email_needs_its_english_templates_witness :
  WorkEmail SampleConfigs.german_only Sample.server ["1"] Sample.options ∅
    Sample.one_work_mail []
  = (Raise KeyError, [uid_FETCH "1"]).
Proof.
  apply (work_email_needs_its_english_templates SampleConfigs.german_only
           Sample.server ["1"] Sample.options ∅ Sample.one_work_mail [] "OK" []
           [ItemBytes ")"] (fetched "1 (RFC822" Sample.work_mail) Sample.work_mail).
  - left. reflexivity.
  - reflexivity.
  - constructor.
  - reflexivity.
  - apply not_elem_of_empty.
Defined.

(** X28. When the reply table of [Obnoxious] has no ["en"] entry, the
    handler fails with [KeyError] at the first mail not yet seen, and by then
    the whole batch is already marked deleted and expunged: the mails are
    gone and no reply is sent. *)
Theorem obnoxious_deletes_then_fails_without_english_template (config : Config)
    (server : Connection) (listofuids : list string) (options : Options)
    (seen_ids : seen_set) (w : World) (t : list Op) (typ : string)
    (pre post : list Item) (ret : Item) (themail : Message) :
  let theuids := join "," listofuids in
  let delete := uid_STORE theuids "+FLAGS" "(\Deleted)" in
  dict_get (obnoxious_reply config) "en" = None ->
  w t (uid_FETCH theuids) = RImap typ (pre ++ ret :: post) ->
  (exists typ' data', w (t ++ [uid_FETCH theuids]) delete = RImap typ' data') ->
  (exists typ' data',
     w (t ++ [uid_FETCH theuids; delete]) expunge = RImap typ' data') ->
  Forall (fun r => forall m, mail_of r = Some m -> getitem m "Message-ID" ∈ seen_ids)
    pre ->
  mail_of ret = Some themail ->
  getitem themail "Message-ID" ∉ seen_ids ->
  Obnoxious config server listofuids options seen_ids w t
  = (Raise KeyError, [uid_FETCH theuids; delete; expunge]).
Proof.
  intros theuids delete Hen Hfetch (typ1 & data1 & Hd) (typ2 & data2 & He) Hpre
    Hmail Hnew.
  unfold Obnoxious. fold theuids.
  rewrite (bind_Ret _ _ _ _ _ _ (imap_answer _ _ _ _ _ Hfetch)).
  assert (HD : Delete server listofuids options seen_ids w (t ++ [uid_FETCH theuids])
               = (Ret (typ1, data1, seen_ids), [delete])).
  { unfold Delete. fold theuids. fold delete.
    rewrite (bind_Ret _ _ _ _ _ _ (imap_answer _ _ _ _ _ Hd)). reflexivity. }
  rewrite (bind_Ret _ _ _ _ _ _ HD).
  assert (HE : Expunge server listofuids options seen_ids w
                 ((t ++ [uid_FETCH theuids]) ++ [delete])
               = (Ret (typ2, data2, seen_ids), [expunge])).
  { unfold Expunge. rewrite <- app_assoc.
    rewrite (bind_Ret _ _ _ _ _ _ (imap_answer _ _ _ _ _ He)). reflexivity. }
  rewrite (bind_Ret _ _ _ _ _ _ HE).
  assert (Hitems : forall t',
    for_items (Obnoxious_item config options) (pre ++ ret :: post) seen_ids w t'
    = (Raise KeyError, [])).
  { intros t'.
    rewrite (for_items_skips _ _ _ _ _ _ (dedup_body_Obnoxious config options) Hpre).
    cbn [for_items].
    apply bind_Raise, Obnoxious_item_KeyError with (themail := themail); assumption. }
  rewrite (bind_Raise _ _ _ _ _ _ (Hitems _)). reflexivity.
Qed.

Lemma obnoxious_deletes_then_fails_without_english_template_witness :
  let spam := Sample.mail "spammer@spam.com" "me@example.com" "Buy" "<s1>" in
  Obnoxious SampleConfigs.german_only Sample.server ["1"] Sample.options ∅
    (Sample.quiet [fetched "1 (RFC822" spam]) []
  = (Raise KeyError,
     [uid_FETCH "1"; uid_STORE "1" "+FLAGS" "(\Deleted)"; expunge]).
Proof.
  intros spam.
  apply (obnoxious_deletes_then_fails_without_english_template
           SampleConfigs.german_only Sample.server ["1"] Sample.options ∅
           (Sample.quiet [fetched "1 (RFC822" spam]) [] "OK" [] []
           (fetched "1 (RFC822" spam) spam).
  - reflexivity.
  - reflexivity.
  - eexists _, _. reflexivity.
  - eexists _, _. reflexivity.
  - constructor.
  - reflexivity.
  - apply not_elem_of_empty.
Defined.
